(** * jsoncrack node editor: patching a JSON document by path

    A shallow embedding of
      - [src/features/modals/NodeModal/index.tsx]
        ([normalizeNodeData], [jsonPathToString], [applyEditToJson] and the
        handlers of [NodeModal]: the effect on a change of the selected
        node, Edit, Save, Cancel and the content pane), and
      - [src/features/editor/views/GraphView/CustomNode/ObjectNode.tsx]
        ([getRowText], [Row] and [Node]).

    Modelling conventions.
      - A JavaScript value of the working copy is a [value]: the JSON
        scalars, arrays (which in JavaScript may have holes and named,
        non-index properties) and ordinary objects.  Own properties of an
        object are kept as an association list in the order in which
        JavaScript enumerates them (array-index keys ascending, then the
        other keys in insertion order).
      - Numbers are integers ([Z]); fractional numbers are not modelled.
        Strings are byte strings.  [valid_JSON] recognises the whole
        grammar of JSON text, so that a text that is not valid is told
        from a valid text that [JSON_parse] does not read.
      - [undefined] is the [None] of an [option value].
      - An exception is the [Throw] of a [result].  The module is an ES
        module, hence strict code: assigning a property on a primitive
        throws a [TypeError], as does any property access on [null] or
        [undefined].
      - Property names are data keys: a segment that names a property
        resolved through a prototype chain or a built-in accessor
        ([constructor], [__proto__], [length], ...) is outside the model;
        [data_path] says that a path has no such segment, and the
        statements about the walk are about such paths.
      - The working copy that is patched may have holes and named
        properties in its arrays; [stored] is the document that its text
        holds.
      - [JSON.stringify] and [JSON.parse] are library functions; they are
        written out here on the values above, so that the stores hold text
        as they do in the program.
      - The graph constructor behind [useJson.setJson] is a parameter. *)

From Stdlib Require Import ZArith NArith List String Ascii Bool Lia.
From Stdlib Require Import DecimalString DecimalN DecimalZ.
From stdpp Require Import base list.

Import ListNotations.
Set Warnings "-register-all".
Local Open Scope string_scope.
Local Open Scope list_scope.

(** * Part I: the embedding *)

(** ** Exceptions *)

Inductive exn : Type :=
| TypeError
| SyntaxError.

Inductive result (A : Type) : Type :=
| Ok (a : A)
| Throw (e : exn).

Arguments Ok {A} a.
Arguments Throw {A} e.

Definition bind {A B : Type} (r : result A) (k : A -> result B) : result B :=
  match r with
  | Ok a => k a
  | Throw e => Throw e
  end.

Notation "'let*' x ':=' r 'in' k" := (bind r (fun x => k))
  (at level 10, x name, r at level 100, k at level 200, only parsing).

Definition completes {A : Type} (r : result A) : bool :=
  match r with Ok _ => true | Throw _ => false end.

(** ** Numbers and property keys *)

(** [String(n)] for an integer, in decimal digits, as the engine prints
    the integers that a double holds exactly (up to [2^53] in absolute
    value). *)
Definition number_to_string (z : Z) : string :=
  NilZero.string_of_int (Z.to_int z).

(** [String(i)] for a non-negative integer. *)
Definition index_to_string (n : N) : string :=
  NilZero.string_of_uint (N.to_uint n).

(** A path segment: [string | number] (jsonc-parser's [Segment]). *)
Inductive segment : Type :=
| SegKey (s : string)
| SegIdx (n : N).

Definition JSONPath : Type := list segment.

(** [ToPropertyKey]: a number used as a property name is its decimal
    string. *)
Definition property_key (seg : segment) : string :=
  match seg with
  | SegKey s => s
  | SegIdx n => index_to_string n
  end.

(** An array index is a canonical numeric string below [2^32 - 1]. *)
Definition array_index (k : string) : option N :=
  match NilZero.uint_of_string k with
  | Some d =>
      let n := N.of_uint d in
      if (String.eqb (index_to_string n) k && (n <? 4294967295)%N)%bool
      then Some n else None
  | None => None
  end.

(** ** Own properties of an ordinary object, in enumeration order *)

Section Props.
Context {A : Type}.

Definition props : Type := list (string * A).

Fixpoint obj_get (o : props) (k : string) : option A :=
  match o with
  | [] => None
  | (k', v) :: o' => if String.eqb k' k then Some v else obj_get o' k
  end.

(** Overwrite the value of a key that is present; its place is kept. *)
Fixpoint obj_replace (o : props) (k : string) (v : A) : props :=
  match o with
  | [] => []
  | (k', v') :: o' =>
      if String.eqb k' k then (k', v) :: o' else (k', v') :: obj_replace o' k v
  end.

(** A new array-index key goes before the first key that is a larger
    index or not an index at all. *)
Fixpoint obj_insert_index (o : props) (i : N) (k : string) (v : A) : props :=
  match o with
  | [] => [(k, v)]
  | (k', v') :: o' =>
      match array_index k' with
      | Some j =>
          if (i <? j)%N then (k, v) :: (k', v') :: o'
          else (k', v') :: obj_insert_index o' i k v
      | None => (k, v) :: (k', v') :: o'
      end
  end.

(** [o[k] = v] on an ordinary object. *)
Definition obj_set (o : props) (k : string) (v : A) : props :=
  match obj_get o k with
  | Some _ => obj_replace o k v
  | None =>
      match array_index k with
      | Some i => obj_insert_index o i k v
      | None => o ++ [(k, v)]
      end
  end.

(** [{...a, ...b}]: the own properties of [a], then those of [b], are
    defined one after the other on a fresh object. *)
Definition spread (a b : props) : props :=
  fold_left (fun o kv => obj_set o (fst kv) (snd kv)) (a ++ b) [].

(** The own keys are in enumeration order: array-index keys ascending,
    then the other keys; no key twice. *)
Fixpoint keys_ordered_from (lo : option N) (ks : list string) : bool :=
  match ks with
  | [] => true
  | k :: ks' =>
      negb (existsb (String.eqb k) ks') &&
      match array_index k, lo with
      | Some i, Some l => (l <=? i)%N && keys_ordered_from (Some (N.succ i)) ks'
      | Some _, None => false
      | None, _ => keys_ordered_from None ks'
      end
  end.

Definition own_keys_ordered (o : props) : bool :=
  keys_ordered_from (Some 0%N) (map fst o).

End Props.

Arguments props A : clear implicits.

(** ** Values of the working copy *)

Inductive value : Type :=
| VNull
| VBool (b : bool)
| VNum (z : Z)
| VStr (s : string)
| VArr (elems : list (option value)) (named : props value)
| VObj (own : props value).

(** [arr[i] = v]: inside the array the slot is overwritten; past its end
    the array grows and the slots in between are holes. *)
Definition arr_set (elems : list (option value)) (i : nat) (v : value)
  : list (option value) :=
  if (i <? length elems)%nat then <[i := Some v]> elems
  else elems ++ replicate (i - length elems) None ++ [Some v].

(** [s[i]] on a string primitive: the one-character string at [i]. *)
Definition str_get (s : string) (k : string) : option value :=
  match array_index k with
  | Some i =>
      match String.get (N.to_nat i) s with
      | Some c => Some (VStr (String c EmptyString))
      | None => None
      end
  | None => None
  end.

(** [parent[seg]] as an expression, for a segment that names a data key
    ([data_segment], below): [undefined] is [None].  A name that the
    language defines ([length], [__proto__], [constructor], [toString],
    ...) is resolved by the engine and is not read here. *)
Definition js_get (parent : value) (seg : segment) : result (option value) :=
  let k := property_key seg in
  match parent with
  | VNull => Throw TypeError
  | VBool _ | VNum _ => Ok None
  | VStr s => Ok (str_get s k)
  | VArr elems named =>
      match array_index k with
      | Some i => Ok (mjoin (elems !! N.to_nat i))
      | None => Ok (obj_get named k)
      end
  | VObj own => Ok (obj_get own k)
  end.

(** [parent[seg] = v] in strict code, for a segment that names a data
    key: an own data property is created or overwritten.  The [__proto__]
    accessor and the [length] of an array are not assigned here. *)
Definition js_set (parent : value) (seg : segment) (v : value) : result value :=
  let k := property_key seg in
  match parent with
  | VNull | VBool _ | VNum _ | VStr _ => Throw TypeError
  | VArr elems named =>
      match array_index k with
      | Some i => Ok (VArr (arr_set elems (N.to_nat i) v) named)
      | None => Ok (VArr elems (obj_set named k v))
      end
  | VObj own => Ok (VObj (obj_set own k v))
  end.

(** ** TreePatcher: the body of [applyEditToJson] on the working copy *)

(** Lines 77-90: the assignment at the last segment. *)
Definition assign_terminal (parent : value) (lastSeg : segment) (newValue : value)
  : result value :=
  match newValue with
  | VObj nv =>
      let* target := js_get parent lastSeg in
      match target with
      | Some (VObj t) => js_set parent lastSeg (VObj (spread t nv))
      | _ => js_set parent lastSeg newValue
      end
  | _ => js_set parent lastSeg newValue
  end.

(** Lines 70-90 on a non-empty path [seg :: rest].  The loop variable
    [parent] is an alias into the working copy: what is assigned below it
    is seen through the slot it was read from, which is what the final
    [js_set] of each step records. *)
Fixpoint assign_at (parent : value) (seg : segment) (rest : list segment)
    (newValue : value) : result value :=
  match rest with
  | [] => assign_terminal parent seg newValue
  | seg' :: rest' =>
      let* cur := js_get parent seg in
      let* parent1 :=
        match cur with
        | None => js_set parent seg (VObj [])
        | Some _ => Ok parent
        end in
      let* child := js_get parent1 seg in
      match child with
      | None => Throw TypeError
      | Some c =>
          let* c' := assign_at c seg' rest' newValue in
          js_set parent1 seg c'
      end
  end.

(** The value that [applyEditToJson] serialises: [newValue] at the root
    (lines 56-67), the patched working copy otherwise. *)
Definition patched (parsedCurrent : value) (path : option JSONPath)
    (newValue : value) : result value :=
  match path with
  | None | Some [] => Ok newValue
  | Some (seg :: rest) => assign_at parsedCurrent seg rest newValue
  end.

(** [v[p0][p1]...]: the value at a position, [None] when there is none. *)
Fixpoint value_at (v : value) (p : JSONPath) : option value :=
  match p with
  | [] => Some v
  | seg :: rest =>
      match js_get v seg with
      | Ok (Some c) => value_at c rest
      | _ => None
      end
  end.

(** ** Predicates on documents and the vocabulary of the statements *)

(** Objects and arrays are the values that hold properties. *)
Definition is_container (v : value) : bool :=
  match v with
  | VArr _ _ | VObj _ => true
  | _ => false
  end.

(** The root and every existing value the walk descends into hold
    properties.  Where a segment is missing the walk continues in a fresh
    object, below which nothing can fail. *)
Fixpoint patchable (parent : value) (seg : segment) (rest : list segment)
  : bool :=
  is_container parent &&
  match rest with
  | [] => true
  | seg' :: rest' =>
      match js_get parent seg with
      | Ok (Some c) => patchable c seg' rest'
      | _ => true
      end
  end.

(** No key twice. *)
Fixpoint keys_unique (ks : list string) : bool :=
  match ks with
  | [] => true
  | k :: ks' => negb (existsb (String.eqb k) ks') && keys_unique ks'
  end.

(** No hole, no named property on an array, own keys in enumeration order,
    at every depth. *)
Fixpoint JSON_value (v : value) : bool :=
  match v with
  | VNull | VBool _ | VNum _ | VStr _ => true
  | VArr elems named =>
      forallb (fun e => match e with Some x => JSON_value x | None => false end)
        elems
      && match named with [] => true | _ :: _ => false end
  | VObj own =>
      own_keys_ordered own && forallb (fun kv => JSON_value (snd kv)) own
  end.

(** What lines 79-90 put at the last segment, from what was there. *)
Definition terminal_value (existing : option value) (newValue : value) : value :=
  match newValue, existing with
  | VObj nv, Some (VObj t) => VObj (spread t nv)
  | _, _ => newValue
  end.

(** The chain of fresh objects that ends in [newValue]. *)
Fixpoint nest (seg : segment) (rest : list segment) (newValue : value) : value :=
  match rest with
  | [] => VObj [(property_key seg, newValue)]
  | seg' :: rest' => VObj [(property_key seg, nest seg' rest' newValue)]
  end.

(** [arr.length] of the array at a position, if there is an array. *)
Definition array_length_at (v : value) (p : JSONPath) : option nat :=
  match value_at v p with
  | Some (VArr elems _) => Some (length elems)
  | _ => None
  end.

(** ** JSON text *)

Local Open Scope string_scope.

Definition dquote : string := String (ascii_of_nat 34) EmptyString.
Definition backslash : ascii := ascii_of_nat 92.
Definition newline : string := String (ascii_of_nat 10) EmptyString.

Definition hex_digit (n : nat) : ascii :=
  ascii_of_nat (if (n <? 10)%nat then 48 + n else 87 + n).

(** One character of [QuoteJSONString]. *)
Definition quote_char (c : ascii) : string :=
  let n := nat_of_ascii c in
  if (n =? 34)%nat then String backslash dquote
  else if (n =? 92)%nat then String backslash (String backslash EmptyString)
  else if (n =? 8)%nat then String backslash "b"
  else if (n =? 9)%nat then String backslash "t"
  else if (n =? 10)%nat then String backslash "n"
  else if (n =? 12)%nat then String backslash "f"
  else if (n =? 13)%nat then String backslash "r"
  else if (n <? 32)%nat then
    String backslash
      ("u00" ++ String (hex_digit (n / 16)) (String (hex_digit (n mod 16)) EmptyString))
  else String c EmptyString.

Fixpoint quote_chars (s : string) : string :=
  match s with
  | EmptyString => EmptyString
  | String c s' => quote_char c ++ quote_chars s'
  end.

(** [JSON.stringify(s)] for a string. *)
Definition quote (s : string) : string := dquote ++ quote_chars s ++ dquote.

(** [JSON.stringify(v, null, 2)] at the indentation [indent]: holes of an
    array print as [null], its named properties are not printed. *)
Fixpoint stringify (indent : string) (v : value) : string :=
  match v with
  | VNull => "null"
  | VBool true => "true"
  | VBool false => "false"
  | VNum z => number_to_string z
  | VStr s => quote s
  | VArr elems _ =>
      match elems with
      | [] => "[]"
      | _ :: _ =>
          let inner := indent ++ "  " in
          "[" ++ newline ++ inner
          ++ String.concat ("," ++ newline ++ inner)
               (map (fun e => match e with
                              | Some x => stringify inner x
                              | None => "null"
                              end) elems)
          ++ newline ++ indent ++ "]"
      end
  | VObj own =>
      match own with
      | [] => "{}"
      | _ :: _ =>
          let inner := indent ++ "  " in
          "{" ++ newline ++ inner
          ++ String.concat ("," ++ newline ++ inner)
               (map (fun kv => quote (fst kv) ++ ": " ++ stringify inner (snd kv))
                  own)
          ++ newline ++ indent ++ "}"
      end
  end.

Definition JSON_stringify (v : value) : string := stringify EmptyString v.

(** [JSON.stringify(path)] for an array of strings and numbers. *)
Definition stringify_segment (seg : segment) : string :=
  match seg with
  | SegKey s => quote s
  | SegIdx n => index_to_string n
  end.

Definition JSON_stringify_path (path : JSONPath) : string :=
  "[" ++ String.concat "," (map stringify_segment path) ++ "]".

(** ** PathCodec: [jsonPathToString] *)

Definition display_segment (seg : segment) : string :=
  match seg with
  | SegIdx n => index_to_string n
  | SegKey s => dquote ++ s ++ dquote
  end.

Definition jsonPathToString (path : option JSONPath) : string :=
  match path with
  | None | Some [] => "$"
  | Some p => "$[" ++ String.concat "][" (map display_segment p) ++ "]"
  end.

(** ** Rows of a node *)

(** jsonc-parser's [NodeType]. *)
Inductive NodeType : Type :=
| TObject | TArray | TProperty | TString | TNumber | TBoolean | TNull.

(** The value of a row: [string | number | boolean | null]. *)
Inductive scalar : Type :=
| SNull
| SBool (b : bool)
| SNum (z : Z)
| SStr (s : string).

Definition scalar_value (x : scalar) : value :=
  match x with
  | SNull => VNull
  | SBool b => VBool b
  | SNum z => VNum z
  | SStr s => VStr s
  end.

(** Modelled from the spec: the row type [NodeData["text"][number]] is
    declared in [types/graph], which is not among the sources.  A row has a
    kind tag, an optional key, the raw scalar as its value, and an optional
    count of children. *)
Record NodeRow : Type := {
  key : option string;
  value_ : scalar;
  type : NodeType;
  childrenCount : option N
}.

(** [String(x)], as a template literal renders a scalar. *)
Definition to_text (x : scalar) : string :=
  match x with
  | SNull => "null"
  | SBool true => "true"
  | SBool false => "false"
  | SNum z => number_to_string z
  | SStr s => s
  end.

(** ObjectNode.tsx, [getRowText]. *)
Definition getRowText (row : NodeRow) : scalar :=
  match type row with
  | TObject =>
      SStr ("{" ++ index_to_string (default 0%N (childrenCount row)) ++ " keys}")
  | TArray =>
      SStr ("[" ++ index_to_string (default 0%N (childrenCount row)) ++ " items]")
  | _ => value_ row
  end.

(** A key is truthy when it is present and not the empty string. *)
Definition truthy_key (k : option string) : option string :=
  match k with
  | Some EmptyString | None => None
  | Some s => Some s
  end.

(** [row.type !== "array" && row.type !== "object"]. *)
Definition is_scalar_row (row : NodeRow) : bool :=
  match type row with
  | TArray | TObject => false
  | _ => true
  end.

(** One step of the [forEach] of [normalizeNodeData], for a row that is
    not keyed [__proto__] ([proto_free], below). *)
Definition add_row (obj : props scalar) (row : NodeRow) : props scalar :=
  if is_scalar_row row then
    match truthy_key (key row) with
    | Some k => obj_set obj k (value_ row)
    | None => obj
    end
  else obj.

(** The object that [normalizeNodeData] fills, row after row. *)
Definition editable_fields (nodeRows : list NodeRow) : props scalar :=
  fold_left add_row nodeRows [].

Definition object_of_fields (fields : props scalar) : value :=
  VObj (map (fun kv => (fst kv, scalar_value (snd kv))) fields).

(** NodeModal/index.tsx, [normalizeNodeData]. *)
Definition normalizeNodeData (nodeRows : option (list NodeRow)) : string :=
  match nodeRows with
  | None | Some [] => "{}"
  | Some ((row :: rest) as rows) =>
      match rest, truthy_key (key row) with
      | [], None => to_text (value_ row)
      | _, _ => JSON_stringify (object_of_fields (editable_fields rows))
      end
  end.

(** ** The vocabulary of the statements about text *)

(** One accessor: a key in quotes, an index as it is, in brackets. *)
Definition bracketed (seg : segment) : string :=
  match seg with
  | SegKey s => "[" ++ dquote ++ s ++ dquote ++ "]"
  | SegIdx n => "[" ++ index_to_string n ++ "]"
  end.

(** The keyed rows that are neither arrays nor objects, as entries. *)
Fixpoint editable_rows (nodeRows : list NodeRow) : props scalar :=
  match nodeRows with
  | [] => []
  | row :: rest =>
      match is_scalar_row row, truthy_key (key row) with
      | true, Some k => (k, value_ row) :: editable_rows rest
      | _, _ => editable_rows rest
      end
  end.

Definition fields_value (fields : props scalar) : props value :=
  map (fun kv => (fst kv, scalar_value (snd kv))) fields.

(** ** [JSON.parse] *)

(** A recursive-descent reader of JSON text.  Numbers are read when they
    are integers; a number with a fraction or an exponent, and a [\u]
    escape above [007f], are outside the model and are not read. *)
Definition is_ws (c : ascii) : bool :=
  let n := nat_of_ascii c in
  (n =? 32)%nat || (n =? 9)%nat || (n =? 10)%nat || (n =? 13)%nat.

Fixpoint skip_ws (s : string) : string :=
  match s with
  | String c s' => if is_ws c then skip_ws s' else s
  | EmptyString => s
  end.

Definition digit_of (c : ascii) : option N :=
  let n := nat_of_ascii c in
  if ((48 <=? n) && (n <=? 57))%nat then Some (N.of_nat (n - 48)) else None.

Definition hex_of (c : ascii) : option N :=
  let n := nat_of_ascii c in
  if ((48 <=? n) && (n <=? 57))%nat then Some (N.of_nat (n - 48))
  else if ((97 <=? n) && (n <=? 102))%nat then Some (N.of_nat (n - 87))
  else if ((65 <=? n) && (n <=? 70))%nat then Some (N.of_nat (n - 55))
  else None.

(** The digits at the head of [s], as a number, and what follows them. *)
Fixpoint read_digits (s : string) (acc : N) : N * string :=
  match s with
  | String c s' =>
      match digit_of c with
      | Some d => read_digits s' (acc * 10 + d)
      | None => (acc, s)
      end
  | EmptyString => (acc, s)
  end.

(** After an optional sign: [0], or a non-zero digit and more digits; no
    fraction and no exponent may follow. *)
Definition read_integer (s : string) : option (N * string) :=
  match s with
  | String c s' =>
      match digit_of c with
      | Some d =>
          let '(n, rest) :=
            if (d =? 0)%N then (0%N, s') else read_digits s' d in
          match rest with
          | String c' _ =>
              let m := nat_of_ascii c' in
              if (((48 <=? m) && (m <=? 57)) || (m =? 46) || (m =? 101)
                  || (m =? 69))%nat
              then None else Some (n, rest)
          | EmptyString => Some (n, rest)
          end
      | None => None
      end
  | EmptyString => None
  end.

Definition read_number (s : string) : option (value * string) :=
  match s with
  | String c s' =>
      if (nat_of_ascii c =? 45)%nat
      then option_map (fun nr => (VNum (- Z.of_N (fst nr)), snd nr)) (read_integer s')
      else option_map (fun nr => (VNum (Z.of_N (fst nr)), snd nr)) (read_integer s)
  | EmptyString => None
  end.

Definition read_hex4 (s : string) : option (N * string) :=
  match s with
  | String a (String b (String c (String d rest))) =>
      match hex_of a, hex_of b, hex_of c, hex_of d with
      | Some x, Some y, Some z, Some w =>
          Some (((x * 16 + y) * 16 + z) * 16 + w, rest)%N
      | _, _, _, _ => None
      end
  | _ => None
  end.

(** The characters of a string literal after its opening quote, up to the
    closing one. *)
Fixpoint read_string_fuel (fuel : nat) (s : string) : option (string * string) :=
  match fuel with
  | O => None
  | S fuel' =>
      match s with
      | EmptyString => None
      | String c s' =>
          let n := nat_of_ascii c in
          if (n =? 34)%nat then Some (EmptyString, s')
          else if (n <? 32)%nat then None
          else if (n =? 92)%nat then
            match s' with
            | EmptyString => None
            | String e s'' =>
                let m := nat_of_ascii e in
                let continue (x : ascii) (rest : string) :=
                  option_map (fun r => (String x (fst r), snd r))
                    (read_string_fuel fuel' rest) in
                if (m =? 34)%nat then continue e s''
                else if (m =? 92)%nat then continue e s''
                else if (m =? 47)%nat then continue e s''
                else if (m =? 98)%nat then continue (ascii_of_nat 8) s''
                else if (m =? 102)%nat then continue (ascii_of_nat 12) s''
                else if (m =? 110)%nat then continue (ascii_of_nat 10) s''
                else if (m =? 114)%nat then continue (ascii_of_nat 13) s''
                else if (m =? 116)%nat then continue (ascii_of_nat 9) s''
                else if (m =? 117)%nat then
                  match read_hex4 s'' with
                  | Some (code, rest) =>
                      if (code <? 128)%N
                      then continue (ascii_of_N code) rest
                      else None
                  | None => None
                  end
                else None
            end
          else
            option_map (fun r => (String c (fst r), snd r))
              (read_string_fuel fuel' s')
      end
  end.

Definition read_string (s : string) : option (string * string) :=
  read_string_fuel (S (String.length s)) s.

Definition starts_with (p s : string) : option string :=
  if String.prefix p s
  then Some (String.substring (String.length p) (String.length s - String.length p) s)
  else None.

Fixpoint read_value (fuel : nat) (s : string) : option (value * string) :=
  match fuel with
  | O => None
  | S fuel' =>
      match skip_ws s with
      | EmptyString => None
      | String c s' as s0 =>
          let n := nat_of_ascii c in
          if (n =? 123)%nat then
            match skip_ws s' with
            | String c' s'' =>
                if (nat_of_ascii c' =? 125)%nat then Some (VObj [], s'')
                else read_members fuel' (skip_ws s') []
            | EmptyString => None
            end
          else if (n =? 91)%nat then
            match skip_ws s' with
            | String c' s'' =>
                if (nat_of_ascii c' =? 93)%nat then Some (VArr [] [], s'')
                else read_elements fuel' (skip_ws s') []
            | EmptyString => None
            end
          else if (n =? 34)%nat then
            option_map (fun r => (VStr (fst r), snd r)) (read_string s')
          else
            match starts_with "null" s0, starts_with "true" s0,
                  starts_with "false" s0 with
            | Some rest, _, _ => Some (VNull, rest)
            | _, Some rest, _ => Some (VBool true, rest)
            | _, _, Some rest => Some (VBool false, rest)
            | None, None, None => read_number s0
            end
      end
  end
with read_elements (fuel : nat) (s : string) (acc : list (option value))
  : option (value * string) :=
  match fuel with
  | O => None
  | S fuel' =>
      match read_value fuel' s with
      | Some (v, rest) =>
          match skip_ws rest with
          | String c rest' =>
              if (nat_of_ascii c =? 44)%nat
              then read_elements fuel' rest' (acc ++ [Some v])%list
              else if (nat_of_ascii c =? 93)%nat
              then Some (VArr (acc ++ [Some v])%list [], rest')
              else None
          | EmptyString => None
          end
      | None => None
      end
  end
with read_members (fuel : nat) (s : string) (acc : props value)
  : option (value * string) :=
  match fuel with
  | O => None
  | S fuel' =>
      match skip_ws s with
      | String q s' =>
          if (nat_of_ascii q =? 34)%nat then
            match read_string s' with
            | Some (k, rest) =>
                match skip_ws rest with
                | String c rest' =>
                    if (nat_of_ascii c =? 58)%nat then
                      match read_value fuel' rest' with
                      | Some (v, rest'') =>
                          match skip_ws rest'' with
                          | String d rest3 =>
                              if (nat_of_ascii d =? 44)%nat
                              then read_members fuel' rest3 (obj_set acc k v)
                              else if (nat_of_ascii d =? 125)%nat
                              then Some (VObj (obj_set acc k v), rest3)
                              else None
                          | EmptyString => None
                          end
                      | None => None
                      end
                    else None
                | EmptyString => None
                end
            | None => None
            end
          else None
      | EmptyString => None
      end
  end.

(** [JSON.parse(text)] on the texts of [within_model] (below): the value,
    or a [SyntaxError] for a text that is not valid JSON.  A valid text
    with a fraction, an exponent or a [\u] escape above [007f] is not
    read; [valid_JSON] tells it from a text that is not valid. *)
Definition JSON_parse (text : string) : result value :=
  match read_value (2 * String.length text + 2) text with
  | Some (v, rest) =>
      match skip_ws rest with
      | EmptyString => Ok v
      | String _ _ => Throw SyntaxError
      end
  | None => Throw SyntaxError
  end.

(** ** The stores and the edit session *)

(** Modelled from the spec: [NodeData] is declared in [types/graph], which
    is not among the sources.  A node has an identifier, its rows, a width
    and a height, and an optional path. *)
Record NodeData : Type := {
  id : string;
  text : list NodeRow;
  width : Z;
  height : Z;
  path : option JSONPath
}.

(** What the modal reads and writes: [useFile] ([contents], [hasChanges]),
    [useJson] ([json]), [useGraph] ([nodes], [selectedNode]) and the local
    state of [NodeModal] ([editing], [editedContent], [error]). *)
Record State : Type := {
  contents : string;
  hasChanges : bool;
  json : string;
  nodes : list NodeData;
  selectedNode : option NodeData;
  editing : bool;
  editedContent : string;
  error : option string
}.

Definition set_file (c : string) (st : State) : State :=
  {| contents := c; hasChanges := true; json := json st; nodes := nodes st;
     selectedNode := selectedNode st; editing := editing st;
     editedContent := editedContent st; error := error st |}.

Definition setSelectedNode (n : NodeData) (st : State) : State :=
  {| contents := contents st; hasChanges := hasChanges st; json := json st;
     nodes := nodes st; selectedNode := Some n; editing := editing st;
     editedContent := editedContent st; error := error st |}.

Definition setEditedContent (c : string) (st : State) : State :=
  {| contents := contents st; hasChanges := hasChanges st; json := json st;
     nodes := nodes st; selectedNode := selectedNode st; editing := editing st;
     editedContent := c; error := error st |}.

Definition setEditing (b : bool) (st : State) : State :=
  {| contents := contents st; hasChanges := hasChanges st; json := json st;
     nodes := nodes st; selectedNode := selectedNode st; editing := b;
     editedContent := editedContent st; error := error st |}.

Definition setError (e : option string) (st : State) : State :=
  {| contents := contents st; hasChanges := hasChanges st; json := json st;
     nodes := nodes st; selectedNode := selectedNode st; editing := editing st;
     editedContent := editedContent st; error := e |}.

(** [n => !n.path || n.path.length === 0] *)
Definition is_root (n : NodeData) : bool :=
  match path n with
  | None | Some [] => true
  | Some (_ :: _) => false
  end.

(** [n => JSON.stringify(n.path || []) === JSON.stringify(path || [])] *)
Definition same_path (p : JSONPath) (n : NodeData) : bool :=
  String.eqb (JSON_stringify_path (default [] (path n))) (JSON_stringify_path p).

(** Lines 98-106: find the node of the edited path again and select it. *)
Definition reselect (p : JSONPath) (st : State) : State :=
  match find (same_path p) (nodes st) with
  | Some n =>
      setEditedContent (normalizeNodeData (Some (text n))) (setSelectedNode n st)
  | None => st
  end.

Section EditSession.

(** The graph constructor behind [useJson.setJson], and the message of an
    exception: both come from outside the sources. *)
Variable build_graph : string -> list NodeData.
Variable message : exn -> string.

(** Modelled from the spec: [useJson.setJson] is defined in [store/useJson],
    which is not among the sources.  It stores the text and has the graph
    rebuilt from it; the selection is left as it is. *)
Definition setJson (jsonStr : string) (st : State) : State :=
  {| contents := contents st; hasChanges := hasChanges st; json := jsonStr;
     nodes := build_graph jsonStr; selectedNode := selectedNode st;
     editing := editing st; editedContent := editedContent st;
     error := error st |}.

(** Lines 92-96: serialise, write the file store, update the graph. *)
Definition publish (doc : value) (st : State) : State :=
  let jsonStr := JSON_stringify doc in
  setJson jsonStr (set_file jsonStr st).

(** NodeModal/index.tsx, [applyEditToJson].  An exception leaves before
    any store is written. *)
Definition applyEditToJson (p : option JSONPath) (newValue : value) (st : State)
  : result State :=
  let current := json st in
  let parsedCurrent :=
    match JSON_parse current with
    | Ok v => v
    | Throw _ => VObj []
    end in
  match p with
  | None | Some [] =>
      let st' := publish newValue st in
      match find is_root (nodes st') with
      | Some rootNode => Ok (setSelectedNode rootNode st')
      | None => Ok st'
      end
  | Some (seg :: rest) =>
      let* doc := assign_at parsedCurrent seg rest newValue in
      Ok (reselect (seg :: rest) (publish doc st))
  end.

(** The [onClick] of the Save button (lines 152-162). *)
Definition save (st : State) : State :=
  let st0 := setError None st in
  match JSON_parse (editedContent st0) with
  | Throw e => setError (Some (message e)) st0
  | Ok parsed =>
      match applyEditToJson (mbind path (selectedNode st0)) parsed st0 with
      | Ok st' => setEditing false st'
      | Throw e => setError (Some (message e)) st0
      end
  end.

End EditSession.

(** ** The text of a path, segment by segment *)

(** What follows a segment in the text of a path. *)
Definition separator (X : string) : Prop :=
  X = "]" \/ exists x, X = String "," x.

(** The text of a path after its opening bracket. *)
Fixpoint segments_text (p : JSONPath) : string :=
  match p with
  | [] => "]"
  | seg :: rest =>
      stringify_segment seg
      ++ match rest with
         | [] => "]"
         | _ :: _ => String "," (segments_text rest)
         end
  end.

(** ** States and nodes of the examples *)

Definition root_node_example : NodeData :=
  {| id := "1"; text := []; width := 0; height := 0; path := Some [] |}.

Definition node_a_example : NodeData :=
  {| id := "2"; text := []; width := 0; height := 0;
     path := Some [SegKey "a"] |}.

(** The current document text is empty, hence not valid JSON; the node at
    [["a"]] is selected and the edited text is [5]. *)
Definition unparsable_document_state : State :=
  {| contents := EmptyString; hasChanges := false; json := EmptyString;
     nodes := [node_a_example]; selectedNode := Some node_a_example;
     editing := true; editedContent := "5"; error := None |}.

Definition document_a_state : State :=
  {| contents := "{}"; hasChanges := false; json := "{}";
     nodes := [root_node_example]; selectedNode := Some root_node_example;
     editing := true; editedContent := "5"; error := None |}.

(** The root node of [{"a": 1, "b": {"c": 2}}]: a scalar row and an object
    row. *)
Definition root_rows_example : list NodeRow :=
  [ {| key := Some "a"; value_ := SNum 1; type := TNumber;
       childrenCount := None |};
    {| key := Some "b"; value_ := SNull; type := TObject;
       childrenCount := Some 1%N |} ].

Definition root_with_child_example : NodeData :=
  {| id := "1"; text := root_rows_example; width := 0; height := 0;
     path := Some [] |}.

Definition root_with_child_state : State :=
  {| contents := JSON_stringify
                   (VObj [("a", VNum 1); ("b", VObj [("c", VNum 2)])]);
     hasChanges := false;
     json := JSON_stringify
               (VObj [("a", VNum 1); ("b", VObj [("c", VNum 2)])]);
     nodes := [root_with_child_example];
     selectedNode := Some root_with_child_example;
     editing := true;
     editedContent := normalizeNodeData (Some root_rows_example);
     error := None |}.

(** ** Positions off the edited path *)

(** Two paths part ways: after a common prefix they continue with
    different property names. *)
Fixpoint diverges (p q : JSONPath) : bool :=
  match p, q with
  | seg :: p', seg' :: q' =>
      if String.eqb (property_key seg) (property_key seg')
      then diverges p' q' else true
  | _, _ => false
  end.

(** [v !== null && typeof v === "object" && !Array.isArray(v)] *)
Definition is_plain_object (v : value) : bool :=
  match v with
  | VObj _ => true
  | _ => false
  end.

(** ** The other handlers of [NodeModal] *)

(** [normalizeNodeData(nodeData?.text ?? [])] *)
Definition selected_content (st : State) : string :=
  normalizeNodeData
    (Some (match selectedNode st with Some n => text n | None => [] end)).

(** The effect that runs when [nodeData] or [opened] changes (lines
    38-42). *)
Definition onNodeChange (st : State) : State :=
  setEditedContent (selected_content st) (setEditing false (setError None st)).

(** The [onClick] of the Edit button (line 144). *)
Definition startEditing (st : State) : State := setEditing true st.

(** The [onClick] of the Cancel button (lines 169-173). *)
Definition cancel (st : State) : State :=
  setError None (setEditing false (setEditedContent (selected_content st) st)).

(** The content pane (lines 123-140): the content of the selected node,
    or the text being edited. *)
Definition shown_content (st : State) : string :=
  if editing st then editedContent st else selected_content st.

(** The node at [["a"]] of [{"a": 1}] is selected and its value is being
    replaced by [5]. *)
Definition node_a_selected_state : State :=
  {| contents := JSON_stringify (VObj [("a", VNum 1)]); hasChanges := false;
     json := JSON_stringify (VObj [("a", VNum 1)]);
     nodes := [root_node_example; node_a_example];
     selectedNode := Some node_a_example;
     editing := true; editedContent := "5"; error := None |}.

(** The same, with an edited text that is not valid JSON. *)
Definition node_a_bad_text_state : State :=
  {| contents := JSON_stringify (VObj [("a", VNum 1)]); hasChanges := false;
     json := JSON_stringify (VObj [("a", VNum 1)]);
     nodes := [root_node_example; node_a_example];
     selectedNode := Some node_a_example;
     editing := true; editedContent := "{"; error := None |}.

(** ** Paths whose keys hold no double quote *)

Fixpoint quote_free (s : string) : bool :=
  match s with
  | EmptyString => true
  | String c s' => negb (nat_of_ascii c =? 34)%nat && quote_free s'
  end.

Definition segment_quote_free (seg : segment) : bool :=
  match seg with
  | SegKey s => quote_free s
  | SegIdx _ => true
  end.

(** The accessors of a path, one after the other. *)
Fixpoint accessors (p : JSONPath) : string :=
  match p with
  | [] => EmptyString
  | seg :: rest => bracketed seg ++ accessors rest
  end.

(** ** Reading back what was written *)

(** White space only. *)
Fixpoint all_ws (s : string) : bool :=
  match s with
  | EmptyString => true
  | String c s' => is_ws c && all_ws s'
  end.

(** What may follow a number: the end of the text, or a character that is
    neither a digit, nor a point, nor an exponent mark. *)
Definition ends_number (rest : string) : bool :=
  match rest with
  | EmptyString => true
  | String c _ =>
      let m := nat_of_ascii c in
      negb (((48 <=? m) && (m <=? 57)) || (m =? 46) || (m =? 101)
            || (m =? 69))%nat
  end.

(** Fuel that is enough to read the text of a value. *)
Fixpoint reading_fuel (v : value) : nat :=
  match v with
  | VArr elems _ =>
      S (list_sum
           (map (fun e => S (match e with
                             | Some x => reading_fuel x
                             | None => 1%nat
                             end)) elems))
  | VObj own => S (list_sum (map (fun kv => S (reading_fuel (snd kv))) own))
  | _ => 1%nat
  end.

(** The text of an array slot and of an object member at an indentation. *)
Definition element_text (inner : string) (e : option value) : string :=
  match e with
  | Some x => stringify inner x
  | None => "null"
  end.

Definition member_text (inner : string) (kv : string * value) : string :=
  quote (fst kv) ++ ": " ++ stringify inner (snd kv).

(** The head of the text of a number: a digit or a minus sign. *)
Definition number_head (c : ascii) : bool :=
  let n := nat_of_ascii c in
  ((48 <=? n) && (n <=? 57) || (n =? 45))%nat.

Local Open Scope string_scope.

(** The statement of the round trip at a given fuel, for a value, for the
    elements of an array and for the members of an object. *)
Definition reads_values (fuel : nat) : Prop :=
  forall v indent w rest,
    all_ws w = true -> all_ws indent = true ->
    JSON_value v = true -> ends_number rest = true ->
    (reading_fuel v <= fuel)%nat ->
    read_value fuel (w ++ stringify indent v ++ rest) = Some (v, rest).

Definition reads_elements (fuel : nat) : Prop :=
  forall es acc w inner indent rest,
    all_ws w = true -> all_ws inner = true -> all_ws indent = true ->
    es <> [] ->
    forallb (fun e => match e with Some x => JSON_value x | None => false end)
      es = true ->
    (list_sum (map (fun e => S (match e with
                                | Some x => reading_fuel x
                                | None => 1%nat
                                end)) es) <= fuel)%nat ->
    read_elements fuel
      (w ++ String.concat ("," ++ newline ++ inner) (map (element_text inner) es)
         ++ newline ++ indent ++ "]" ++ rest) acc
    = Some (VArr (acc ++ es)%list [], rest).

Definition reads_members (fuel : nat) : Prop :=
  forall own acc w inner indent rest,
    all_ws w = true -> all_ws inner = true -> all_ws indent = true ->
    own <> [] ->
    forallb (fun kv => JSON_value (snd kv)) own = true ->
    (list_sum (map (fun kv => S (reading_fuel (snd kv))) own) <= fuel)%nat ->
    read_members fuel
      (w ++ String.concat ("," ++ newline ++ inner) (map (member_text inner) own)
         ++ newline ++ indent ++ "}" ++ rest) acc
    = Some (VObj (fold_left (fun o kv => obj_set o (fst kv) (snd kv)) own acc),
            rest).

(** ** Edits within the document *)

(** The walk stays inside what the document has: every container it
    writes to is an object, or an array written at an index within its
    length. *)
Fixpoint writes_in_place (parent : value) (seg : segment) (rest : list segment)
  : bool :=
  match parent with
  | VObj _ => true
  | VArr elems _ =>
      match array_index (property_key seg) with
      | Some i => (N.to_nat i <? length elems)%nat
      | None => false
      end
  | _ => false
  end &&
  match rest with
  | [] => true
  | seg' :: rest' =>
      match js_get parent seg with
      | Ok (Some c) => writes_in_place c seg' rest'
      | _ => true
      end
  end.

(** The edit writes within the document: at the root always, below it
    where the walk does. *)
Definition edits_in_place (D : value) (p : option JSONPath) : bool :=
  match p with
  | Some (seg :: rest) => writes_in_place D seg rest
  | _ => true
  end.

(** [parsedCurrent] of [applyEditToJson] (lines 47-54): the document read
    from the json store, an empty object when its text does not parse. *)
Definition parsedCurrent (st : State) : value :=
  match JSON_parse (json st) with
  | Ok v => v
  | Throw _ => VObj []
  end.

(** [typeof x === "string"] on the value of a row. *)
Definition is_string (x : scalar) : bool :=
  match x with
  | SStr _ => true
  | _ => false
  end.

(** ** Nodes whose content is saved as it is shown *)

(** The node of the object at [["b"]] of
    [{"a": 1, "b": {"c": 2, "d": []}}], selected, with the content the
    modal computed as edited text. *)
Definition object_rows_example : list NodeRow :=
  [ {| key := Some "c"; value_ := SNum 2; type := TNumber;
       childrenCount := None |};
    {| key := Some "d"; value_ := SNull; type := TArray;
       childrenCount := Some 0%N |} ].

Definition node_b_example : NodeData :=
  {| id := "3"; text := object_rows_example; width := 0; height := 0;
     path := Some [SegKey "b"] |}.

Definition node_b_unchanged_state : State :=
  {| contents := JSON_stringify
                   (VObj [("a", VNum 1);
                          ("b", VObj [("c", VNum 2); ("d", VArr [] [])])]);
     hasChanges := false;
     json := JSON_stringify
               (VObj [("a", VNum 1);
                      ("b", VObj [("c", VNum 2); ("d", VArr [] [])])]);
     nodes := [root_node_example; node_b_example];
     selectedNode := Some node_b_example;
     editing := true;
     editedContent := normalizeNodeData (Some object_rows_example);
     error := None |}.

(** The leaf at [["a"]] of [{"a": 1}], selected, with the content the
    modal computed as edited text. *)
Definition leaf_row_example : NodeRow :=
  {| key := None; value_ := SNum 1; type := TNumber; childrenCount := None |}.

Definition leaf_a_example : NodeData :=
  {| id := "2"; text := [leaf_row_example]; width := 0; height := 0;
     path := Some [SegKey "a"] |}.

Definition leaf_a_unchanged_state : State :=
  {| contents := JSON_stringify (VObj [("a", VNum 1)]); hasChanges := false;
     json := JSON_stringify (VObj [("a", VNum 1)]);
     nodes := [root_node_example; leaf_a_example];
     selectedNode := Some leaf_a_example;
     editing := true;
     editedContent := normalizeNodeData (Some [leaf_row_example]);
     error := None |}.

(** The leaf at [["a"]] of [{"a": "12"}], a string, selected, with the
    content the modal computed as edited text. *)
Definition string_row_example : NodeRow :=
  {| key := None; value_ := SStr "12"; type := TString;
     childrenCount := None |}.

Definition string_leaf_example : NodeData :=
  {| id := "2"; text := [string_row_example]; width := 0; height := 0;
     path := Some [SegKey "a"] |}.

Definition string_leaf_state : State :=
  {| contents := JSON_stringify (VObj [("a", VStr "12")]); hasChanges := false;
     json := JSON_stringify (VObj [("a", VStr "12")]);
     nodes := [root_node_example; string_leaf_example];
     selectedNode := Some string_leaf_example;
     editing := true;
     editedContent := normalizeNodeData (Some [string_row_example]);
     error := None |}.

(** ** Rendering the rows of a node *)

(** The props of [Row] (ObjectNode.tsx, [RowProps]). *)
Record RowProps : Type := {
  rp_row : NodeRow;
  rp_x : Z;
  rp_y : Z;
  rp_index : nat
}.

(** What [Row] renders that depends on its props: the two position
    attributes, whether the colour swatch is there, and the text. *)
Record RowElement : Type := {
  data_x : Z;
  data_y : Z;
  has_swatch : bool;
  shown_text : scalar
}.

Section Render.

(** [NODE_DIMENSIONS.ROW_HEIGHT], from [constants/graph], which is not
    among the sources. *)
Variable ROW_HEIGHT : Z.

Definition rowPosition (index : nat) : Z := Z.of_nat index * ROW_HEIGHT.

(** ObjectNode.tsx, [Row] (lines 16-39). *)
Definition Row (p : RowProps) : RowElement :=
  {| data_x := rp_x p;
     data_y := rp_y p + rowPosition (rp_index p);
     has_swatch :=
       match key (rp_row p) with
       | Some k => String.eqb k "color" && is_string (value_ (rp_row p))
       | None => false
       end;
     shown_text := getRowText (rp_row p) |}.

(** ObjectNode.tsx, [Node] (lines 51-64): one [Row] per row of the node,
    each with its React key. *)
Definition Node (node : NodeData) (x y : Z) : list (string * RowProps) :=
  imap (fun index row =>
          (id node ++ "-" ++ index_to_string (N.of_nat index),
           {| rp_row := row; rp_x := x; rp_y := y; rp_index := index |}))
       (text node).

End Render.

(** ** Data keys and built-in names *)

(** The names that the language defines (ECMAScript 2024 with its
    Annex B): the string-keyed properties of the prototypes of an object,
    an array, a string, a number and a boolean, and [length].
    [parent[seg]] with such a name is resolved by the engine (a method, a
    prototype object, the length of an array, the [__proto__] accessor)
    and not among the own data properties; [js_get] and [js_set] are the
    reading and the assignment of the other names, the data keys. *)
Definition builtin_names : list string :=
  [ "length"; "__proto__"; "constructor"; "hasOwnProperty"; "isPrototypeOf";
    "propertyIsEnumerable"; "toLocaleString"; "toString"; "valueOf";
    "__defineGetter__"; "__defineSetter__"; "__lookupGetter__";
    "__lookupSetter__";
    "at"; "concat"; "copyWithin"; "entries"; "every"; "fill"; "filter";
    "find"; "findIndex"; "findLast"; "findLastIndex"; "flat"; "flatMap";
    "forEach"; "includes"; "indexOf"; "join"; "keys"; "lastIndexOf"; "map";
    "pop"; "push"; "reduce"; "reduceRight"; "reverse"; "shift"; "slice";
    "some"; "sort"; "splice"; "toReversed"; "toSorted"; "toSpliced";
    "unshift"; "values"; "with";
    "anchor"; "big"; "blink"; "bold"; "charAt"; "charCodeAt"; "codePointAt";
    "endsWith"; "fixed"; "fontcolor"; "fontsize"; "isWellFormed"; "italics";
    "link"; "localeCompare"; "match"; "matchAll"; "normalize"; "padEnd";
    "padStart"; "repeat"; "replace"; "replaceAll"; "search"; "small";
    "split"; "startsWith"; "strike"; "sub"; "substr"; "substring"; "sup";
    "toLocaleLowerCase"; "toLocaleUpperCase"; "toLowerCase"; "toUpperCase";
    "toWellFormed"; "trim"; "trimEnd"; "trimLeft"; "trimRight"; "trimStart";
    "toExponential"; "toFixed"; "toPrecision" ].

Definition builtin_name (k : string) : bool :=
  existsb (String.eqb k) builtin_names.

(** A segment that names a data key: a number always does. *)
Definition data_segment (seg : segment) : bool :=
  negb (builtin_name (property_key seg)).

Definition data_path (p : JSONPath) : bool := forallb data_segment p.

(** No row is keyed [__proto__]: on the fresh object of
    [normalizeNodeData] the assignment [obj["__proto__"] = value] goes to
    the inherited accessor and adds no entry, which [add_row] does not
    follow. *)
Definition proto_free (rows : list NodeRow) : bool :=
  forallb (fun row => match key row with
                      | Some k => negb (String.eqb k "__proto__")
                      | None => true
                      end) rows.

(** ** The JSON grammar *)

(** A recogniser of the whole grammar of JSON text, numbers with a
    fraction or an exponent and every [\u] escape included: what
    [JSON.parse] accepts, of which [JSON_parse] reads a part. *)
Fixpoint skip_digits (s : string) : string :=
  match s with
  | String c s' =>
      match digit_of c with
      | Some _ => skip_digits s'
      | None => s
      end
  | EmptyString => s
  end.

(** One digit or more. *)
Definition accept_digits (s : string) : option string :=
  match s with
  | String c s' =>
      match digit_of c with
      | Some _ => Some (skip_digits s')
      | None => None
      end
  | EmptyString => None
  end.

(** [0], or a non-zero digit and more digits. *)
Definition accept_int (s : string) : option string :=
  match s with
  | String c s' =>
      match digit_of c with
      | Some d => if (d =? 0)%N then Some s' else Some (skip_digits s')
      | None => None
      end
  | EmptyString => None
  end.

Definition accept_frac (s : string) : option string :=
  match s with
  | String c s' => if (nat_of_ascii c =? 46)%nat then accept_digits s' else Some s
  | EmptyString => Some s
  end.

Definition accept_exp (s : string) : option string :=
  match s with
  | String c s' =>
      if ((nat_of_ascii c =? 101) || (nat_of_ascii c =? 69))%nat then
        match s' with
        | String d s'' =>
            if ((nat_of_ascii d =? 43) || (nat_of_ascii d =? 45))%nat
            then accept_digits s'' else accept_digits s'
        | EmptyString => None
        end
      else Some s
  | EmptyString => Some s
  end.

Definition accept_number (s : string) : option string :=
  match s with
  | String c s' =>
      let unsigned := if (nat_of_ascii c =? 45)%nat then s' else s in
      match accept_int unsigned with
      | Some r1 =>
          match accept_frac r1 with
          | Some r2 => accept_exp r2
          | None => None
          end
      | None => None
      end
  | EmptyString => None
  end.

Fixpoint accept_string_fuel (fuel : nat) (s : string) : option string :=
  match fuel with
  | O => None
  | S fuel' =>
      match s with
      | EmptyString => None
      | String c s' =>
          let n := nat_of_ascii c in
          if (n =? 34)%nat then Some s'
          else if (n <? 32)%nat then None
          else if (n =? 92)%nat then
            match s' with
            | EmptyString => None
            | String e s'' =>
                let m := nat_of_ascii e in
                if ((m =? 34) || (m =? 92) || (m =? 47) || (m =? 98)
                    || (m =? 102) || (m =? 110) || (m =? 114) || (m =? 116))%nat
                then accept_string_fuel fuel' s''
                else if (m =? 117)%nat then
                  match read_hex4 s'' with
                  | Some (_, rest) => accept_string_fuel fuel' rest
                  | None => None
                  end
                else None
            end
          else accept_string_fuel fuel' s'
      end
  end.

Definition accept_string (s : string) : option string :=
  accept_string_fuel (S (String.length s)) s.

Fixpoint accept_value (fuel : nat) (s : string) : option string :=
  match fuel with
  | O => None
  | S fuel' =>
      match skip_ws s with
      | EmptyString => None
      | String c s' as s0 =>
          let n := nat_of_ascii c in
          if (n =? 123)%nat then
            match skip_ws s' with
            | String c' s'' =>
                if (nat_of_ascii c' =? 125)%nat then Some s''
                else accept_members fuel' (skip_ws s')
            | EmptyString => None
            end
          else if (n =? 91)%nat then
            match skip_ws s' with
            | String c' s'' =>
                if (nat_of_ascii c' =? 93)%nat then Some s''
                else accept_elements fuel' (skip_ws s')
            | EmptyString => None
            end
          else if (n =? 34)%nat then accept_string s'
          else
            match starts_with "null" s0, starts_with "true" s0,
                  starts_with "false" s0 with
            | Some rest, _, _ => Some rest
            | _, Some rest, _ => Some rest
            | _, _, Some rest => Some rest
            | None, None, None => accept_number s0
            end
      end
  end
with accept_elements (fuel : nat) (s : string) : option string :=
  match fuel with
  | O => None
  | S fuel' =>
      match accept_value fuel' s with
      | Some rest =>
          match skip_ws rest with
          | String c rest' =>
              if (nat_of_ascii c =? 44)%nat then accept_elements fuel' rest'
              else if (nat_of_ascii c =? 93)%nat then Some rest'
              else None
          | EmptyString => None
          end
      | None => None
      end
  end
with accept_members (fuel : nat) (s : string) : option string :=
  match fuel with
  | O => None
  | S fuel' =>
      match skip_ws s with
      | String q s' =>
          if (nat_of_ascii q =? 34)%nat then
            match accept_string s' with
            | Some rest =>
                match skip_ws rest with
                | String c rest' =>
                    if (nat_of_ascii c =? 58)%nat then
                      match accept_value fuel' rest' with
                      | Some rest'' =>
                          match skip_ws rest'' with
                          | String d rest3 =>
                              if (nat_of_ascii d =? 44)%nat
                              then accept_members fuel' rest3
                              else if (nat_of_ascii d =? 125)%nat
                              then Some rest3
                              else None
                          | EmptyString => None
                          end
                      | None => None
                      end
                    else None
                | EmptyString => None
                end
            | None => None
            end
          else None
      | EmptyString => None
      end
  end.

(** The text is valid JSON. *)
Definition valid_JSON (text : string) : bool :=
  match accept_value (2 * String.length text + 2) text with
  | Some rest =>
      match skip_ws rest with
      | EmptyString => true
      | String _ _ => false
      end
  | None => false
  end.

(** [JSON_parse] does on the text what [JSON.parse] does: it reads it, or
    the text is not valid JSON. *)
Definition within_model (text : string) : bool :=
  completes (JSON_parse text) || negb (valid_JSON text).

(** ** The document that is stored *)

(** What [JSON.parse] reads from the text that [JSON.stringify] writes
    for a working copy: a hole of an array is [null] there and a named
    property of an array is not there. *)
Fixpoint stored (v : value) : value :=
  match v with
  | VArr elems _ =>
      VArr (map (fun e => Some (match e with
                                | Some x => stored x
                                | None => VNull
                                end)) elems) []
  | VObj own => VObj (map (fun kv => (fst kv, stored (snd kv))) own)
  | _ => v
  end.

(** The keys of every object are in enumeration order, under holes and
    named properties as well. *)
Fixpoint well_keyed (v : value) : bool :=
  match v with
  | VArr elems _ =>
      forallb (fun e => match e with Some x => well_keyed x | None => true end)
        elems
  | VObj own =>
      own_keys_ordered own && forallb (fun kv => well_keyed (snd kv)) own
  | _ => true
  end.

(** Along the walk, an array is addressed by an array index. *)
Fixpoint indexes_arrays (parent : value) (seg : segment) (rest : list segment)
  : bool :=
  match parent with
  | VArr _ _ =>
      match array_index (property_key seg) with
      | Some _ => true
      | None => false
      end
  | _ => true
  end &&
  match rest with
  | [] => true
  | seg' :: rest' =>
      match js_get parent seg with
      | Ok (Some c) => indexes_arrays c seg' rest'
      | _ => true
      end
  end.

(** * Part II: facts and theorems *)

Local Open Scope list_scope.

(** ** Facts about own properties *)

Section PropsFacts.
Context {A : Type}.
Implicit Types (o : props A) (k : string) (v : A).

Lemma obj_get_replace_eq o k v :
  obj_get (obj_replace o k v) k = option_map (fun _ => v) (obj_get o k).
Proof.
  induction o as [|[k' v'] o IH]; simpl; [reflexivity|].
  destruct (String.eqb k' k) eqn:E; simpl; rewrite E; auto.
Qed.

Lemma obj_get_replace_ne o k k' v :
  k <> k' -> obj_get (obj_replace o k v) k' = obj_get o k'.
Proof.
  intros Hne. induction o as [|[k0 v0] o IH]; simpl; [reflexivity|].
  destruct (String.eqb_spec k0 k) as [->|Hk]; simpl.
  - destruct (String.eqb_spec k k'); [contradiction|reflexivity].
  - rewrite IH. reflexivity.
Qed.

Lemma obj_get_insert_index_eq o i k v :
  obj_get o k = None -> obj_get (obj_insert_index o i k v) k = Some v.
Proof.
  induction o as [|[k0 v0] o IH]; simpl; intros Hk.
  - rewrite String.eqb_refl. reflexivity.
  - destruct (String.eqb k0 k) eqn:E; [discriminate|].
    destruct (array_index k0) as [j|]; [destruct (i <? j)%N|]; simpl;
      rewrite ?String.eqb_refl, ?E; auto.
Qed.

Lemma obj_get_insert_index_ne o i k k' v :
  k <> k' -> obj_get (obj_insert_index o i k v) k' = obj_get o k'.
Proof.
  intros Hne. apply String.eqb_neq in Hne.
  induction o as [|[k0 v0] o IH]; simpl.
  - rewrite Hne. reflexivity.
  - destruct (array_index k0) as [j|]; [destruct (i <? j)%N|]; simpl;
      rewrite ?Hne, ?IH; reflexivity.
Qed.

Lemma obj_get_app o o' k :
  obj_get (o ++ o') k =
  match obj_get o k with Some x => Some x | None => obj_get o' k end.
Proof.
  induction o as [|[k0 v0] o IH]; simpl; [reflexivity|].
  destruct (String.eqb k0 k); auto.
Qed.

Lemma obj_get_set_eq o k v : obj_get (obj_set o k v) k = Some v.
Proof.
  unfold obj_set. destruct (obj_get o k) eqn:E.
  - rewrite obj_get_replace_eq, E. reflexivity.
  - destruct (array_index k).
    + apply obj_get_insert_index_eq, E.
    + rewrite obj_get_app, E. simpl. rewrite String.eqb_refl. reflexivity.
Qed.

Lemma obj_get_set_ne o k k' v :
  k <> k' -> obj_get (obj_set o k v) k' = obj_get o k'.
Proof.
  intros Hne. unfold obj_set. destruct (obj_get o k) eqn:E.
  - apply obj_get_replace_ne, Hne.
  - destruct (array_index k).
    + apply obj_get_insert_index_ne, Hne.
    + rewrite obj_get_app. simpl.
      apply String.eqb_neq in Hne. rewrite Hne.
      destruct (obj_get o k'); reflexivity.
Qed.

Lemma obj_replace_id o k v : obj_get o k = Some v -> obj_replace o k v = o.
Proof.
  induction o as [|[k0 v0] o IH]; simpl; [reflexivity|].
  destruct (String.eqb k0 k); intros H.
  - congruence.
  - rewrite IH; auto.
Qed.

(** Assigning to a key the value it already has changes nothing. *)
Lemma obj_set_id o k v : obj_get o k = Some v -> obj_set o k v = o.
Proof.
  intros H. unfold obj_set. rewrite H. apply obj_replace_id, H.
Qed.

Lemma obj_set_set_id o k v : obj_set (obj_set o k v) k v = obj_set o k v.
Proof. apply obj_set_id, obj_get_set_eq. Qed.

End PropsFacts.

(** ** Facts about property reads and writes *)

Lemma arr_get_set_eq (elems : list (option value)) (i : nat) (v : value) :
  mjoin (arr_set elems i v !! i) = Some v.
Proof.
  unfold arr_set. destruct (Nat.ltb_spec i (length elems)) as [Hlt|Hge].
  - rewrite list_lookup_insert_eq by exact Hlt. reflexivity.
  - rewrite lookup_app_r by lia.
    rewrite lookup_app_r by (rewrite length_replicate; lia).
    rewrite length_replicate.
    replace (i - length elems - (i - length elems))%nat with 0%nat by lia.
    reflexivity.
Qed.

Lemma arr_set_id (elems : list (option value)) (i : nat) (v : value) :
  mjoin (elems !! i) = Some v -> arr_set elems i v = elems.
Proof.
  intros H. unfold arr_set.
  destruct (elems !! i) as [x|] eqn:E; [|discriminate].
  simpl in H. subst x.
  pose proof (lookup_lt_Some _ _ _ E) as Hlt.
  destruct (Nat.ltb_spec i (length elems)); [|lia].
  apply list_insert_id, E.
Qed.

Lemma js_set_completes parent seg v :
  completes (js_set parent seg v) = is_container parent.
Proof.
  destruct parent; simpl; try reflexivity.
  destruct (array_index (property_key seg)); reflexivity.
Qed.

Lemma js_set_container parent seg v :
  is_container parent = true -> exists parent', js_set parent seg v = Ok parent'.
Proof.
  intros H. pose proof (js_set_completes parent seg v) as Hc.
  rewrite H in Hc. destruct (js_set parent seg v); [eauto|discriminate].
Qed.

Lemma js_set_is_container parent seg v parent' :
  js_set parent seg v = Ok parent' ->
  is_container parent = true /\ is_container parent' = true.
Proof.
  destruct parent; simpl; try discriminate.
  - destruct (array_index (property_key seg)); intros [= <-]; auto.
  - intros [= <-]; auto.
Qed.

(** What was assigned is what is read back. *)
Lemma js_get_set_eq parent seg v parent' :
  js_set parent seg v = Ok parent' -> js_get parent' seg = Ok (Some v).
Proof.
  destruct parent; simpl; try discriminate.
  - destruct (array_index (property_key seg)) as [i|] eqn:E;
      intros [= <-]; simpl; rewrite E.
    + rewrite arr_get_set_eq. reflexivity.
    + rewrite obj_get_set_eq. reflexivity.
  - intros [= <-]. simpl. rewrite obj_get_set_eq. reflexivity.
Qed.

(** Assigning to a slot of a container the value it holds changes
    nothing. *)
Lemma js_set_id parent seg v :
  is_container parent = true ->
  js_get parent seg = Ok (Some v) -> js_set parent seg v = Ok parent.
Proof.
  destruct parent; simpl; try discriminate; intros _.
  - destruct (array_index (property_key seg)) as [i|]; intros [= H].
    + rewrite arr_set_id by exact H. reflexivity.
    + rewrite obj_set_id by exact H. reflexivity.
  - intros [= H]. rewrite obj_set_id by exact H. reflexivity.
Qed.

Lemma js_get_container parent seg :
  is_container parent = true -> exists r, js_get parent seg = Ok r.
Proof.
  destruct parent; simpl; try discriminate; intros _; eauto.
  destruct (array_index (property_key seg)); eauto.
Qed.

(** ** When the patch completes *)

Lemma assign_terminal_completes parent seg newValue :
  completes (assign_terminal parent seg newValue) = is_container parent.
Proof.
  unfold assign_terminal.
  destruct newValue; try apply js_set_completes.
  destruct (js_get parent seg) as [[[]|]|e] eqn:Hg; simpl;
    try apply js_set_completes.
  destruct parent; simpl in *; try reflexivity;
    try destruct (array_index _); discriminate.
Qed.

Lemma js_set_throws parent seg v e :
  js_set parent seg v = Throw e -> e = TypeError.
Proof.
  destruct parent; simpl; try destruct (array_index _); congruence.
Qed.

Lemma js_get_throws parent seg e :
  js_get parent seg = Throw e -> e = TypeError.
Proof.
  destruct parent; simpl; try destruct (array_index _); congruence.
Qed.

Lemma assign_terminal_throws parent seg newValue e :
  assign_terminal parent seg newValue = Throw e -> e = TypeError.
Proof.
  unfold assign_terminal.
  destruct newValue; try apply js_set_throws.
  destruct (js_get parent seg) as [[[]|]|e'] eqn:Hg; simpl;
    try apply js_set_throws.
  intros [= <-]. eapply js_get_throws, Hg.
Qed.

Lemma assign_at_completes newValue rest :
  forall parent seg,
    completes (assign_at parent seg rest newValue) = patchable parent seg rest.
Proof.
  induction rest as [|seg' rest' IH]; intros parent seg.
  - simpl. rewrite assign_terminal_completes, andb_true_r. reflexivity.
  - cbn [assign_at patchable].
    destruct (is_container parent) eqn:Hc; simpl.
    + destruct (js_get_container parent seg Hc) as [[c|] Hg]; rewrite Hg; simpl.
      * rewrite Hg. simpl.
        specialize (IH c seg'). destruct (assign_at c seg' rest' newValue); simpl.
        -- rewrite js_set_completes, Hc. exact IH.
        -- exact IH.
      * destruct (js_set_container parent seg (VObj []) Hc) as [p1 Hs].
        rewrite Hs. simpl. rewrite (js_get_set_eq _ _ _ _ Hs). simpl.
        specialize (IH (VObj []) seg').
        destruct (assign_at (VObj []) seg' rest' newValue); simpl.
        -- rewrite js_set_completes.
           apply js_set_is_container in Hs. apply Hs.
        -- destruct rest'; simpl in IH; discriminate.
    + destruct (js_get parent seg) as [[c|]|e] eqn:Hg; simpl; [| |reflexivity].
      * rewrite Hg. simpl.
        destruct (assign_at c seg' rest' newValue); simpl; [|reflexivity].
        rewrite js_set_completes. exact Hc.
      * pose proof (js_set_completes parent seg (VObj [])) as Hs.
        rewrite Hc in Hs.
        destruct (js_set parent seg (VObj [])); [discriminate|reflexivity].
Qed.

Lemma assign_at_throws newValue rest :
  forall parent seg e,
    assign_at parent seg rest newValue = Throw e -> e = TypeError.
Proof.
  induction rest as [|seg' rest' IH]; intros parent seg e.
  - apply assign_terminal_throws.
  - cbn [assign_at].
    pose proof js_set_throws as Hset. pose proof js_get_throws as Hget.
    destruct (js_get parent seg) as [cur|e0] eqn:Hg; simpl.
    2:{ intros [= <-]. eapply Hget, Hg. }
    destruct (match cur with None => _ | Some _ => _ end) as [p1|e1] eqn:H1; simpl.
    2:{ intros [= <-]. destruct cur; [discriminate|]. eapply Hset, H1. }
    destruct (js_get p1 seg) as [[c|]|e2] eqn:Hg2; simpl.
    + destruct (assign_at c seg' rest' newValue) as [c'|e3] eqn:Hr; simpl.
      * apply Hset.
      * intros [= <-]. eapply IH, Hr.
    + congruence.
    + intros [= <-]. eapply Hget, Hg2.
Qed.

(** ** Shallow merge *)

Section SpreadFacts.
Context {A : Type}.
Implicit Types (o : props A) (k : string) (v : A).

Lemma keys_ordered_from_unique lo ks :
  keys_ordered_from lo ks = true -> keys_unique ks = true.
Proof.
  revert lo. induction ks as [|k ks IH]; intros lo; simpl; [reflexivity|].
  intros [Hk H]%andb_prop. rewrite Hk. simpl.
  destruct (array_index k), lo; try discriminate.
  - apply andb_prop in H as [_ H]. eapply IH, H.
  - eapply IH, H.
  - eapply IH, H.
Qed.

Lemma obj_get_absent o k :
  existsb (String.eqb k) (map fst o) = false -> obj_get o k = None.
Proof.
  induction o as [|[k0 v0] o IH]; simpl; [reflexivity|].
  rewrite (String.eqb_sym k0 k).
  destruct (String.eqb k k0); simpl; [discriminate|exact IH].
Qed.

Lemma obj_get_rev o k :
  keys_unique (map fst o) = true -> obj_get (rev o) k = obj_get o k.
Proof.
  induction o as [|[k0 v0] o IH]; simpl; [reflexivity|].
  intros [Hk Hu]%andb_prop. rewrite obj_get_app, (IH Hu). simpl.
  destruct (String.eqb_spec k0 k) as [->|Hne].
  - rewrite obj_get_absent; [reflexivity|].
    destruct (existsb _ _); [discriminate|reflexivity].
  - destruct (obj_get o k); reflexivity.
Qed.

(** After a run of assignments the last one to a key is the one read. *)
Lemma obj_get_fold_set (l : props A) :
  forall o k,
    obj_get (fold_left (fun o kv => obj_set o (fst kv) (snd kv)) l o) k =
    match obj_get (rev l) k with
    | Some x => Some x
    | None => obj_get o k
    end.
Proof.
  induction l as [|[k0 v0] l IH]; intros o k; simpl; [reflexivity|].
  rewrite IH, obj_get_app. simpl.
  destruct (obj_get (rev l) k); [reflexivity|].
  destruct (String.eqb_spec k0 k) as [->|Hne].
  - apply obj_get_set_eq.
  - apply obj_get_set_ne, Hne.
Qed.

(** The shallow merge keeps every entry of [t], and [nv] wins where both
    have the key. *)
Lemma spread_get (t nv : props A) k :
  keys_unique (map fst t) = true -> keys_unique (map fst nv) = true ->
  obj_get (spread t nv) k =
  match obj_get nv k with
  | Some x => Some x
  | None => obj_get t k
  end.
Proof.
  intros Ht Hnv. unfold spread.
  rewrite obj_get_fold_set, rev_app_distr, obj_get_app.
  rewrite (obj_get_rev _ _ Ht), (obj_get_rev _ _ Hnv). simpl.
  destruct (obj_get nv k); [reflexivity|].
  destruct (obj_get t k); reflexivity.
Qed.

End SpreadFacts.

(** ** Values that [JSON.parse] returns *)

Lemma obj_get_In {A : Type} (o : props A) k v :
  obj_get o k = Some v -> In (k, v) o.
Proof.
  induction o as [|[k0 v0] o IH]; simpl; [discriminate|].
  destruct (String.eqb_spec k0 k) as [->|Hne].
  - intros [= ->]. left. reflexivity.
  - intros H. right. apply IH, H.
Qed.

Lemma JSON_value_get parent seg c :
  JSON_value parent = true -> js_get parent seg = Ok (Some c) ->
  JSON_value c = true.
Proof.
  destruct parent; simpl; try discriminate.
  - intros _ [= H]. unfold str_get in H.
    destruct (array_index _); [|discriminate].
    destruct (get _ _); [|discriminate]. injection H as <-. reflexivity.
  - intros [He Hn]%andb_prop.
    destruct named; [|discriminate].
    destruct (array_index (property_key seg)) as [i|]; intros [= H].
    destruct (elems !! N.to_nat i) as [[x|]|] eqn:E; simpl in H; try discriminate.
    injection H as ->.
    rewrite forallb_forall in He.
    apply (He (Some c)). apply list_elem_of_In. eapply list_elem_of_lookup_2, E.
  - intros [_ Ho]%andb_prop [= H].
    rewrite forallb_forall in Ho.
    apply (Ho (property_key seg, c)), obj_get_In, H.
Qed.

Lemma JSON_value_at p : forall D v,
  JSON_value D = true -> value_at D p = Some v -> JSON_value v = true.
Proof.
  induction p as [|seg rest IH]; intros D v HD; simpl.
  - intros [= <-]. exact HD.
  - destruct (js_get D seg) as [[c|]|] eqn:Hg; try discriminate.
    apply IH. eapply JSON_value_get; eauto.
Qed.

Lemma JSON_value_keys_unique own :
  JSON_value (VObj own) = true -> keys_unique (map fst own) = true.
Proof.
  simpl. intros [H _]%andb_prop. eapply keys_ordered_from_unique, H.
Qed.

(** ** The value at the edited position *)

Lemma assign_terminal_value_at parent seg newValue D' :
  assign_terminal parent seg newValue = Ok D' ->
  value_at D' [seg] = Some (terminal_value (value_at parent [seg]) newValue).
Proof.
  unfold assign_terminal, terminal_value. simpl.
  destruct newValue; try (intros H; rewrite (js_get_set_eq _ _ _ _ H); reflexivity).
  destruct (js_get parent seg) as [[[]|]|] eqn:Hg; simpl;
    try (intros H; rewrite (js_get_set_eq _ _ _ _ H); reflexivity).
  discriminate.
Qed.

Lemma assign_at_value_at newValue rest : forall parent seg D',
  assign_at parent seg rest newValue = Ok D' ->
  value_at D' (seg :: rest) =
  Some (terminal_value (value_at parent (seg :: rest)) newValue).
Proof.
  induction rest as [|seg' rest' IH]; intros parent seg D'.
  - apply assign_terminal_value_at.
  - cbn [assign_at]. cbn [value_at].
    destruct (js_get parent seg) as [[c|]|] eqn:Hg; simpl; try discriminate.
    + rewrite Hg. simpl.
      destruct (assign_at c seg' rest' newValue) as [c'|] eqn:Hr; simpl;
        try discriminate.
      intros Hs. rewrite (js_get_set_eq _ _ _ _ Hs).
      apply (IH _ _ _ Hr).
    + destruct (js_set parent seg (VObj [])) as [p1|] eqn:Hs1; simpl;
        try discriminate.
      rewrite (js_get_set_eq _ _ _ _ Hs1). simpl.
      destruct (assign_at (VObj []) seg' rest' newValue) as [c'|] eqn:Hr; simpl;
        try discriminate.
      intros Hs. rewrite (js_get_set_eq _ _ _ _ Hs).
      exact (IH _ _ _ Hr).
Qed.

Lemma patchable_assign_at newValue parent seg rest :
  patchable parent seg rest = true ->
  exists D', assign_at parent seg rest newValue = Ok D'.
Proof.
  intros H. pose proof (assign_at_completes newValue rest parent seg) as Hc.
  rewrite H in Hc. destruct (assign_at parent seg rest newValue); [eauto|discriminate].
Qed.

Example merge_vs_replace_merge :
  patched (VObj [("a", VObj [("x", VNum 1); ("y", VNum 2)])])
    (Some [SegKey "a"]) (VObj [("y", VNum 3); ("z", VNum 4)])
  = Ok (VObj [("a", VObj [("x", VNum 1); ("y", VNum 3); ("z", VNum 4)])]).
Proof. reflexivity. Qed.

Example merge_vs_replace_replace :
  patched (VObj [("a", VObj [("x", VNum 1); ("y", VNum 2)])])
    (Some [SegKey "a"]) (VArr [Some (VNum 1); Some (VNum 2)] [])
  = Ok (VObj [("a", VArr [Some (VNum 1); Some (VNum 2)] [])]).
Proof. reflexivity. Qed.

(** ** Failure of the patch *)




(** ** Synthesis of missing containers *)

Lemma obj_set_nil {A : Type} k (v : A) : obj_set [] k v = [(k, v)].
Proof. unfold obj_set. simpl. destruct (array_index k); reflexivity. Qed.

Lemma assign_at_fresh newValue rest : forall seg,
  assign_at (VObj []) seg rest newValue = Ok (nest seg rest newValue).
Proof.
  induction rest as [|seg' rest' IH]; intros seg.
  - simpl. unfold assign_terminal. destruct newValue; simpl;
      rewrite obj_set_nil; reflexivity.
  - cbn [assign_at]. simpl. rewrite !obj_set_nil. simpl.
    rewrite String.eqb_refl. simpl. rewrite IH. simpl.
    unfold obj_set. simpl. rewrite String.eqb_refl. simpl.
    rewrite ?String.eqb_refl. reflexivity.
Qed.

Section SetSet.
Context {A : Type}.
Implicit Types (o : props A) (k : string).

Lemma obj_replace_replace o k (a b : A) :
  obj_replace (obj_replace o k a) k b = obj_replace o k b.
Proof.
  induction o as [|[k0 v0] o IH]; simpl; [reflexivity|].
  destruct (String.eqb k0 k) eqn:E; simpl; rewrite E; congruence.
Qed.

Lemma obj_replace_insert_index o i k (a b : A) :
  obj_get o k = None ->
  obj_replace (obj_insert_index o i k a) k b = obj_insert_index o i k b.
Proof.
  induction o as [|[k0 v0] o IH]; simpl; intros Hk.
  - rewrite String.eqb_refl. reflexivity.
  - destruct (String.eqb k0 k) eqn:E; [discriminate|].
    destruct (array_index k0) as [j|]; [destruct (i <? j)%N|]; simpl;
      rewrite ?String.eqb_refl, ?E, ?IH; auto.
Qed.

Lemma obj_replace_app o k (a b : A) :
  obj_get o k = None ->
  obj_replace (o ++ [(k, a)]) k b = o ++ [(k, b)].
Proof.
  induction o as [|[k0 v0] o IH]; simpl; intros Hk.
  - rewrite String.eqb_refl. reflexivity.
  - destruct (String.eqb k0 k) eqn:E; [discriminate|]. rewrite IH; auto.
Qed.

(** A second assignment to the same key overwrites the first. *)
Lemma obj_set_set o k (a b : A) :
  obj_set (obj_set o k a) k b = obj_set o k b.
Proof.
  unfold obj_set at 1. rewrite obj_get_set_eq.
  unfold obj_set. destruct (obj_get o k) eqn:E.
  - apply obj_replace_replace.
  - destruct (array_index k).
    + apply obj_replace_insert_index, E.
    + apply obj_replace_app, E.
Qed.

End SetSet.

Lemma arr_set_set (elems : list (option value)) i (a b : value) :
  arr_set (arr_set elems i a) i b = arr_set elems i b.
Proof.
  unfold arr_set. destruct (Nat.ltb_spec i (length elems)) as [Hlt|Hge].
  - rewrite length_insert.
    destruct (Nat.ltb_spec i (length elems)); [|lia].
    apply list_insert_insert_eq.
  - rewrite !length_app, length_replicate. simpl.
    destruct (Nat.ltb_spec i (length elems + (i - length elems + 1))); [|lia].
    rewrite insert_app_r_alt by lia.
    rewrite insert_app_r_alt by (rewrite length_replicate; lia).
    rewrite length_replicate.
    replace (i - length elems - (i - length elems))%nat with 0%nat by lia.
    reflexivity.
Qed.

Lemma js_set_set parent seg a b parent1 :
  js_set parent seg a = Ok parent1 -> js_set parent1 seg b = js_set parent seg b.
Proof.
  destruct parent; simpl; try discriminate.
  - destruct (array_index (property_key seg)) as [i|] eqn:E;
      intros [= <-]; simpl; rewrite E.
    + rewrite arr_set_set. reflexivity.
    + rewrite obj_set_set. reflexivity.
  - intros [= <-]. simpl. rewrite obj_set_set. reflexivity.
Qed.

(** ** Array indices and their decimal strings *)

Lemma N_to_uint_nonnil (n : N) : N.to_uint n <> Decimal.Nil.
Proof.
  destruct n; simpl; [discriminate|]. apply DecimalPos.Unsigned.to_uint_nonnil.
Qed.

Lemma array_index_to_string (i : N) :
  (i < 4294967295)%N -> array_index (index_to_string i) = Some i.
Proof.
  intros Hi. unfold array_index, index_to_string.
  rewrite NilZero.usu by apply N_to_uint_nonnil.
  cbv zeta. rewrite DecimalN.Unsigned.of_to, String.eqb_refl.
  apply N.ltb_lt in Hi. rewrite Hi. reflexivity.
Qed.

Lemma array_index_sound (k : string) (i : N) :
  array_index k = Some i -> k = index_to_string i /\ (i < 4294967295)%N.
Proof.
  unfold array_index. destruct (NilZero.uint_of_string k) as [d|]; [|discriminate].
  cbv zeta.
  destruct (String.eqb_spec (index_to_string (N.of_uint d)) k) as [E|];
    [|discriminate].
  destruct (N.ltb_spec (N.of_uint d) 4294967295); [|discriminate].
  intros [= <-]. auto.
Qed.

(** An index past the end of an array: the array grows, with holes. *)
Lemma js_set_past_end elems named (i : N) v :
  (i < 4294967295)%N -> (length elems <= N.to_nat i)%nat ->
  js_set (VArr elems named) (SegIdx i) v
  = Ok (VArr (elems ++ replicate (N.to_nat i - length elems) None ++ [Some v])
          named).
Proof.
  intros Hi Hlen. simpl. rewrite (array_index_to_string i Hi).
  unfold arr_set. destruct (Nat.ltb_spec (N.to_nat i) (length elems)); [lia|].
  reflexivity.
Qed.


Example path_synthesis :
  patched (VObj []) (Some [SegKey "a"; SegKey "b"]) (VNum 5)
  = Ok (VObj [("a", VObj [("b", VNum 5)])]).
Proof. reflexivity. Qed.

(** ** The enumeration order is kept by assignment *)

Section OrderFacts.
Context {A : Type}.
Implicit Types (o : props A) (k : string) (ks : list string).

Lemma obj_get_None_absent o k :
  obj_get o k = None -> existsb (String.eqb k) (map fst o) = false.
Proof.
  induction o as [|[k0 v0] o IH]; simpl; [reflexivity|].
  rewrite (String.eqb_sym k k0).
  destruct (String.eqb k0 k); [discriminate|]. exact IH.
Qed.

Lemma keys_ordered_from_app_l lo ks ks2 :
  keys_ordered_from lo (ks ++ ks2) = true -> keys_ordered_from lo ks = true.
Proof.
  revert lo. induction ks as [|k ks IH]; intros lo; simpl; [reflexivity|].
  rewrite existsb_app, negb_orb.
  intros [[Hk _]%andb_prop H]%andb_prop. rewrite Hk. simpl.
  destruct (array_index k), lo; try discriminate.
  - apply andb_prop in H as [Hl H]. rewrite Hl. simpl. eapply IH, H.
  - eapply IH, H.
  - eapply IH, H.
Qed.

Lemma keys_ordered_from_None_last ks k i :
  array_index k = Some i -> keys_ordered_from None (ks ++ [k]) = false.
Proof.
  intros Hk. induction ks as [|k0 ks IH]; simpl.
  - rewrite Hk. reflexivity.
  - destruct (array_index k0); [apply andb_false_r|].
    rewrite IH. apply andb_false_r.
Qed.

Lemma keys_ordered_from_last_bound ks k i : forall l,
  array_index k = Some i ->
  keys_ordered_from (Some l) (ks ++ [k]) = true -> (l <= i)%N.
Proof.
  induction ks as [|k0 ks IH]; intros l Hk; simpl.
  - rewrite Hk. intros [Hl _]%andb_prop. apply N.leb_le in Hl. exact Hl.
  - intros [_ H]%andb_prop. destruct (array_index k0) as [j|].
    + apply andb_prop in H as [Hl H]. apply N.leb_le in Hl.
      specialize (IH _ Hk H). lia.
    + rewrite (keys_ordered_from_None_last _ _ _ Hk) in H. discriminate.
Qed.

Lemma keys_unique_last_absent lo ks k :
  keys_ordered_from lo (ks ++ [k]) = true ->
  existsb (String.eqb k) ks = false.
Proof.
  intros H. apply keys_ordered_from_unique in H.
  induction ks as [|k0 ks IH]; simpl in *; [reflexivity|].
  apply andb_prop in H as [Hk H]. rewrite (IH H), orb_false_r.
  rewrite existsb_app, negb_orb in Hk. simpl in Hk.
  apply andb_prop in Hk as [_ Hk]. rewrite orb_false_r in Hk.
  rewrite String.eqb_sym. destruct (String.eqb k0 k); [discriminate|reflexivity].
Qed.

Lemma obj_insert_index_last o k i (v : A) : forall lo,
  array_index k = Some i ->
  keys_ordered_from lo (map fst o ++ [k]) = true ->
  obj_insert_index o i k v = o ++ [(k, v)].
Proof.
  induction o as [|[k0 v0] o IH]; intros lo Hk; simpl; [reflexivity|].
  intros [_ H]%andb_prop. destruct (array_index k0) as [j|], lo as [l|];
    try discriminate.
  - apply andb_prop in H as [_ H].
    pose proof (keys_ordered_from_last_bound _ _ _ _ Hk H) as Hb.
    destruct (N.ltb_spec i j); [lia|]. rewrite (IH _ Hk H). reflexivity.
  - rewrite (keys_ordered_from_None_last _ _ _ Hk) in H. discriminate.
  - rewrite (keys_ordered_from_None_last _ _ _ Hk) in H. discriminate.
Qed.

(** Assigning the key that comes last puts it last. *)
Lemma obj_set_last lo o k (v : A) :
  keys_ordered_from lo (map fst o ++ [k]) = true ->
  obj_set o k v = o ++ [(k, v)].
Proof.
  intros H. unfold obj_set.
  rewrite (obj_get_absent o k (keys_unique_last_absent _ _ _ H)).
  destruct (array_index k) as [i|] eqn:Hk; [|reflexivity].
  eapply obj_insert_index_last; eauto.
Qed.

(** An object whose keys are in enumeration order is its own copy. *)
Lemma fold_set_ordered_id o :
  own_keys_ordered o = true ->
  fold_left (fun o kv => obj_set o (fst kv) (snd kv)) o [] = o.
Proof.
  unfold own_keys_ordered.
  induction o as [|[k v] o IH] using rev_ind; [reflexivity|].
  rewrite map_app. simpl. intros H.
  rewrite fold_left_app. simpl.
  rewrite (IH (keys_ordered_from_app_l _ _ _ H)).
  eapply obj_set_last, H.
Qed.

Lemma map_fst_obj_replace o k (v : A) :
  map fst (obj_replace o k v) = map fst o.
Proof.
  induction o as [|[k0 v0] o IH]; simpl; [reflexivity|].
  destruct (String.eqb k0 k); simpl; congruence.
Qed.

Lemma existsb_obj_insert_index o i k k0 (v : A) :
  existsb (String.eqb k0) (map fst (obj_insert_index o i k v))
  = String.eqb k0 k || existsb (String.eqb k0) (map fst o).
Proof.
  induction o as [|[k1 v1] o IH]; simpl; [reflexivity|].
  destruct (array_index k1) as [j|]; [destruct (i <? j)%N|]; simpl;
    try reflexivity.
  rewrite IH. destruct (String.eqb k0 k1), (String.eqb k0 k); reflexivity.
Qed.

Lemma keys_ordered_from_insert_index o i k (v : A) : forall l,
  array_index k = Some i -> (l <= i)%N ->
  existsb (String.eqb k) (map fst o) = false ->
  keys_ordered_from (Some l) (map fst o) = true ->
  keys_ordered_from (Some l) (map fst (obj_insert_index o i k v)) = true.
Proof.
  induction o as [|[k0 v0] o IH]; intros l Hk Hl; simpl.
  - intros _ _. rewrite Hk. apply N.leb_le in Hl. rewrite Hl. reflexivity.
  - intros [Hne Hab]%orb_false_elim [Hk0 H]%andb_prop.
    destruct (array_index k0) as [j|] eqn:Hj.
    + apply andb_prop in H as [Hlj H].
      destruct (N.ltb_spec i j) as [Hij|Hji]; simpl.
      * rewrite Hne, Hab, Hk, Hk0, Hj, H. simpl.
        apply N.leb_le in Hl. rewrite Hl. simpl.
        replace (N.succ i <=? j)%N with true; [reflexivity|].
        symmetry. apply N.leb_le. lia.
      * rewrite existsb_obj_insert_index, Hj, Hlj.
        rewrite String.eqb_sym, Hne. simpl. rewrite Hk0. simpl.
        apply IH; auto.
        assert (i <> j).
        { intros ->. apply array_index_sound in Hk as [-> _].
          apply array_index_sound in Hj as [-> _].
          rewrite String.eqb_refl in Hne. discriminate. }
        lia.
    + simpl. rewrite Hne, Hab, Hk, Hk0, Hj, H. simpl.
      apply N.leb_le in Hl. rewrite Hl. reflexivity.
Qed.

Lemma keys_ordered_from_app_key ks k : forall lo,
  array_index k = None ->
  existsb (String.eqb k) ks = false ->
  keys_ordered_from lo ks = true ->
  keys_ordered_from lo (ks ++ [k]) = true.
Proof.
  induction ks as [|k0 ks IH]; intros lo Hk; simpl.
  - intros _ _. rewrite Hk. reflexivity.
  - intros [Hne Hab]%orb_false_elim [Hk0 H]%andb_prop.
    rewrite existsb_app, negb_orb, Hk0. simpl.
    rewrite String.eqb_sym, Hne. simpl.
    destruct (array_index k0), lo; try discriminate.
    + apply andb_prop in H as [Hl H]. rewrite Hl. simpl. apply IH; auto.
    + apply IH; auto.
    + apply IH; auto.
Qed.

Lemma own_keys_ordered_set o k (v : A) :
  own_keys_ordered o = true -> own_keys_ordered (obj_set o k v) = true.
Proof.
  unfold own_keys_ordered, obj_set. intros H.
  destruct (obj_get o k) eqn:Hg.
  - rewrite map_fst_obj_replace. exact H.
  - apply obj_get_None_absent in Hg.
    destruct (array_index k) as [i|] eqn:Hk.
    + apply keys_ordered_from_insert_index; auto. lia.
    + rewrite map_app. apply keys_ordered_from_app_key; auto.
Qed.

Lemma own_keys_ordered_fold_set (l : props A) : forall o,
  own_keys_ordered o = true ->
  own_keys_ordered
    (fold_left (fun o kv => obj_set o (fst kv) (snd kv)) l o) = true.
Proof.
  induction l as [|[k v] l IH]; intros o Ho; simpl; [exact Ho|].
  apply IH, own_keys_ordered_set, Ho.
Qed.

Lemma fold_set_id (l : props A) : forall o,
  (forall k v, In (k, v) l -> obj_get o k = Some v) ->
  fold_left (fun o kv => obj_set o (fst kv) (snd kv)) l o = o.
Proof.
  induction l as [|[k v] l IH]; intros o H; simpl; [reflexivity|].
  rewrite obj_set_id by (apply H; left; reflexivity).
  apply IH. intros k' v' Hin. apply H. right. exact Hin.
Qed.

Lemma In_obj_get o k (v : A) :
  keys_unique (map fst o) = true -> In (k, v) o -> obj_get o k = Some v.
Proof.
  induction o as [|[k0 v0] o IH]; simpl; [contradiction|].
  intros [Hk Hu]%andb_prop [[= -> ->]|Hin].
  - rewrite String.eqb_refl. reflexivity.
  - destruct (String.eqb_spec k0 k) as [->|Hne]; [|auto].
    apply (in_map fst) in Hin. simpl in Hin.
    assert (existsb (String.eqb k) (map fst o) = true).
    { apply existsb_exists. exists k. split; [exact Hin|apply String.eqb_refl]. }
    rewrite H in Hk. discriminate.
Qed.

(** Merging the same object in a second time changes nothing. *)
Lemma spread_spread (t nv : props A) :
  keys_unique (map fst nv) = true -> spread (spread t nv) nv = spread t nv.
Proof.
  intros Hu. unfold spread at 1. rewrite fold_left_app.
  rewrite fold_set_ordered_id
    by (apply own_keys_ordered_fold_set; reflexivity).
  apply fold_set_id. intros k v Hin.
  unfold spread. rewrite obj_get_fold_set, rev_app_distr, obj_get_app.
  rewrite (obj_get_rev _ _ Hu), (In_obj_get _ _ _ Hu Hin). reflexivity.
Qed.

(** Merging an object into itself gives the object. *)
Lemma spread_self (nv : props A) :
  own_keys_ordered nv = true -> spread nv nv = nv.
Proof.
  intros Ho. unfold spread. rewrite fold_left_app.
  rewrite (fold_set_ordered_id _ Ho).
  apply fold_set_id. intros k v.
  apply In_obj_get. eapply keys_ordered_from_unique, Ho.
Qed.

End OrderFacts.

(** ** Applying the same edit twice *)

Lemma JSON_value_own_keys_ordered nv :
  JSON_value (VObj nv) = true -> own_keys_ordered nv = true.
Proof. simpl. intros [H _]%andb_prop. exact H. Qed.

Lemma assign_terminal_twice parent seg V D1 :
  JSON_value V = true ->
  assign_terminal parent seg V = Ok D1 -> assign_terminal D1 seg V = Ok D1.
Proof.
  intros HV. unfold assign_terminal.
  assert (Hplain : forall v, js_set parent seg v = Ok D1 ->
                             js_set D1 seg v = Ok D1).
  { intros v Hs. rewrite (js_set_set _ _ _ _ _ Hs). exact Hs. }
  destruct V as [| | | | |nv]; try apply Hplain.
  pose proof (JSON_value_own_keys_ordered nv HV) as Ho.
  pose proof (keys_ordered_from_unique _ _ Ho) as Hu.
  destruct (js_get parent seg) as [target|] eqn:Hg; simpl; [|discriminate].
  assert (Hrep : js_set parent seg (VObj nv) = Ok D1 ->
                 bind (js_get D1 seg)
                   (fun target => match target with
                                  | Some (VObj t) => js_set D1 seg (VObj (spread t nv))
                                  | _ => js_set D1 seg (VObj nv)
                                  end) = Ok D1).
  { intros Hs. rewrite (js_get_set_eq _ _ _ _ Hs). simpl.
    rewrite (spread_self _ Ho). apply Hplain, Hs. }
  destruct target as [[| | | | |t]|]; try exact Hrep.
  intros Hs. rewrite (js_get_set_eq _ _ _ _ Hs). simpl.
  rewrite (spread_spread _ _ Hu). apply Hplain, Hs.
Qed.

Lemma assign_at_twice V rest :
  JSON_value V = true ->
  forall parent seg D1,
    assign_at parent seg rest V = Ok D1 -> assign_at D1 seg rest V = Ok D1.
Proof.
  intros HV. induction rest as [|seg' rest' IH]; intros parent seg D1.
  - apply assign_terminal_twice, HV.
  - cbn [assign_at].
    destruct (js_get parent seg) as [cur|] eqn:Hg; simpl; [|discriminate].
    destruct (match cur with None => _ | Some _ => _ end) as [p1|] eqn:H1;
      simpl; [|discriminate].
    destruct (js_get p1 seg) as [[c|]|] eqn:Hg1; simpl; try discriminate.
    destruct (assign_at c seg' rest' V) as [c'|] eqn:Hr; simpl; [|discriminate].
    intros Hs. rewrite (js_get_set_eq _ _ _ _ Hs). simpl.
    rewrite (js_get_set_eq _ _ _ _ Hs). simpl.
    rewrite (IH _ _ _ Hr). simpl.
    rewrite (js_set_set _ _ _ _ _ Hs). exact Hs.
Qed.

(** C6. For every document [D], path and parsed value [V]: applying the
    edit to the document that the edit produced gives that document again,
    whether the last step merges or replaces (and when the first
    application throws there is no second one). *)
Theorem patched_twice D path V :
  JSON_value V = true ->
  bind (patched D path V) (fun D1 => patched D1 path V) = patched D path V.
Proof.
  intros HV. destruct path as [[|seg rest]|]; try reflexivity.
  simpl. destruct (assign_at D seg rest V) as [D1|e] eqn:E; simpl; [|reflexivity].
  eapply assign_at_twice; eauto.
Qed.

Lemma patched_twice_witness :
  bind (patched (VObj [("a", VObj [("x", VNum 1); ("y", VNum 2)])])
          (Some [SegKey "a"]) (VObj [("y", VNum 3); ("z", VNum 4)]))
    (fun D1 => patched D1 (Some [SegKey "a"]) (VObj [("y", VNum 3); ("z", VNum 4)]))
  = patched (VObj [("a", VObj [("x", VNum 1); ("y", VNum 2)])])
      (Some [SegKey "a"]) (VObj [("y", VNum 3); ("z", VNum 4)]).
Proof.
  apply (patched_twice (VObj [("a", VObj [("x", VNum 1); ("y", VNum 2)])])
           (Some [SegKey "a"]) (VObj [("y", VNum 3); ("z", VNum 4)])).
  reflexivity.
Defined.

Local Open Scope string_scope.

(** ** The displayed path *)

Lemma append_assoc (a b c : string) : (a ++ b) ++ c = a ++ (b ++ c).
Proof. induction a as [|x a IH]; simpl; congruence. Qed.

Lemma append_nil_r (a : string) : a ++ EmptyString = a.
Proof. induction a as [|x a IH]; simpl; congruence. Qed.

Lemma bracketed_display seg : bracketed seg = "[" ++ display_segment seg ++ "]".
Proof.
  destruct seg; unfold bracketed, display_segment; [|reflexivity].
  rewrite !append_assoc. reflexivity.
Qed.

Lemma concat_brackets rest : forall seg,
  "[" ++ String.concat "][" (map display_segment (seg :: rest)) ++ "]"
  = String.concat EmptyString (map bracketed (seg :: rest)).
Proof.
  induction rest as [|seg' rest IH]; intros seg.
  - simpl String.concat. symmetry. apply bracketed_display.
  - change (String.concat EmptyString (map bracketed (seg :: seg' :: rest)))
      with (bracketed seg ++ EmptyString
            ++ String.concat EmptyString (map bracketed (seg' :: rest))).
    change (String.concat "][" (map display_segment (seg :: seg' :: rest)))
      with (display_segment seg ++ "]["
            ++ String.concat "][" (map display_segment (seg' :: rest))).
    rewrite <- IH, bracketed_display. simpl.
    rewrite !append_assoc. reflexivity.
Qed.

(** C8. The displayed path is [$] followed by one bracketed accessor per
    segment, in order: a string segment in double quotes, a numeric segment
    as its decimal digits.  The missing and the empty path give exactly
    [$]. *)
Theorem jsonPathToString_accessors (path : option JSONPath) :
  jsonPathToString path
  = "$" ++ String.concat EmptyString (map bracketed (default [] path)).
Proof.
  destruct path as [[|seg rest]|]; try reflexivity.
  change (default [] (Some (seg :: rest))) with (seg :: rest).
  rewrite <- concat_brackets. reflexivity.
Qed.

Example path_display_root : jsonPathToString (Some []) = "$".
Proof. reflexivity. Qed.

Example path_display_customer :
  jsonPathToString (Some [SegKey "customer"; SegIdx 2; SegKey "name"])
  = "$[" ++ dquote ++ "customer" ++ dquote ++ "][2]["
    ++ dquote ++ "name" ++ dquote ++ "]".
Proof. reflexivity. Qed.

(** ** Row projection *)

(** C9. The text of a row is [{N keys}] for an object row and [[N items]]
    for an array row, [N] being the row's count of children, and the row's
    own value for every other kind of row. *)
Theorem getRowText_by_kind (row : NodeRow) :
  (type row = TObject ->
   forall n, childrenCount row = Some n ->
   getRowText row = SStr ("{" ++ index_to_string n ++ " keys}")) /\
  (type row = TArray ->
   forall n, childrenCount row = Some n ->
   getRowText row = SStr ("[" ++ index_to_string n ++ " items]")) /\
  (type row <> TObject -> type row <> TArray -> getRowText row = value_ row).
Proof.
  unfold getRowText. repeat split.
  - intros -> n ->. reflexivity.
  - intros -> n ->. reflexivity.
  - intros Ho Ha. destruct (type row); congruence.
Qed.

Example row_projection_counts :
  map (fun row => to_text (getRowText row))
    [ {| key := Some "k1"; value_ := SNull; type := TObject;
         childrenCount := Some 0%N |};
      {| key := Some "k2"; value_ := SNull; type := TArray;
         childrenCount := Some 3%N |};
      {| key := Some "k3"; value_ := SStr "x"; type := TString;
         childrenCount := None |} ]
  = ["{0 keys}"; "[3 items]"; "x"].
Proof. reflexivity. Qed.

(** ** The editable content of a node *)

Lemma fold_add_row rows : forall obj,
  fold_left add_row rows obj
  = fold_left (fun o kv => obj_set o (fst kv) (snd kv)) (editable_rows rows) obj.
Proof.
  induction rows as [|row rows IH]; intros obj; simpl; [reflexivity|].
  rewrite IH. unfold add_row.
  destruct (is_scalar_row row); [|reflexivity].
  destruct (truthy_key (key row)); reflexivity.
Qed.

(** The object holds exactly the editable rows, the last row of a key
    giving its value. *)
Lemma editable_fields_get rows k :
  obj_get (editable_fields rows) k = obj_get (rev (editable_rows rows)) k.
Proof.
  unfold editable_fields. rewrite fold_add_row, obj_get_fold_set.
  destruct (obj_get _ k); reflexivity.
Qed.

Lemma editable_fields_ordered rows :
  own_keys_ordered (editable_fields rows) = true.
Proof.
  unfold editable_fields. rewrite fold_add_row.
  apply own_keys_ordered_fold_set. reflexivity.
Qed.

Lemma map_fst_fields_value fields :
  map fst (fields_value fields) = map fst fields.
Proof.
  unfold fields_value. rewrite map_map. reflexivity.
Qed.

Lemma obj_get_fields_value fields k :
  obj_get (fields_value fields) k = option_map scalar_value (obj_get fields k).
Proof.
  induction fields as [|[k0 x] fields IH]; simpl; [reflexivity|].
  destruct (String.eqb k0 k); [reflexivity|exact IH].
Qed.

Lemma normalizeNodeData_object row rest :
  (rest <> [] \/ truthy_key (key row) <> None) ->
  normalizeNodeData (Some (row :: rest))
  = JSON_stringify (object_of_fields (editable_fields (row :: rest))).
Proof.
  intros H. unfold normalizeNodeData.
  destruct rest; [|reflexivity].
  destruct (truthy_key (key row)); [reflexivity|].
  destruct H; contradiction.
Qed.

(** Merging the editable object into the object at the edited position
    keeps every entry of it whose key is not an editable one. *)
Lemma editable_merge_keeps rows D seg rest t k :
  JSON_value D = true -> patchable D seg rest = true ->
  value_at D (seg :: rest) = Some (VObj t) ->
  obj_get (editable_fields rows) k = None ->
  exists D' m,
    patched D (Some (seg :: rest)) (object_of_fields (editable_fields rows))
    = Ok D' /\
    value_at D' (seg :: rest) = Some (VObj m) /\
    obj_get m k = obj_get t k.
Proof.
  intros HD Hp Ht Hk. unfold object_of_fields. fold (fields_value (editable_fields rows)).
  destruct (patchable_assign_at (VObj (fields_value (editable_fields rows)))
              D seg rest Hp) as [D' HD'].
  exists D', (spread t (fields_value (editable_fields rows))).
  split; [exact HD'|].
  pose proof (assign_at_value_at _ rest D seg D' HD') as Hat.
  rewrite Ht in Hat. simpl in Hat. split; [exact Hat|].
  rewrite spread_get.
  - rewrite obj_get_fields_value, Hk. reflexivity.
  - apply JSON_value_keys_unique. exact (JSON_value_at _ _ _ HD Ht).
  - rewrite map_fst_fields_value.
    eapply keys_ordered_from_unique, editable_fields_ordered.
Qed.

Example normalizeNodeData_mixed_rows :
  normalizeNodeData
    (Some [ {| key := Some "k1"; value_ := SNull; type := TObject;
               childrenCount := Some 0%N |};
            {| key := Some "k2"; value_ := SNull; type := TArray;
               childrenCount := Some 3%N |};
            {| key := Some "k3"; value_ := SStr "x"; type := TString;
               childrenCount := None |};
            {| key := None; value_ := SNum 4; type := TNumber;
               childrenCount := None |} ])
  = "{" ++ newline ++ "  " ++ dquote ++ "k3" ++ dquote ++ ": "
    ++ dquote ++ "x" ++ dquote ++ newline ++ "}".
Proof. reflexivity. Qed.

(** ** Parse failures and the root edit *)

Section EditSessionFacts.

Variable build_graph : string -> list NodeData.
Variable message : exn -> string.

Lemma setError_setError e e' st : setError e (setError e' st) = setError e st.
Proof. reflexivity. Qed.

Lemma applyEditToJson_contents p V st st' doc :
  patched
    (match JSON_parse (json st) with Ok v => v | Throw _ => VObj [] end) p V
  = Ok doc ->
  applyEditToJson build_graph p V st = Ok st' ->
  contents st' = JSON_stringify doc /\ json st' = JSON_stringify doc /\
  hasChanges st' = true /\ error st' = error st /\
  nodes st' = build_graph (JSON_stringify doc).
Proof.
  unfold applyEditToJson, patched.
  destruct p as [[|seg rest]|].
  - intros [= <-]. destruct (find is_root _); intros [= <-]; repeat split.
  - intros ->. simpl. intros [= <-]. unfold reselect.
    destruct (find _ _); repeat split.
  - intros [= <-]. destruct (find is_root _); intros [= <-]; repeat split.
Qed.

Lemma applyEditToJson_completes p V st :
  completes (applyEditToJson build_graph p V st)
  = completes
      (patched
         (match JSON_parse (json st) with Ok v => v | Throw _ => VObj [] end)
         p V).
Proof.
  unfold applyEditToJson, patched.
  destruct p as [[|seg rest]|].
  - destruct (find is_root _); reflexivity.
  - destruct (assign_at _ seg rest V); reflexivity.
  - destruct (find is_root _); reflexivity.
Qed.

(** C5. At the empty path, and when there is no path, the patched document
    is the new value itself, whatever the document was; [applyEditToJson]
    then completes and writes the text of the new value to the file store
    and to the json store. *)
Theorem root_edit_replaces_document D V st :
  patched D (Some []) V = Ok V /\
  patched D None V = Ok V /\
  exists st',
    applyEditToJson build_graph (Some []) V st = Ok st' /\
    contents st' = JSON_stringify V /\
    json st' = JSON_stringify V /\
    hasChanges st' = true.
Proof.
  split; [reflexivity|]. split; [reflexivity|].
  unfold applyEditToJson.
  destruct (find is_root _); eexists; repeat split.
Qed.

End EditSessionFacts.


(** ** Paths are equal when their JSON texts are *)

Lemma read_string_quote_char c fuel rest :
  read_string_fuel (S fuel) (quote_char c ++ rest)
  = option_map (fun r => (String c (fst r), snd r)) (read_string_fuel fuel rest).
Proof. destruct c as [[] [] [] [] [] [] [] []]; reflexivity. Qed.

(** A quoted string is read back, whatever follows its closing quote. *)
Lemma read_string_quote_chars s : forall fuel rest,
  (String.length s < fuel)%nat ->
  read_string_fuel fuel (quote_chars s ++ dquote ++ rest) = Some (s, rest).
Proof.
  induction s as [|c s IH]; intros fuel rest Hf;
    (destruct fuel as [|fuel]; [inversion Hf|]).
  - reflexivity.
  - simpl quote_chars. rewrite append_assoc, read_string_quote_char.
    rewrite IH by (simpl in Hf; lia). reflexivity.
Qed.

Lemma quote_chars_inj s s' X Y :
  quote_chars s ++ dquote ++ X = quote_chars s' ++ dquote ++ Y ->
  s = s' /\ X = Y.
Proof.
  intros H.
  pose proof (read_string_quote_chars s (S (String.length s + String.length s')) X
                ltac:(lia)) as H1.
  pose proof (read_string_quote_chars s' (S (String.length s + String.length s')) Y
                ltac:(lia)) as H2.
  rewrite H in H1. rewrite H1 in H2. injection H2 as -> ->. auto.
Qed.

Lemma string_of_uint_inj d : forall d' X Y,
  separator X -> separator Y ->
  NilEmpty.string_of_uint d ++ X = NilEmpty.string_of_uint d' ++ Y ->
  d = d' /\ X = Y.
Proof.
  induction d; intros d' X Y HX HY; destruct d'; simpl;
    try (destruct HX as [->|[x ->]]; discriminate);
    try (destruct HY as [->|[y ->]]; discriminate);
    try discriminate;
    try (intros [= H]; destruct (IHd _ _ _ HX HY H) as [-> ->]; auto).
  auto.
Qed.

Lemma index_to_string_head n :
  exists c s, index_to_string n = String c s /\ c <> ascii_of_nat 34
              /\ c <> "]"%char /\ c <> ","%char.
Proof.
  unfold index_to_string, NilZero.string_of_uint.
  pose proof (N_to_uint_nonnil n) as Hn.
  destruct (N.to_uint n); try contradiction; simpl;
    eexists _, _; (split; [reflexivity|]); repeat split; discriminate.
Qed.

Lemma index_to_string_NilEmpty n :
  index_to_string n = NilEmpty.string_of_uint (N.to_uint n).
Proof.
  unfold index_to_string, NilZero.string_of_uint.
  pose proof (N_to_uint_nonnil n) as Hn.
  destruct (N.to_uint n); try contradiction; reflexivity.
Qed.

Lemma stringify_segment_inj a b X Y :
  separator X -> separator Y ->
  stringify_segment a ++ X = stringify_segment b ++ Y -> a = b /\ X = Y.
Proof.
  intros HX HY. destruct a as [s|n], b as [s'|n']; unfold stringify_segment.
  - unfold quote. rewrite !append_assoc. simpl. intros [= H].
    change (String (ascii_of_nat 34) X) with (dquote ++ X) in H.
    change (String (ascii_of_nat 34) Y) with (dquote ++ Y) in H.
    apply quote_chars_inj in H as [-> ->]. auto.
  - destruct (index_to_string_head n') as (c & r & -> & Hc & _).
    unfold quote. simpl. intros [= H _]. congruence.
  - destruct (index_to_string_head n) as (c & r & -> & Hc & _).
    unfold quote. simpl. intros [= H _]. congruence.
  - rewrite !index_to_string_NilEmpty. intros H.
    apply string_of_uint_inj in H as [H ->]; auto.
    apply DecimalN.Unsigned.to_uint_inj in H. subst. auto.
Qed.

Lemma JSON_stringify_path_segments p :
  JSON_stringify_path p = String "[" (segments_text p).
Proof.
  unfold JSON_stringify_path. simpl. f_equal.
  induction p as [|seg rest IH]; [reflexivity|].
  destruct rest as [|seg' rest]; [reflexivity|].
  change (String.concat "," (map stringify_segment (seg :: seg' :: rest)))
    with (stringify_segment seg ++ ","
          ++ String.concat "," (map stringify_segment (seg' :: rest))).
  rewrite !append_assoc. simpl in *. rewrite IH. reflexivity.
Qed.

Lemma stringify_segment_head seg :
  exists c s, stringify_segment seg = String c s /\ c <> "]"%char.
Proof.
  destruct seg as [s|n]; simpl.
  - eexists _, _. split; [reflexivity|discriminate].
  - destruct (index_to_string_head n) as (c & r & -> & _ & Hc & _). eauto.
Qed.

Lemma segments_text_inj p : forall q,
  segments_text p = segments_text q -> p = q.
Proof.
  induction p as [|a p IH]; intros [|b q]; simpl; try reflexivity.
  - destruct (stringify_segment_head b) as (c & s & -> & Hc).
    simpl. intros [= H _]. congruence.
  - destruct (stringify_segment_head a) as (c & s & -> & Hc).
    simpl. intros [= H _]. congruence.
  - intros H. apply stringify_segment_inj in H as [-> H].
    + f_equal. destruct p, q; try discriminate; [reflexivity|].
      injection H as H. apply IH. exact H.
    + destruct p; [left; reflexivity|right; eauto].
    + destruct q; [left; reflexivity|right; eauto].
Qed.

Lemma JSON_stringify_path_inj p q :
  JSON_stringify_path p = JSON_stringify_path q -> p = q.
Proof.
  rewrite !JSON_stringify_path_segments. intros [= H].
  apply segments_text_inj, H.
Qed.

Lemma same_path_spec p n :
  same_path p n = true <-> default [] (path n) = p.
Proof.
  unfold same_path. rewrite String.eqb_eq. split.
  - apply JSON_stringify_path_inj.
  - intros ->. reflexivity.
Qed.

(** ** Re-selecting the edited node *)

Lemma reselect_unique p st n :
  In n (nodes st) -> default [] (path n) = p ->
  (forall n', In n' (nodes st) -> default [] (path n') = p -> n' = n) ->
  reselect p st
  = setEditedContent (normalizeNodeData (Some (text n))) (setSelectedNode n st).
Proof.
  intros Hin Hp Huniq. unfold reselect.
  destruct (find (same_path p) (nodes st)) as [m|] eqn:Hf.
  - apply find_some in Hf as [Hm Hs]. apply same_path_spec in Hs.
    rewrite (Huniq m Hm Hs). reflexivity.
  - apply (find_none _ _ Hf) in Hin.
    apply same_path_spec in Hp. congruence.
Qed.

Lemma reselect_absent p st :
  (forall n, In n (nodes st) -> default [] (path n) <> p) -> reselect p st = st.
Proof.
  intros Hnone. unfold reselect.
  destruct (find (same_path p) (nodes st)) as [m|] eqn:Hf; [|reflexivity].
  apply find_some in Hf as [Hm Hs]. apply same_path_spec in Hs.
  destruct (Hnone m Hm Hs).
Qed.

Section ReselectFacts.

Variable build_graph : string -> list NodeData.

(** C7. After an edit at a non-empty path that completed, the state is the
    one in which the stores hold the patched document and the node set
    rebuilt from its text, followed by the lookup: if that node set has a
    node whose path equals the edited path segment by segment, and it is
    the only one, that node is selected (and its content shown); if no node
    has that path, the lookup changes nothing. *)
Theorem reselect_after_edit seg rest V st st' :
  applyEditToJson build_graph (Some (seg :: rest)) V st = Ok st' ->
  exists doc,
    nodes (publish build_graph doc st) = build_graph (JSON_stringify doc) /\
    st' = reselect (seg :: rest) (publish build_graph doc st) /\
    (forall n,
       In n (nodes (publish build_graph doc st)) ->
       default [] (path n) = seg :: rest ->
       (forall n', In n' (nodes (publish build_graph doc st)) ->
                   default [] (path n') = seg :: rest -> n' = n) ->
       selectedNode st' = Some n /\
       st' = setEditedContent (normalizeNodeData (Some (text n)))
               (setSelectedNode n (publish build_graph doc st))) /\
    ((forall n, In n (nodes (publish build_graph doc st)) ->
                default [] (path n) <> seg :: rest) ->
     st' = publish build_graph doc st /\ selectedNode st' = selectedNode st).
Proof.
  unfold applyEditToJson.
  destruct (assign_at _ seg rest V) as [doc|] eqn:Hdoc; simpl; [|discriminate].
  intros [= <-]. exists doc. split; [reflexivity|]. split; [reflexivity|]. split.
  - intros n Hin Hp Huniq.
    rewrite (reselect_unique (seg :: rest) (publish build_graph doc st) n
               Hin Hp Huniq).
    split; reflexivity.
  - intros Hnone.
    rewrite (reselect_absent (seg :: rest) (publish build_graph doc st) Hnone).
    split; reflexivity.
Qed.

End ReselectFacts.

Lemma reselect_after_edit_witness :
  exists doc,
    nodes (publish (fun _ => [root_node_example; node_a_example]) doc
             document_a_state)
    = (fun _ => [root_node_example; node_a_example]) (JSON_stringify doc) /\
    reselect [SegKey "a"]
      (publish (fun _ => [root_node_example; node_a_example])
         (VObj [("a", VNum 5)]) document_a_state)
    = reselect [SegKey "a"]
        (publish (fun _ => [root_node_example; node_a_example]) doc
           document_a_state) /\
    (forall n,
       In n (nodes (publish (fun _ => [root_node_example; node_a_example]) doc
                      document_a_state)) ->
       default [] (path n) = [SegKey "a"] ->
       (forall n',
          In n' (nodes (publish (fun _ => [root_node_example; node_a_example])
                          doc document_a_state)) ->
          default [] (path n') = [SegKey "a"] -> n' = n) ->
       selectedNode
         (reselect [SegKey "a"]
            (publish (fun _ => [root_node_example; node_a_example])
               (VObj [("a", VNum 5)]) document_a_state)) = Some n /\
       reselect [SegKey "a"]
         (publish (fun _ => [root_node_example; node_a_example])
            (VObj [("a", VNum 5)]) document_a_state)
       = setEditedContent (normalizeNodeData (Some (text n)))
           (setSelectedNode n
              (publish (fun _ => [root_node_example; node_a_example]) doc
                 document_a_state))) /\
    ((forall n,
        In n (nodes (publish (fun _ => [root_node_example; node_a_example]) doc
                       document_a_state)) ->
        default [] (path n) <> [SegKey "a"]) ->
     reselect [SegKey "a"]
       (publish (fun _ => [root_node_example; node_a_example])
          (VObj [("a", VNum 5)]) document_a_state)
     = publish (fun _ => [root_node_example; node_a_example]) doc
         document_a_state /\
     selectedNode
       (reselect [SegKey "a"]
          (publish (fun _ => [root_node_example; node_a_example])
             (VObj [("a", VNum 5)]) document_a_state))
     = selectedNode document_a_state).
Proof.
  apply (reselect_after_edit (fun _ => [root_node_example; node_a_example])
           (SegKey "a") [] (VNum 5) document_a_state).
  reflexivity.
Defined.

Example reselect_selects_node_a :
  selectedNode
    (reselect [SegKey "a"]
       (publish (fun _ => [root_node_example; node_a_example])
          (VObj [("a", VNum 5)]) document_a_state))
  = Some node_a_example.
Proof. reflexivity. Qed.

(** ** Saving the content of the root node *)

(** C10, as stated, fails on "never overwrite the omitted container
    children": the root node is edited at the empty path, where the
    document is replaced.  Saving the content shown for the root of
    [{"a": 1, "b": {"c": 2}}], unchanged, leaves the document [{"a": 1}]:
    the child under ["b"] is gone. *)
Lemma save_root_drops_container_children :
  JSON_parse (json root_with_child_state)
  = Ok (VObj [("a", VNum 1); ("b", VObj [("c", VNum 2)])]) /\
  value_at (VObj [("a", VNum 1); ("b", VObj [("c", VNum 2)])]) [SegKey "b"]
  = Some (VObj [("c", VNum 2)]) /\
  JSON_parse
    (json (save (fun _ => []) (fun _ => "SyntaxError") root_with_child_state))
  = Ok (VObj [("a", VNum 1)]) /\
  value_at (VObj [("a", VNum 1)]) [SegKey "b"] = None /\
  error (save (fun _ => []) (fun _ => "SyntaxError") root_with_child_state) = None.
Proof. repeat split. Qed.

(** ** What an edit leaves alone *)

Local Open Scope list_scope.

Lemma arr_get_set_ne (elems : list (option value)) (i j : nat) (v : value) :
  i <> j -> mjoin (arr_set elems i v !! j) = mjoin (elems !! j).
Proof.
  intros Hne. unfold arr_set.
  destruct (Nat.ltb_spec i (length elems)) as [Hlt|Hge].
  - rewrite list_lookup_insert_ne by exact Hne. reflexivity.
  - destruct (Nat.lt_ge_cases j (length elems)) as [Hj|Hj].
    + rewrite lookup_app_l by exact Hj. reflexivity.
    + rewrite (lookup_ge_None_2 elems j) by lia.
      rewrite lookup_app_r by lia.
      destruct (Nat.lt_ge_cases (j - length elems) (i - length elems)) as [Hr|Hr].
      * rewrite lookup_app_l by (rewrite length_replicate; lia).
        rewrite lookup_replicate_2 by lia. reflexivity.
      * rewrite lookup_app_r by (rewrite length_replicate; lia).
        rewrite length_replicate.
        destruct (j - length elems - (i - length elems))%nat eqn:E; [lia|].
        reflexivity.
Qed.

Lemma js_get_key parent seg seg' :
  property_key seg = property_key seg' -> js_get parent seg = js_get parent seg'.
Proof. intros H. unfold js_get. rewrite H. reflexivity. Qed.

(** An assignment is not seen under another property name. *)
Lemma js_get_set_ne parent seg seg' v parent' :
  js_set parent seg v = Ok parent' ->
  property_key seg <> property_key seg' ->
  js_get parent' seg' = js_get parent seg'.
Proof.
  destruct parent; simpl; try discriminate.
  - destruct (array_index (property_key seg)) as [i|] eqn:Ei;
      intros [= <-] Hne; simpl;
      destruct (array_index (property_key seg')) as [j|] eqn:Ej;
      try reflexivity.
    + rewrite arr_get_set_ne; [reflexivity|].
      intros Hij. apply N2Nat.inj in Hij. subst j.
      apply array_index_sound in Ei as [Ei _].
      apply array_index_sound in Ej as [Ej _]. congruence.
    + rewrite obj_get_set_ne by exact Hne. reflexivity.
  - intros [= <-] Hne. simpl. rewrite obj_get_set_ne by exact Hne. reflexivity.
Qed.

Lemma diverges_nonempty p q : diverges p q = true -> q <> [].
Proof. destruct p, q; simpl; congruence. Qed.

Lemma value_at_fresh q : q <> [] -> value_at (VObj []) q = None.
Proof. destruct q; [congruence|reflexivity]. Qed.

Lemma assign_terminal_frame parent seg V D' seg' :
  assign_terminal parent seg V = Ok D' ->
  property_key seg <> property_key seg' ->
  js_get D' seg' = js_get parent seg'.
Proof.
  unfold assign_terminal. intros H Hne.
  assert (Hset : forall v, js_set parent seg v = Ok D' ->
                           js_get D' seg' = js_get parent seg').
  { intros v Hs. eapply js_get_set_ne; eauto. }
  destruct V; try (eapply Hset; exact H).
  destruct (js_get parent seg) as [[[]|]|]; simpl in H;
    try (eapply Hset; exact H).
  discriminate.
Qed.

(** X1. An edit that completes changes no value at a position that parts
    ways with the edited path: whatever is read there in the patched
    document is what was read there before (siblings of the edited node,
    and everything below them, are left alone). *)
Theorem assign_at_frame V rest : forall D seg D' q,
  assign_at D seg rest V = Ok D' ->
  diverges (seg :: rest) q = true ->
  value_at D' q = value_at D q.
Proof.
  induction rest as [|seg' rest' IH]; intros D seg D' q.
  - intros H Hq. destruct q as [|t q']; [discriminate|].
    simpl in Hq. destruct (String.eqb_spec (property_key seg) (property_key t))
      as [He|Hne]; [destruct q'; discriminate|].
    simpl. rewrite (assign_terminal_frame _ _ _ _ t H Hne). reflexivity.
  - cbn [assign_at]. intros H Hq. destruct q as [|t q']; [discriminate|].
    change (diverges (seg :: seg' :: rest') (t :: q'))
      with (if String.eqb (property_key seg) (property_key t)
            then diverges (seg' :: rest') q' else true) in Hq.
    destruct (js_get D seg) as [cur|] eqn:Hg; simpl in H; [|discriminate].
    destruct (match cur with None => _ | Some _ => _ end) as [p1|] eqn:H1;
      simpl in H; [|discriminate].
    destruct (js_get p1 seg) as [[c|]|] eqn:Hg1; simpl in H; try discriminate.
    destruct (assign_at c seg' rest' V) as [c'|] eqn:Hr; simpl in H;
      [|discriminate].
    assert (Hp1 : forall s, property_key seg <> property_key s ->
                            js_get p1 s = js_get D s).
    { intros s Hs. destruct cur; [injection H1 as <-; reflexivity|].
      eapply js_get_set_ne; eauto. }
    destruct (String.eqb_spec (property_key seg) (property_key t)) as [He|Hne].
    + cbn [value_at]. rewrite <- (js_get_key D' seg t He).
      rewrite <- (js_get_key D seg t He).
      rewrite (js_get_set_eq _ _ _ _ H), Hg.
      rewrite (IH _ _ _ _ Hr Hq).
      destruct cur as [c0|].
      * injection H1 as <-. rewrite Hg in Hg1. injection Hg1 as ->. reflexivity.
      * rewrite (js_get_set_eq _ _ _ _ H1) in Hg1. injection Hg1 as <-.
        apply value_at_fresh. eapply diverges_nonempty, Hq.
    + cbn [value_at]. rewrite (js_get_set_ne _ _ t _ _ H Hne).
      rewrite (Hp1 t Hne). reflexivity.
Qed.

Lemma assign_at_frame_witness :
  value_at
    (VObj [("a", VObj [("x", VNum 1); ("y", VNum 7)]); ("b", VNum 2)])
    [SegKey "b"]
  = value_at (VObj [("a", VObj [("x", VNum 1)]); ("b", VNum 2)]) [SegKey "b"].
Proof.
  apply (assign_at_frame (VNum 7) [SegKey "y"]
           (VObj [("a", VObj [("x", VNum 1)]); ("b", VNum 2)]) (SegKey "a")
           (VObj [("a", VObj [("x", VNum 1); ("y", VNum 7)]); ("b", VNum 2)])
           [SegKey "b"]); reflexivity.
Defined.

(** ** One edit after another *)

Lemma assign_terminal_is_set parent seg V D1 :
  assign_terminal parent seg V = Ok D1 -> exists x, js_set parent seg x = Ok D1.
Proof.
  unfold assign_terminal. destruct V; eauto.
  destruct (js_get parent seg) as [[[]|]|]; simpl; eauto. discriminate.
Qed.

Lemma assign_terminal_replace parent seg W :
  is_plain_object W = false -> assign_terminal parent seg W = js_set parent seg W.
Proof. destruct W; [reflexivity..|discriminate]. Qed.

Lemma assign_at_overwrite V W rest :
  is_plain_object W = false ->
  forall D seg D1,
    assign_at D seg rest V = Ok D1 ->
    assign_at D1 seg rest W = assign_at D seg rest W.
Proof.
  intros HW. induction rest as [|seg' rest' IH]; intros D seg D1.
  - simpl. intros [x Hx]%assign_terminal_is_set.
    rewrite !assign_terminal_replace by exact HW.
    eapply js_set_set, Hx.
  - cbn [assign_at].
    destruct (js_get D seg) as [cur|] eqn:Hg; simpl; [|discriminate].
    destruct (match cur with None => _ | Some _ => _ end) as [p1|] eqn:H1;
      simpl; [|discriminate].
    destruct (js_get p1 seg) as [[c|]|] eqn:Hg1; simpl; try discriminate.
    destruct (assign_at c seg' rest' V) as [c'|] eqn:Hr; simpl; [|discriminate].
    intros Hs. rewrite (js_get_set_eq _ _ _ _ Hs). simpl.
    rewrite (js_get_set_eq _ _ _ _ Hs). simpl.
    rewrite (IH _ _ _ Hr).
    destruct (assign_at c seg' rest' W) as [c''|]; simpl; [|reflexivity].
    eapply js_set_set, Hs.
Qed.

(** X2. The last write wins: on a path of data keys, when the second
    value is not a plain object (a scalar, [null] or an array), applying
    an edit and then a second edit at the same path gives exactly what the
    second edit alone gives, whatever the first value was; if the path
    cannot be written, both throw. *)
Theorem patched_overwrite D path V W :
  data_path (default [] path) = true ->
  is_plain_object W = false ->
  bind (patched D path V) (fun D1 => patched D1 path W) = patched D path W.
Proof.
  intros _ HW. destruct path as [[|seg rest]|]; try reflexivity.
  simpl. destruct (assign_at D seg rest V) as [D1|e] eqn:E; simpl.
  - eapply assign_at_overwrite; eauto.
  - pose proof (assign_at_completes V rest D seg) as HV.
    pose proof (assign_at_completes W rest D seg) as HWc.
    rewrite E in HV. simpl in HV. rewrite <- HV in HWc.
    destruct (assign_at D seg rest W) as [|e'] eqn:E'; [discriminate|].
    apply assign_at_throws in E. apply assign_at_throws in E'. congruence.
Qed.

Lemma patched_overwrite_witness :
  bind (patched (VObj [("a", VObj [("x", VNum 1)])]) (Some [SegKey "a"])
          (VObj [("y", VNum 2)]))
    (fun D1 => patched D1 (Some [SegKey "a"]) (VStr "z"))
  = patched (VObj [("a", VObj [("x", VNum 1)])]) (Some [SegKey "a"]) (VStr "z").
Proof.
  apply (patched_overwrite (VObj [("a", VObj [("x", VNum 1)])])
           (Some [SegKey "a"]) (VObj [("y", VNum 2)]) (VStr "z"));
    reflexivity.
Defined.

Lemma assign_at_patchable V rest : forall D seg D1,
  assign_at D seg rest V = Ok D1 -> patchable D1 seg rest = true.
Proof.
  induction rest as [|seg' rest' IH]; intros D seg D1.
  - simpl. intros [x Hx]%assign_terminal_is_set.
    apply js_set_is_container in Hx as [_ ->]. reflexivity.
  - cbn [assign_at patchable].
    destruct (js_get D seg) as [cur|] eqn:Hg; simpl; [|discriminate].
    destruct (match cur with None => _ | Some _ => _ end) as [p1|] eqn:H1;
      simpl; [|discriminate].
    destruct (js_get p1 seg) as [[c|]|] eqn:Hg1; simpl; try discriminate.
    destruct (assign_at c seg' rest' V) as [c'|] eqn:Hr; simpl; [|discriminate].
    intros Hs. rewrite (js_get_set_eq _ _ _ _ Hs).
    apply js_set_is_container in Hs as [_ ->]. simpl.
    eapply IH, Hr.
Qed.

(** X3. Once an edit at a path of data keys has completed, no later edit
    at that path throws, whatever value it writes: the first edit leaves
    an object or an array at the root and at every position the walk
    descends into. *)
Theorem patched_then_writable D path V D1 :
  data_path (default [] path) = true ->
  patched D path V = Ok D1 ->
  forall W, exists D2, patched D1 path W = Ok D2.
Proof.
  intros _. destruct path as [[|seg rest]|]; simpl; eauto.
  intros H W. apply assign_at_patchable in H.
  apply patchable_assign_at, H.
Qed.

Lemma patched_then_writable_witness :
  exists D2,
    patched (VObj [("a", VArr [None; Some (VObj [("b", VNum 5)])] [])])
      (Some [SegKey "a"; SegIdx 1; SegKey "b"]) (VStr "x") = Ok D2.
Proof.
  apply (patched_then_writable (VObj [("a", VArr [] [])])
           (Some [SegKey "a"; SegIdx 1; SegKey "b"]) (VNum 5)
           (VObj [("a", VArr [None; Some (VObj [("b", VNum 5)])] [])])
           eq_refl eq_refl (VStr "x")).
Defined.

(** ** Saving the content as it is shown *)

Lemma value_at_primitive v p t :
  is_container v = false -> p <> [] -> value_at v p <> Some (VObj t).
Proof.
  revert v. induction p as [|seg p IH]; intros v Hv Hp; [congruence|].
  simpl. destruct v; try discriminate; simpl; try congruence.
  unfold str_get. destruct (array_index _); [|congruence].
  destruct (get _ _); [|congruence].
  destruct p as [|seg' p]; [simpl; congruence|].
  apply IH; [reflexivity|congruence].
Qed.

Lemma js_get_object_container parent seg c :
  js_get parent seg = Ok (Some c) -> is_container c = true ->
  is_container parent = true.
Proof.
  destruct parent; simpl; try discriminate; try reflexivity.
  unfold str_get. destruct (array_index _); [|discriminate].
  destruct (get _ _); [|discriminate]. intros [= <-]. discriminate.
Qed.

Lemma value_at_container v p t :
  value_at v p = Some (VObj t) -> is_container v = true.
Proof.
  intros H. destruct (is_container v) eqn:Hv; [reflexivity|].
  destruct p as [|seg p].
  - injection H as ->. discriminate.
  - exfalso. eapply value_at_primitive; eauto. congruence.
Qed.

(** Merging into an object entries it already has leaves it as it is. *)
Lemma spread_present {A : Type} (t nv : props A) :
  own_keys_ordered t = true ->
  (forall k x, In (k, x) nv -> obj_get t k = Some x) ->
  spread t nv = t.
Proof.
  intros Ho Hin. unfold spread. rewrite fold_left_app.
  rewrite (fold_set_ordered_id _ Ho). apply fold_set_id, Hin.
Qed.

Lemma assign_at_same rest nv : forall D seg t,
  value_at D (seg :: rest) = Some (VObj t) ->
  spread t nv = t ->
  assign_at D seg rest (VObj nv) = Ok D.
Proof.
  induction rest as [|seg' rest' IH]; intros D seg t Hat Hsp.
  - simpl in *. unfold assign_terminal.
    destruct (js_get D seg) as [[c|]|] eqn:Hg; try discriminate.
    injection Hat as ->. simpl. rewrite Hsp.
    apply js_set_id; [|exact Hg].
    eapply js_get_object_container; eauto.
  - cbn [assign_at].
    change (value_at D (seg :: seg' :: rest'))
      with (match js_get D seg with
            | Ok (Some c) => value_at c (seg' :: rest')
            | _ => None
            end) in Hat.
    destruct (js_get D seg) as [[c|]|] eqn:Hg; try discriminate.
    simpl. rewrite Hg. simpl. rewrite (IH _ _ _ Hat Hsp). simpl.
    apply js_set_id; [|exact Hg].
    eapply js_get_object_container; [exact Hg|].
    exact (value_at_container _ _ _ Hat).
Qed.

Lemma In_editable_fields rows k x :
  In (k, x) (editable_fields rows) ->
  exists row, In row rows /\ is_scalar_row row = true /\
              truthy_key (key row) = Some k /\ value_ row = x.
Proof.
  intros Hin.
  apply In_obj_get in Hin;
    [|eapply keys_ordered_from_unique, editable_fields_ordered].
  rewrite editable_fields_get in Hin. apply obj_get_In in Hin.
  apply in_rev in Hin. clear -Hin.
  induction rows as [|row rows IH]; simpl in Hin; [contradiction|].
  destruct (is_scalar_row row) eqn:Hs;
    [destruct (truthy_key (key row)) as [k'|] eqn:Hk|].
  - destruct Hin as [[= <- <-]|Hin].
    + exists row. repeat split; auto. left. reflexivity.
    + destruct (IH Hin) as (r & Hr & H). exists r. split; [right; exact Hr|exact H].
  - destruct (IH Hin) as (r & Hr & H). exists r. split; [right; exact Hr|exact H].
  - destruct (IH Hin) as (r & Hr & H). exists r. split; [right; exact Hr|exact H].
Qed.

(** X4. Saving what is shown changes nothing below the root: when the
    edited position of a parsed document holds an object and every keyed
    scalar row shows the entry that object has under its key, patching the
    document with the object of the editable content returns the very same
    document (keys, values and key order). *)
Theorem patched_unchanged_content D seg rest t rows :
  JSON_value D = true ->
  value_at D (seg :: rest) = Some (VObj t) ->
  (forall row k,
     In row rows -> is_scalar_row row = true ->
     truthy_key (key row) = Some k ->
     obj_get t k = Some (scalar_value (value_ row))) ->
  patched D (Some (seg :: rest)) (object_of_fields (editable_fields rows)) = Ok D.
Proof.
  intros HD Hat Hrows. simpl. unfold object_of_fields.
  eapply assign_at_same; [exact Hat|].
  apply spread_present.
  - apply JSON_value_own_keys_ordered. exact (JSON_value_at _ _ _ HD Hat).
  - intros k x Hin. apply in_map_iff in Hin as ([k' y] & [= <- <-] & Hin).
    apply In_editable_fields in Hin as (row & Hr & Hs & Hk & <-).
    eapply Hrows; eauto.
Qed.

Lemma patched_unchanged_content_witness :
  patched (VObj [("a", VNum 1); ("b", VObj [("c", VNum 2); ("d", VArr [] [])])])
    (Some [SegKey "b"])
    (object_of_fields
       (editable_fields
          [ {| key := Some "c"; value_ := SNum 2; type := TNumber;
               childrenCount := None |};
            {| key := Some "d"; value_ := SNull; type := TArray;
               childrenCount := Some 0%N |} ]))
  = Ok (VObj [("a", VNum 1); ("b", VObj [("c", VNum 2); ("d", VArr [] [])])]).
Proof.
  apply (patched_unchanged_content
           (VObj [("a", VNum 1); ("b", VObj [("c", VNum 2); ("d", VArr [] [])])])
           (SegKey "b") [] [("c", VNum 2); ("d", VArr [] [])]).
  - reflexivity.
  - reflexivity.
  - intros row k [<-|[<-|[]]] Hs Hk; simpl in *; try discriminate.
    injection Hk as <-. reflexivity.
Defined.

(** ** The Save handler as a whole *)

Section SaveFacts.

Variable build_graph : string -> list NodeData.
Variable message : exn -> string.

Lemma applyEditToJson_stores p V st st' :
  applyEditToJson build_graph p V st = Ok st' ->
  contents st' = json st' /\ hasChanges st' = true /\
  nodes st' = build_graph (json st') /\ error st' = error st /\
  editing st' = editing st.
Proof.
  unfold applyEditToJson. destruct p as [[|seg rest]|].
  - destruct (find is_root _); intros [= <-]; repeat split.
  - destruct (assign_at _ seg rest V) as [doc|]; simpl; [|discriminate].
    intros [= <-]. unfold reselect. destruct (find _ _); repeat split.
  - destruct (find is_root _); intros [= <-]; repeat split.
Qed.

(** X5. A save is all or nothing.  Either it is rejected, and then the
    state is the one before with the error message set (file store, json
    store, node set, selection, edited text and editing mode untouched), or
    it goes through, and then no error is shown, editing is over, the file
    store is marked changed, the file store and the json store hold the
    same text, and the node set is the graph of that text. *)
Theorem save_all_or_nothing st :
  (exists e, save build_graph message st = setError (Some (message e)) st) \/
  (error (save build_graph message st) = None /\
   editing (save build_graph message st) = false /\
   hasChanges (save build_graph message st) = true /\
   contents (save build_graph message st) = json (save build_graph message st) /\
   nodes (save build_graph message st)
   = build_graph (json (save build_graph message st))).
Proof.
  unfold save.
  destruct (JSON_parse (editedContent (setError None st))) as [V|e];
    [|left; exists e; reflexivity].
  destruct (applyEditToJson build_graph _ V (setError None st)) as [st'|e]
    eqn:Happ; [|left; exists e; reflexivity].
  right. apply applyEditToJson_stores in Happ as (H1 & H2 & H3 & H4 & H5).
  simpl. auto.
Qed.

(** X6. A patch that throws is reported like a parse failure.  When the
    edited text is valid JSON but the walk along the selected path, a
    path of data keys, meets [null] or a primitive in the current
    document, the save writes no store: the state is the one before with
    the message of the [TypeError] as error. *)
Theorem save_patch_failure st V D seg rest :
  JSON_parse (editedContent st) = Ok V ->
  JSON_parse (json st) = Ok D ->
  mbind path (selectedNode st) = Some (seg :: rest) ->
  data_path (seg :: rest) = true ->
  patchable D seg rest = false ->
  save build_graph message st = setError (Some (message TypeError)) st.
Proof.
  intros HV HD Hp _ Hpat. unfold save. simpl. rewrite HV.
  unfold JSONPath in *. rewrite Hp.
  unfold applyEditToJson. simpl. rewrite HD.
  pose proof (assign_at_completes V rest D seg) as Hc. rewrite Hpat in Hc.
  destruct (assign_at D seg rest V) as [|e] eqn:E; [discriminate|].
  apply assign_at_throws in E. subst e. reflexivity.
Qed.

(** X7. After a save that went through at a non-empty path and found the
    edited node again, the modal is settled: the effect that runs on the
    change of the selected node computes the state that the save has
    already reached. *)
Theorem save_then_effect st seg rest n :
  mbind path (selectedNode st) = Some (seg :: rest) ->
  error (save build_graph message st) = None ->
  In n (nodes (save build_graph message st)) ->
  default [] (path n) = seg :: rest ->
  onNodeChange (save build_graph message st) = save build_graph message st.
Proof.
  intros Hp. unfold save.
  destruct (JSON_parse (editedContent (setError None st))) as [V|e];
    [|discriminate].
  simpl selectedNode. unfold JSONPath in *. rewrite Hp.
  unfold applyEditToJson.
  destruct (assign_at _ seg rest V) as [doc|e]; simpl bind; [|discriminate].
  intros _ Hin Hn. cbv beta iota.
  unfold reselect in *.
  destruct (find (same_path (seg :: rest)) _) as [m|] eqn:Hf.
  - reflexivity.
  - simpl in Hin. apply (find_none _ _ Hf) in Hin.
    apply same_path_spec in Hn. congruence.
Qed.

(** X8. Cancel undoes a rejected save: after a save that was rejected,
    Cancel leads to the state that Cancel reaches without the save, which
    is also the state the node-change effect computes; the stores are the
    ones before the save. *)
Theorem cancel_after_rejected_save st m :
  error (save build_graph message st) = Some m ->
  cancel (save build_graph message st) = cancel st /\
  cancel st = onNodeChange st /\
  contents (cancel (save build_graph message st)) = contents st /\
  json (cancel (save build_graph message st)) = json st /\
  shown_content (cancel (save build_graph message st)) = selected_content st.
Proof.
  unfold save.
  destruct (JSON_parse (editedContent (setError None st))) as [V|e];
    [|intros _; repeat split].
  destruct (applyEditToJson build_graph _ V (setError None st)) as [st'|e]
    eqn:Happ; [|intros _; repeat split].
  apply applyEditToJson_stores in Happ as (_ & _ & _ & He & _).
  simpl. rewrite He. discriminate.
Qed.

End SaveFacts.

Lemma save_patch_failure_witness :
  save (fun _ => []) (fun _ => "TypeError")
    {| contents := "{}"; hasChanges := false;
       json := JSON_stringify (VObj [("a", VNull)]);
       nodes := []; 
       selectedNode :=
         Some {| id := "3"; text := []; width := 0; height := 0;
                 path := Some [SegKey "a"; SegKey "b"] |};
       editing := true; editedContent := "5"; error := None |}
  = setError (Some ((fun _ => "TypeError") TypeError))
      {| contents := "{}"; hasChanges := false;
         json := JSON_stringify (VObj [("a", VNull)]);
         nodes := []; 
         selectedNode :=
           Some {| id := "3"; text := []; width := 0; height := 0;
                   path := Some [SegKey "a"; SegKey "b"] |};
         editing := true; editedContent := "5"; error := None |}.
Proof.
  apply (save_patch_failure (fun _ => []) (fun _ => "TypeError") _
           (VNum 5) (VObj [("a", VNull)]) (SegKey "a") [SegKey "b"]);
    reflexivity.
Defined.

Lemma save_then_effect_witness :
  onNodeChange
    (save (fun _ => [root_node_example; node_a_example]) (fun _ => "error")
       node_a_selected_state)
  = save (fun _ => [root_node_example; node_a_example]) (fun _ => "error")
      node_a_selected_state.
Proof.
  apply (save_then_effect (fun _ => [root_node_example; node_a_example])
           (fun _ => "error") node_a_selected_state (SegKey "a") []
           node_a_example).
  - reflexivity.
  - reflexivity.
  - right. left. reflexivity.
  - reflexivity.
Defined.

Lemma cancel_after_rejected_save_witness :
  cancel (save (fun _ => []) (fun _ => "error") node_a_bad_text_state)
  = cancel node_a_bad_text_state /\
  cancel node_a_bad_text_state = onNodeChange node_a_bad_text_state /\
  contents (cancel (save (fun _ => []) (fun _ => "error") node_a_bad_text_state))
  = contents node_a_bad_text_state /\
  json (cancel (save (fun _ => []) (fun _ => "error") node_a_bad_text_state))
  = json node_a_bad_text_state /\
  shown_content
    (cancel (save (fun _ => []) (fun _ => "error") node_a_bad_text_state))
  = selected_content node_a_bad_text_state.
Proof.
  apply (cancel_after_rejected_save (fun _ => []) (fun _ => "error")
           node_a_bad_text_state "error").
  reflexivity.
Defined.

(** ** Reading a displayed path back *)

Local Open Scope string_scope.

Lemma concat_accessors p :
  String.concat EmptyString (map bracketed p) = accessors p.
Proof.
  induction p as [|seg rest IH]; [reflexivity|].
  destruct rest as [|seg' rest].
  - simpl. rewrite append_nil_r. reflexivity.
  - change (String.concat EmptyString (map bracketed (seg :: seg' :: rest)))
      with (bracketed seg ++ EmptyString
            ++ String.concat EmptyString (map bracketed (seg' :: rest))).
    rewrite IH. reflexivity.
Qed.

Lemma jsonPathToString_Some p :
  jsonPathToString (Some p) = "$" ++ accessors p.
Proof.
  destruct p as [|seg rest]; [reflexivity|].
  rewrite <- concat_accessors, <- concat_brackets. reflexivity.
Qed.

Lemma quote_free_split s : forall s' R R',
  quote_free s = true -> quote_free s' = true ->
  s ++ dquote ++ R = s' ++ dquote ++ R' -> s = s' /\ R = R'.
Proof.
  induction s as [|c s IH]; intros [|c' s'] R R' Hs Hs'; simpl in *.
  - intros [= ->]. auto.
  - intros [= <- _]. discriminate.
  - intros [= -> _]. discriminate.
  - apply andb_prop in Hs as [_ Hs]. apply andb_prop in Hs' as [_ Hs'].
    intros [= -> H]. destruct (IH _ _ _ Hs Hs' H) as [-> ->]. auto.
Qed.

Lemma string_of_uint_bracket_inj d : forall d' X Y,
  NilEmpty.string_of_uint d ++ String "]" X
  = NilEmpty.string_of_uint d' ++ String "]" Y ->
  d = d' /\ X = Y.
Proof.
  induction d; intros d' X Y; destruct d'; simpl; try discriminate;
    try (intros [= H]; destruct (IHd _ _ _ H) as [-> ->]; auto).
  intros [= ->]. auto.
Qed.

Lemma bracketed_inj a b X Y :
  segment_quote_free a = true -> segment_quote_free b = true ->
  bracketed a ++ X = bracketed b ++ Y -> a = b /\ X = Y.
Proof.
  destruct a as [s|n], b as [s'|n']; simpl; intros Ha Hb.
  - intros [= H]. rewrite !append_assoc in H.
    change (String (ascii_of_nat 34) ("]" ++ X)) with (dquote ++ "]" ++ X) in H.
    change (String (ascii_of_nat 34) ("]" ++ Y)) with (dquote ++ "]" ++ Y) in H.
    apply quote_free_split in H as [-> H]; auto.
    injection H as ->. auto.
  - destruct (index_to_string_head n') as (c & r & -> & Hc & _).
    simpl. intros [= H _]. congruence.
  - destruct (index_to_string_head n) as (c & r & -> & Hc & _).
    simpl. intros [= H _]. congruence.
  - rewrite !index_to_string_NilEmpty. intros [= H].
    rewrite !append_assoc in H. simpl in H.
    apply string_of_uint_bracket_inj in H as [H ->].
    apply DecimalN.Unsigned.to_uint_inj in H. subst. auto.
Qed.

Lemma accessors_inj p : forall q,
  forallb segment_quote_free p = true -> forallb segment_quote_free q = true ->
  accessors p = accessors q -> p = q.
Proof.
  induction p as [|a p IH]; intros [|b q] Hp Hq; simpl in *; try reflexivity.
  - destruct b; discriminate.
  - destruct a; discriminate.
  - apply andb_prop in Hp as [Ha Hp]. apply andb_prop in Hq as [Hb Hq].
    intros H. apply bracketed_inj in H as [-> H]; auto.
    f_equal. apply IH; auto.
Qed.

(** X9. Two paths whose string segments hold no double quote are
    displayed alike only when they are the same path: the displayed
    accessor expression reads back in one way. *)
Theorem jsonPathToString_inj p q :
  forallb segment_quote_free p = true ->
  forallb segment_quote_free q = true ->
  jsonPathToString (Some p) = jsonPathToString (Some q) -> p = q.
Proof.
  intros Hp Hq. rewrite !jsonPathToString_Some. intros [= H].
  apply accessors_inj; auto.
Qed.

Lemma jsonPathToString_inj_witness :
  [SegKey "customer"; SegIdx 2] = [SegKey "customer"; SegIdx 2].
Proof.
  apply (jsonPathToString_inj [SegKey "customer"; SegIdx 2]
           [SegKey "customer"; SegIdx 2]); reflexivity.
Defined.

(** X10. The keys are not escaped for display: a key that holds the text
    of a closing and an opening accessor between two parts is displayed
    exactly like the path of the two parts, so the displayed expression
    does not tell such paths apart (the comparison used to find a node
    again, on [JSON.stringify] texts, does). *)
Theorem jsonPathToString_unescaped s1 s2 :
  jsonPathToString (Some [SegKey (s1 ++ dquote ++ "][" ++ dquote ++ s2)])
  = jsonPathToString (Some [SegKey s1; SegKey s2]) /\
  JSON_stringify_path [SegKey (s1 ++ dquote ++ "][" ++ dquote ++ s2)]
  <> JSON_stringify_path [SegKey s1; SegKey s2].
Proof.
  split.
  - rewrite !jsonPathToString_Some. simpl.
    repeat first [rewrite append_assoc | rewrite append_nil_r | progress simpl].
    reflexivity.
  - intros H. apply JSON_stringify_path_inj in H. discriminate.
Qed.

(** ** Reading numbers and strings back *)

Local Open Scope string_scope.

Lemma length_append (a b : string) :
  String.length (a ++ b) = (String.length a + String.length b)%nat.
Proof. induction a as [|c a IH]; simpl; [reflexivity|]. rewrite IH. reflexivity. Qed.

Lemma skip_ws_app w x : all_ws w = true -> skip_ws (w ++ x) = skip_ws x.
Proof.
  induction w as [|c w IH]; simpl; [reflexivity|].
  intros [Hc Hw]%andb_prop. rewrite Hc. apply IH, Hw.
Qed.

Lemma all_ws_app a b : all_ws a = true -> all_ws b = true -> all_ws (a ++ b) = true.
Proof.
  induction a as [|c a IH]; simpl; [auto|].
  intros [Hc Ha]%andb_prop Hb. rewrite Hc. simpl. apply IH; auto.
Qed.

Lemma substring_all s : substring 0 (String.length s) s = s.
Proof. induction s as [|c s IH]; simpl; [reflexivity|]. rewrite IH. reflexivity. Qed.

Lemma prefix_app p rest : String.prefix p (p ++ rest) = true.
Proof.
  induction p as [|c p IH]; simpl.
  - destruct rest; reflexivity.
  - destruct (ascii_dec c c); [exact IH|congruence].
Qed.

Lemma starts_with_app p rest : starts_with p (p ++ rest) = Some rest.
Proof.
  unfold starts_with. rewrite prefix_app. f_equal.
  induction p as [|c p IH]; simpl.
  - rewrite Nat.sub_0_r. apply substring_all.
  - exact IH.
Qed.

Lemma ends_number_digit rest :
  ends_number rest = true ->
  match rest with
  | EmptyString => True
  | String c _ => digit_of c = None
  end.
Proof.
  destruct rest as [|c rest]; [trivial|]. unfold ends_number, digit_of.
  destruct ((48 <=? nat_of_ascii c) && (nat_of_ascii c <=? 57))%nat;
    [discriminate|reflexivity].
Qed.

Lemma read_digits_stop rest acc :
  ends_number rest = true -> read_digits rest acc = (acc, rest).
Proof.
  intros H. apply ends_number_digit in H.
  destruct rest as [|c rest]; [reflexivity|]. simpl. rewrite H. reflexivity.
Qed.

Lemma read_digits_uint l : forall acc rest,
  ends_number rest = true ->
  read_digits (NilEmpty.string_of_uint l ++ rest) (Npos acc)
  = (Npos (Pos.of_uint_acc l acc), rest).
Proof.
  induction l; intros acc rest Hrest; simpl NilEmpty.string_of_uint;
    [apply read_digits_stop, Hrest|..];
    cbn [append read_digits]; cbv [digit_of]; simpl;
    rewrite <- IHl by exact Hrest; do 2 f_equal; lia.
Qed.

Lemma pos_to_uint_nzhead (p : positive) :
  Decimal.nzhead (Pos.to_uint p) = Pos.to_uint p.
Proof.
  pose proof (DecimalPos.Unsigned.to_of (Pos.to_uint p)) as H.
  rewrite DecimalPos.Unsigned.of_to in H. simpl in H.
  unfold Decimal.unorm in H.
  destruct (Decimal.nzhead (Pos.to_uint p)) eqn:E; try exact (eq_sym H).
  exfalso. eapply DecimalPos.Unsigned.to_uint_nonzero, H.
Qed.

Lemma read_integer_digits c d x n rest :
  digit_of c = Some d -> (d =? 0)%N = false ->
  read_digits x d = (n, rest) -> ends_number rest = true ->
  read_integer (String c x) = Some (n, rest).
Proof.
  intros Hc Hd Hx Hrest. unfold read_integer. rewrite Hc, Hd, Hx.
  destruct rest as [|c' rest']; [reflexivity|].
  unfold ends_number in Hrest.
  destruct (((48 <=? nat_of_ascii c') && (nat_of_ascii c' <=? 57)
             || (nat_of_ascii c' =? 46) || (nat_of_ascii c' =? 101)
             || (nat_of_ascii c' =? 69))%nat); [discriminate|reflexivity].
Qed.

Lemma read_integer_pos (p : positive) rest :
  ends_number rest = true ->
  read_integer (NilEmpty.string_of_uint (Pos.to_uint p) ++ rest)
  = Some (Npos p, rest).
Proof.
  intros Hrest.
  pose proof (DecimalPos.Unsigned.of_to p) as Hof.
  pose proof (pos_to_uint_nzhead p) as Hnz.
  pose proof (DecimalPos.Unsigned.to_uint_nonnil p) as Hnil.
  destruct (Pos.to_uint p) as [|l|l|l|l|l|l|l|l|l|l] eqn:E;
    [contradiction
    |exfalso; eapply DecimalFacts.nzhead_nonzero; exact Hnz
    |..];
    simpl in Hof; injection Hof as <-;
    simpl NilEmpty.string_of_uint; cbn [append];
    (eapply read_integer_digits;
     [reflexivity|reflexivity|apply read_digits_uint, Hrest|exact Hrest]).
Qed.

Lemma read_integer_zero rest :
  ends_number rest = true -> read_integer ("0" ++ rest) = Some (0%N, rest).
Proof.
  intros Hrest. cbn [append]. unfold read_integer.
  change (digit_of "0") with (Some 0%N). cbv beta iota. simpl N.eqb. cbv iota.
  destruct rest as [|c rest']; [reflexivity|].
  unfold ends_number in Hrest.
  destruct (((48 <=? nat_of_ascii c) && (nat_of_ascii c <=? 57)
             || (nat_of_ascii c =? 46) || (nat_of_ascii c =? 101)
             || (nat_of_ascii c =? 69))%nat); [discriminate|reflexivity].
Qed.

Lemma uint_text_head (p : positive) rest :
  exists c s,
    NilEmpty.string_of_uint (Pos.to_uint p) ++ rest = String c s /\
    number_head c = true /\ (nat_of_ascii c =? 45)%nat = false.
Proof.
  pose proof (DecimalPos.Unsigned.to_uint_nonnil p) as Hnil.
  destruct (Pos.to_uint p); [contradiction|..]; simpl;
    eexists _, _; (split; [reflexivity|]); split; reflexivity.
Qed.

Lemma number_text_head z rest :
  exists c s, number_to_string z ++ rest = String c s /\ number_head c = true.
Proof.
  unfold number_to_string. destruct z as [|p|p]; simpl.
  - eexists _, _. split; reflexivity.
  - pose proof (DecimalPos.Unsigned.to_uint_nonnil p) as Hnil.
    destruct (uint_text_head p rest) as (c & s & H & Hc & _).
    exists c, s. split; [|exact Hc].
    rewrite <- H. unfold NilZero.string_of_uint.
    destruct (Pos.to_uint p); [contradiction|..]; reflexivity.
  - eexists _, _. split; reflexivity.
Qed.

Lemma read_number_to_string z rest :
  ends_number rest = true ->
  read_number (number_to_string z ++ rest) = Some (VNum z, rest).
Proof.
  intros Hrest. unfold number_to_string.
  destruct z as [|p|p]; simpl Z.to_int; unfold NilZero.string_of_int.
  - change (NilZero.string_of_uint Decimal.zero) with "0".
    unfold read_number. cbn [append]. simpl Nat.eqb. cbv iota.
    change (String "0" rest) with ("0" ++ rest).
    rewrite (read_integer_zero rest Hrest). reflexivity.
  - pose proof (DecimalPos.Unsigned.to_uint_nonnil p) as Hnil.
    assert (Ht : NilZero.string_of_uint (Pos.to_uint p)
                 = NilEmpty.string_of_uint (Pos.to_uint p)).
    { unfold NilZero.string_of_uint.
      destruct (Pos.to_uint p); [contradiction|..]; reflexivity. }
    rewrite Ht.
    destruct (uint_text_head p rest) as (c & s & H & _ & Hc).
    unfold read_number. rewrite H, Hc. rewrite <- H.
    rewrite (read_integer_pos p rest Hrest). reflexivity.
  - pose proof (DecimalPos.Unsigned.to_uint_nonnil p) as Hnil.
    assert (Ht : NilZero.string_of_uint (Pos.to_uint p)
                 = NilEmpty.string_of_uint (Pos.to_uint p)).
    { unfold NilZero.string_of_uint.
      destruct (Pos.to_uint p); [contradiction|..]; reflexivity. }
    rewrite Ht. unfold read_number. cbn [append]. simpl Nat.eqb. cbv iota.
    rewrite (read_integer_pos p rest Hrest). reflexivity.
Qed.

Lemma length_quote_char c : (1 <= String.length (quote_char c))%nat.
Proof. destruct c as [[] [] [] [] [] [] [] []]; simpl; lia. Qed.

Lemma length_quote_chars s : (String.length s <= String.length (quote_chars s))%nat.
Proof.
  induction s as [|c s IH]; simpl; [lia|].
  rewrite length_append. pose proof (length_quote_char c). lia.
Qed.

Lemma read_string_quoted s rest :
  read_string (quote_chars s ++ dquote ++ rest) = Some (s, rest).
Proof.
  unfold read_string. apply read_string_quote_chars.
  rewrite length_append. pose proof (length_quote_chars s). lia.
Qed.

(** ** Reading a value back *)

Lemma read_value_S fuel s :
  read_value (S fuel) s
  = match skip_ws s with
    | EmptyString => None
    | String c s' =>
        let n := nat_of_ascii c in
        if (n =? 123)%nat then
          match skip_ws s' with
          | String c' s'' =>
              if (nat_of_ascii c' =? 125)%nat then Some (VObj [], s'')
              else read_members fuel (skip_ws s') []
          | EmptyString => None
          end
        else if (n =? 91)%nat then
          match skip_ws s' with
          | String c' s'' =>
              if (nat_of_ascii c' =? 93)%nat then Some (VArr [] [], s'')
              else read_elements fuel (skip_ws s') []
          | EmptyString => None
          end
        else if (n =? 34)%nat then
          option_map (fun r => (VStr (fst r), snd r)) (read_string s')
        else
          match starts_with "null" (String c s'), starts_with "true" (String c s'),
                starts_with "false" (String c s') with
          | Some rest, _, _ => Some (VNull, rest)
          | _, Some rest, _ => Some (VBool true, rest)
          | _, _, Some rest => Some (VBool false, rest)
          | None, None, None => read_number (String c s')
          end
    end.
Proof. reflexivity. Qed.

Lemma read_elements_S fuel s acc :
  read_elements (S fuel) s acc
  = match read_value fuel s with
    | Some (v, rest) =>
        match skip_ws rest with
        | String c rest' =>
            if (nat_of_ascii c =? 44)%nat
            then read_elements fuel rest' (acc ++ [Some v])%list
            else if (nat_of_ascii c =? 93)%nat
            then Some (VArr (acc ++ [Some v])%list [], rest')
            else None
        | EmptyString => None
        end
    | None => None
    end.
Proof. reflexivity. Qed.

Lemma read_members_S fuel s acc :
  read_members (S fuel) s acc
  = match skip_ws s with
    | String q s' =>
        if (nat_of_ascii q =? 34)%nat then
          match read_string s' with
          | Some (k, rest) =>
              match skip_ws rest with
              | String c rest' =>
                  if (nat_of_ascii c =? 58)%nat then
                    match read_value fuel rest' with
                    | Some (v, rest'') =>
                        match skip_ws rest'' with
                        | String d rest3 =>
                            if (nat_of_ascii d =? 44)%nat
                            then read_members fuel rest3 (obj_set acc k v)
                            else if (nat_of_ascii d =? 125)%nat
                            then Some (VObj (obj_set acc k v), rest3)
                            else None
                        | EmptyString => None
                        end
                    | None => None
                    end
                  else None
              | EmptyString => None
              end
          | None => None
          end
        else None
    | EmptyString => None
    end.
Proof. reflexivity. Qed.

Lemma read_value_ws fuel w x :
  all_ws w = true -> read_value fuel (w ++ x) = read_value fuel x.
Proof.
  intros Hw. destruct fuel; [reflexivity|].
  rewrite !read_value_S, (skip_ws_app _ _ Hw). reflexivity.
Qed.

Lemma starts_with_head a p c s :
  a <> c -> starts_with (String a p) (String c s) = None.
Proof.
  intros Hne. unfold starts_with. simpl.
  destruct (ascii_dec a c); [contradiction|reflexivity].
Qed.

Lemma read_value_literal fuel c s :
  is_ws c = false ->
  (nat_of_ascii c =? 123)%nat = false ->
  (nat_of_ascii c =? 91)%nat = false ->
  (nat_of_ascii c =? 34)%nat = false ->
  read_value (S fuel) (String c s)
  = match starts_with "null" (String c s), starts_with "true" (String c s),
          starts_with "false" (String c s) with
    | Some rest, _, _ => Some (VNull, rest)
    | _, Some rest, _ => Some (VBool true, rest)
    | _, _, Some rest => Some (VBool false, rest)
    | None, None, None => read_number (String c s)
    end.
Proof.
  intros Hws H1 H2 H3. rewrite read_value_S. simpl skip_ws. rewrite Hws.
  cbv zeta. rewrite H1, H2, H3. reflexivity.
Qed.

Lemma read_value_number fuel z rest :
  ends_number rest = true ->
  read_value (S fuel) (number_to_string z ++ rest) = Some (VNum z, rest).
Proof.
  intros Hrest.
  destruct (number_text_head z rest) as (c & s & Ht & Hc).
  pose proof (read_number_to_string z rest Hrest) as Hnum.
  rewrite Ht in *. unfold number_head in Hc.
  assert (Hn : (48 <= nat_of_ascii c <= 57 \/ nat_of_ascii c = 45)%nat).
  { apply orb_prop in Hc as [[H1 H2]%andb_prop|H].
    - apply Nat.leb_le in H1, H2. lia.
    - apply Nat.eqb_eq in H. lia. }
  rewrite read_value_literal.
  - rewrite !starts_with_head; [exact Hnum|..];
      intros <-; vm_compute in Hn; lia.
  - unfold is_ws.
    destruct (Nat.eqb_spec (nat_of_ascii c) 32); [lia|].
    destruct (Nat.eqb_spec (nat_of_ascii c) 9); [lia|].
    destruct (Nat.eqb_spec (nat_of_ascii c) 10); [lia|].
    destruct (Nat.eqb_spec (nat_of_ascii c) 13); [lia|]. reflexivity.
  - apply Nat.eqb_neq. lia.
  - apply Nat.eqb_neq. lia.
  - apply Nat.eqb_neq. lia.
Qed.

Lemma read_value_null fuel rest :
  read_value (S fuel) ("null" ++ rest) = Some (VNull, rest).
Proof.
  cbn [append]. rewrite read_value_literal by reflexivity.
  change (String "n" (String "u" (String "l" (String "l" rest))))
    with ("null" ++ rest).
  rewrite starts_with_app. reflexivity.
Qed.

Lemma read_value_true fuel rest :
  read_value (S fuel) ("true" ++ rest) = Some (VBool true, rest).
Proof.
  cbn [append]. rewrite read_value_literal by reflexivity.
  rewrite starts_with_head by discriminate.
  change (String "t" (String "r" (String "u" (String "e" rest))))
    with ("true" ++ rest).
  rewrite starts_with_app. reflexivity.
Qed.

Lemma read_value_false fuel rest :
  read_value (S fuel) ("false" ++ rest) = Some (VBool false, rest).
Proof.
  cbn [append]. rewrite read_value_literal by reflexivity.
  rewrite !starts_with_head by discriminate.
  change (String "f" (String "a" (String "l" (String "s" (String "e" rest)))))
    with ("false" ++ rest).
  rewrite starts_with_app. reflexivity.
Qed.

Lemma read_value_quoted fuel s :
  read_value (S fuel) (String (ascii_of_nat 34) s)
  = option_map (fun r => (VStr (fst r), snd r)) (read_string s).
Proof. rewrite read_value_S. reflexivity. Qed.

Lemma read_value_string fuel s rest :
  read_value (S fuel) (quote s ++ rest) = Some (VStr s, rest).
Proof.
  unfold quote. rewrite !append_assoc.
  change (dquote ++ quote_chars s ++ dquote ++ rest)
    with (String (ascii_of_nat 34) (quote_chars s ++ dquote ++ rest)).
  rewrite read_value_quoted.
  rewrite read_string_quoted. reflexivity.
Qed.

Lemma skip_ws_head c s : is_ws c = false -> skip_ws (String c s) = String c s.
Proof. intros H. simpl. rewrite H. reflexivity. Qed.

Lemma stringify_head indent v rest :
  exists c s,
    stringify indent v ++ rest = String c s /\ is_ws c = false /\
    (nat_of_ascii c =? 93)%nat = false /\ (nat_of_ascii c =? 125)%nat = false.
Proof.
  destruct v as [|[]|z|s|[|e es] named|[|kv own]];
    try (eexists _, _; repeat split; reflexivity).
  destruct (number_text_head z rest) as (c & s & Ht & Hc).
  exists c, s. split; [exact Ht|]. unfold number_head in Hc.
  assert (Hn : (48 <= nat_of_ascii c <= 57 \/ nat_of_ascii c = 45)%nat).
  { apply orb_prop in Hc as [[H1 H2]%andb_prop|H].
    - apply Nat.leb_le in H1, H2. lia.
    - apply Nat.eqb_eq in H. lia. }
  repeat split.
  - unfold is_ws.
    destruct (Nat.eqb_spec (nat_of_ascii c) 32); [lia|].
    destruct (Nat.eqb_spec (nat_of_ascii c) 9); [lia|].
    destruct (Nat.eqb_spec (nat_of_ascii c) 10); [lia|].
    destruct (Nat.eqb_spec (nat_of_ascii c) 13); [lia|]. reflexivity.
  - apply Nat.eqb_neq. lia.
  - apply Nat.eqb_neq. lia.
Qed.

Lemma read_value_array fuel X c s :
  skip_ws X = String c s -> (nat_of_ascii c =? 93)%nat = false ->
  read_value (S fuel) (String "[" X) = read_elements fuel (String c s) [].
Proof.
  intros HX Hc. rewrite read_value_S. simpl skip_ws at 1. cbv zeta.
  simpl Nat.eqb. cbv iota. rewrite HX, Hc. reflexivity.
Qed.

Lemma read_value_object fuel X c s :
  skip_ws X = String c s -> (nat_of_ascii c =? 125)%nat = false ->
  read_value (S fuel) (String "{" X) = read_members fuel (String c s) [].
Proof.
  intros HX Hc. rewrite read_value_S. simpl skip_ws at 1. cbv zeta.
  simpl Nat.eqb. cbv iota. rewrite HX, Hc. reflexivity.
Qed.

Lemma all_ws_newline_indent indent :
  all_ws indent = true -> all_ws (newline ++ indent) = true.
Proof. intros H. simpl. exact H. Qed.

Lemma all_ws_inner indent : all_ws indent = true -> all_ws (indent ++ "  ") = true.
Proof. intros H. apply all_ws_app; [exact H|reflexivity]. Qed.

Lemma reading_fuel_pos v : (1 <= reading_fuel v)%nat.
Proof. destruct v; simpl; lia. Qed.

Lemma skip_ws_closing indent c rest :
  all_ws indent = true -> is_ws c = false ->
  skip_ws (newline ++ indent ++ String c rest) = String c rest.
Proof.
  intros Hi Hc. rewrite <- append_assoc.
  rewrite skip_ws_app by (apply all_ws_newline_indent, Hi).
  apply skip_ws_head, Hc.
Qed.

Lemma reads_elements_step f :
  reads_values f -> reads_elements f -> reads_elements (S f).
Proof.
  intros HV HE es acc w inner indent rest Hw Hin Hind Hne Hes Hfuel.
  destruct es as [|e es]; [contradiction|].
  simpl in Hes. apply andb_prop in Hes as [He Hes].
  destruct e as [x|]; [|discriminate].
  unfold list_sum in Hfuel. cbn [map fold_right] in Hfuel.
  rewrite read_elements_S.
  destruct es as [|e' es].
  - change (String.concat ("," ++ newline ++ inner)
              (map (element_text inner) [Some x]))
      with (stringify inner x).
    rewrite HV; auto; [|lia].
    change ("]" ++ rest) with (String "]" rest).
    rewrite skip_ws_closing by (auto; reflexivity).
    reflexivity.
  - change (String.concat ("," ++ newline ++ inner)
              (map (element_text inner) (Some x :: e' :: es)))
      with (stringify inner x ++ ("," ++ newline ++ inner)
            ++ String.concat ("," ++ newline ++ inner)
                 (map (element_text inner) (e' :: es))).
    rewrite !append_assoc.
    change ("," ++ newline ++ inner
            ++ String.concat ("," ++ newline ++ inner)
                 (map (element_text inner) (e' :: es))
            ++ newline ++ indent ++ "]" ++ rest)
      with (String ","
              (newline ++ inner
               ++ String.concat ("," ++ newline ++ inner)
                    (map (element_text inner) (e' :: es))
               ++ newline ++ indent ++ "]" ++ rest)).
    rewrite HV; auto; [|lia].
    rewrite skip_ws_head by reflexivity. simpl Nat.eqb. cbv iota.
    rewrite <- (append_assoc newline inner).
    assert (Hf : (list_sum
                    (map (fun e => S (match e with
                                      | Some x => reading_fuel x
                                      | None => 1%nat
                                      end)) (e' :: es)) <= f)%nat).
    { unfold list_sum. lia. }
    rewrite (HE (e' :: es) (acc ++ [Some x])%list (newline ++ inner) inner
               indent rest (all_ws_newline_indent _ Hin) Hin Hind
               ltac:(discriminate) Hes Hf).
    rewrite <- app_assoc. reflexivity.
Qed.

Lemma reads_members_step f :
  reads_values f -> reads_members f -> reads_members (S f).
Proof.
  intros HV HM own acc w inner indent rest Hw Hin Hind Hne Hown Hfuel.
  destruct own as [|[k v] own]; [contradiction|].
  simpl in Hown. apply andb_prop in Hown as [Hv Hown].
  unfold list_sum in Hfuel. cbn [map fold_right snd] in Hfuel.
  rewrite read_members_S.
  assert (Hmember : forall R,
            skip_ws (w ++ member_text inner (k, v) ++ R)
            = String (ascii_of_nat 34)
                (quote_chars k ++ dquote
                 ++ String ":" (" " ++ stringify inner v ++ R))).
  { intros R. rewrite skip_ws_app by exact Hw.
    unfold member_text, quote. simpl fst. simpl snd.
    rewrite !append_assoc. reflexivity. }
  destruct own as [|kv' own].
  - change (String.concat ("," ++ newline ++ inner)
              (map (member_text inner) [(k, v)]))
      with (member_text inner (k, v)).
    rewrite Hmember. simpl Nat.eqb. cbv iota.
    rewrite read_string_quoted.
    rewrite skip_ws_head by reflexivity. simpl Nat.eqb. cbv iota.
    rewrite HV; auto; [|lia].
    change ("}" ++ rest) with (String "}" rest).
    rewrite skip_ws_closing by (auto; reflexivity).
    reflexivity.
  - change (String.concat ("," ++ newline ++ inner)
              (map (member_text inner) ((k, v) :: kv' :: own)))
      with (member_text inner (k, v) ++ ("," ++ newline ++ inner)
            ++ String.concat ("," ++ newline ++ inner)
                 (map (member_text inner) (kv' :: own))).
    rewrite !append_assoc.
    rewrite Hmember. simpl Nat.eqb. cbv iota.
    rewrite read_string_quoted.
    rewrite skip_ws_head by reflexivity. simpl Nat.eqb. cbv iota.
    change ("," ++ newline ++ inner
            ++ String.concat ("," ++ newline ++ inner)
                 (map (member_text inner) (kv' :: own))
            ++ newline ++ indent ++ "}" ++ rest)
      with (String ","
              (newline ++ inner
               ++ String.concat ("," ++ newline ++ inner)
                    (map (member_text inner) (kv' :: own))
               ++ newline ++ indent ++ "}" ++ rest)).
    rewrite HV; auto; [|lia].
    rewrite skip_ws_head by reflexivity. simpl Nat.eqb. cbv iota.
    rewrite <- (append_assoc newline inner).
    assert (Hf : (list_sum (map (fun kv => S (reading_fuel (snd kv)))
                              (kv' :: own)) <= f)%nat).
    { unfold list_sum. lia. }
    rewrite (HM (kv' :: own) (obj_set acc k v) (newline ++ inner) inner
               indent rest (all_ws_newline_indent _ Hin) Hin Hind
               ltac:(discriminate) Hown Hf).
    reflexivity.
Qed.

Lemma reads_values_step f :
  reads_values f -> reads_elements f -> reads_members f -> reads_values (S f).
Proof.
  intros HV HE HM v indent w rest Hw Hind Hv Hrest Hfuel.
  rewrite read_value_ws by exact Hw.
  destruct v as [|[]|z|s|elems named|own].
  - apply read_value_null.
  - apply read_value_true.
  - apply read_value_false.
  - apply read_value_number, Hrest.
  - apply read_value_string.
  - simpl in Hv. apply andb_prop in Hv as [Hes Hnamed].
    destruct named; [|discriminate].
    destruct elems as [|e es]; [reflexivity|].
    change (reading_fuel (VArr (e :: es) []))
      with (S (list_sum
                 (map (fun e => S (match e with
                                   | Some x => reading_fuel x
                                   | None => 1%nat
                                   end)) (e :: es)))) in Hfuel.
    apply le_S_n in Hfuel.
    change (stringify indent (VArr (e :: es) []))
      with ("[" ++ newline ++ (indent ++ "  ")
            ++ String.concat ("," ++ newline ++ (indent ++ "  "))
                 (map (element_text (indent ++ "  ")) (e :: es))
            ++ newline ++ indent ++ "]").
    rewrite !append_assoc.
    change ("[" ++ newline ++ indent ++ "  "
            ++ String.concat ("," ++ newline ++ indent ++ "  ")
                 (map (element_text (indent ++ "  ")) (e :: es))
            ++ newline ++ indent ++ "]" ++ rest)
      with (String "["
              (newline ++ indent ++ "  "
               ++ String.concat ("," ++ newline ++ indent ++ "  ")
                    (map (element_text (indent ++ "  ")) (e :: es))
               ++ newline ++ indent ++ "]" ++ rest)).
    pose proof (all_ws_inner indent Hind) as Hin.
    assert (Htext :
      newline ++ indent ++ "  "
      ++ String.concat ("," ++ newline ++ indent ++ "  ")
           (map (element_text (indent ++ "  ")) (e :: es))
      ++ newline ++ indent ++ "]" ++ rest
      = (newline ++ indent ++ "  ")
        ++ EmptyString
        ++ String.concat ("," ++ newline ++ (indent ++ "  "))
             (map (element_text (indent ++ "  ")) (e :: es))
        ++ newline ++ indent ++ "]" ++ rest).
    { rewrite !append_assoc. reflexivity. }
    rewrite Htext.
    assert (Hws : all_ws (newline ++ indent ++ "  ") = true).
    { apply all_ws_newline_indent, Hin. }
    pose proof (HE (e :: es) [] EmptyString (indent ++ "  ") indent rest
                  eq_refl Hin Hind ltac:(discriminate) Hes Hfuel) as Hread.
    assert (Hhead : exists c s,
      EmptyString
      ++ String.concat ("," ++ newline ++ (indent ++ "  "))
           (map (element_text (indent ++ "  ")) (e :: es))
      ++ newline ++ indent ++ "]" ++ rest = String c s
      /\ is_ws c = false /\ (nat_of_ascii c =? 93)%nat = false).
    { simpl in Hes. apply andb_prop in Hes as [He _].
      destruct e as [x|]; [|discriminate].
      destruct es as [|e' es'].
      - destruct (stringify_head (indent ++ "  ") x
                    (newline ++ indent ++ "]" ++ rest))
          as (c & s & H1 & H2 & H3 & _).
        exists c, s. auto.
      - change (String.concat ("," ++ newline ++ (indent ++ "  "))
                  (map (element_text (indent ++ "  ")) (Some x :: e' :: es')))
          with (stringify (indent ++ "  ") x ++ ("," ++ newline ++ (indent ++ "  "))
                ++ String.concat ("," ++ newline ++ (indent ++ "  "))
                     (map (element_text (indent ++ "  ")) (e' :: es'))).
        cbn [append]. rewrite append_assoc.
        destruct (stringify_head (indent ++ "  ") x
                    ((("," ++ newline ++ (indent ++ "  "))
                      ++ String.concat ("," ++ newline ++ (indent ++ "  "))
                           (map (element_text (indent ++ "  ")) (e' :: es')))
                     ++ newline ++ indent ++ "]" ++ rest))
          as (c & s & H1 & H2 & H3 & _).
        exists c, s. auto. }
    destruct Hhead as (c & s & Hc & Hcws & Hc93).
    rewrite Hc in Hread |- *.
    rewrite (read_value_array f _ c s); [exact Hread| |exact Hc93].
    rewrite skip_ws_app by exact Hws. apply skip_ws_head, Hcws.
  - simpl in Hv. apply andb_prop in Hv as [Hord Hown].
    destruct own as [|kv own]; [reflexivity|].
    change (reading_fuel (VObj (kv :: own)))
      with (S (list_sum (map (fun kv => S (reading_fuel (snd kv)))
                           (kv :: own)))) in Hfuel.
    apply le_S_n in Hfuel.
    change (stringify indent (VObj (kv :: own)))
      with ("{" ++ newline ++ (indent ++ "  ")
            ++ String.concat ("," ++ newline ++ (indent ++ "  "))
                 (map (member_text (indent ++ "  ")) (kv :: own))
            ++ newline ++ indent ++ "}").
    rewrite !append_assoc.
    change ("{" ++ newline ++ indent ++ "  "
            ++ String.concat ("," ++ newline ++ indent ++ "  ")
                 (map (member_text (indent ++ "  ")) (kv :: own))
            ++ newline ++ indent ++ "}" ++ rest)
      with (String "{"
              (newline ++ indent ++ "  "
               ++ String.concat ("," ++ newline ++ indent ++ "  ")
                    (map (member_text (indent ++ "  ")) (kv :: own))
               ++ newline ++ indent ++ "}" ++ rest)).
    pose proof (all_ws_inner indent Hind) as Hin.
    assert (Htext :
      newline ++ indent ++ "  "
      ++ String.concat ("," ++ newline ++ indent ++ "  ")
           (map (member_text (indent ++ "  ")) (kv :: own))
      ++ newline ++ indent ++ "}" ++ rest
      = (newline ++ indent ++ "  ")
        ++ EmptyString
        ++ String.concat ("," ++ newline ++ (indent ++ "  "))
             (map (member_text (indent ++ "  ")) (kv :: own))
        ++ newline ++ indent ++ "}" ++ rest).
    { rewrite !append_assoc. reflexivity. }
    rewrite Htext.
    assert (Hws : all_ws (newline ++ indent ++ "  ") = true).
    { apply all_ws_newline_indent, Hin. }
    pose proof (HM (kv :: own) [] EmptyString (indent ++ "  ") indent rest
                  eq_refl Hin Hind ltac:(discriminate) Hown Hfuel) as Hread.
    rewrite (fold_set_ordered_id _ Hord) in Hread.
    assert (Hhead : exists s,
      EmptyString
      ++ String.concat ("," ++ newline ++ (indent ++ "  "))
           (map (member_text (indent ++ "  ")) (kv :: own))
      ++ newline ++ indent ++ "}" ++ rest = String (ascii_of_nat 34) s).
    { destruct own as [|kv' own'].
      - eexists. unfold member_text, quote. simpl. reflexivity.
      - eexists. unfold member_text, quote. simpl. reflexivity. }
    destruct Hhead as (s & Hc).
    rewrite Hc in Hread |- *.
    rewrite (read_value_object f _ (ascii_of_nat 34) s);
      [exact Hread| |reflexivity].
    rewrite skip_ws_app by exact Hws. apply skip_ws_head. reflexivity.
Qed.

Lemma reads_all f : reads_values f /\ reads_elements f /\ reads_members f.
Proof.
  induction f as [|f (HV & HE & HM)].
  - repeat split.
    + intros v indent w rest _ _ _ _ Hf. pose proof (reading_fuel_pos v). lia.
    + intros [|e es] acc w inner indent rest _ _ _ Hne _ Hf;
        [contradiction|simpl in Hf; lia].
    + intros [|kv own] acc w inner indent rest _ _ _ Hne _ Hf;
        [contradiction|simpl in Hf; lia].
  - repeat split.
    + apply reads_values_step; assumption.
    + apply reads_elements_step; assumption.
    + apply reads_members_step; assumption.
Qed.

(** ** Enough fuel for the text of a value *)

Lemma concat_fuel_bound {A : Type} (g : A -> nat) (t : A -> string) sep l :
  (1 <= String.length sep)%nat ->
  Forall (fun a => (g a <= String.length (t a))%nat) l ->
  (list_sum (map (fun a => S (g a)) l)
   <= String.length (String.concat sep (map t l)) + 2)%nat.
Proof.
  intros Hsep Hl. induction Hl as [|a l Ha Hl IH]; [simpl; lia|].
  destruct l as [|b l].
  - simpl. lia.
  - change (String.concat sep (map t (a :: b :: l)))
      with (t a ++ sep ++ String.concat sep (map t (b :: l))).
    rewrite !length_append.
    change (list_sum (map (fun a => S (g a)) (a :: b :: l)))
      with (S (g a) + list_sum (map (fun a => S (g a)) (b :: l)))%nat.
    lia.
Qed.

Lemma reading_fuel_length : forall v indent,
  (reading_fuel v <= String.length (stringify indent v))%nat.
Proof.
  fix IH 1. intros v indent.
  destruct v as [|[]|z|s|elems named|own]; try (simpl; lia).
  - destruct (number_text_head z EmptyString) as (c & s & H & _).
    rewrite append_nil_r in H. simpl. rewrite H. simpl. lia.
  - destruct elems as [|e es]; [simpl; lia|].
    change (stringify indent (VArr (e :: es) named))
      with ("[" ++ newline ++ (indent ++ "  ")
            ++ String.concat ("," ++ newline ++ (indent ++ "  "))
                 (map (element_text (indent ++ "  ")) (e :: es))
            ++ newline ++ indent ++ "]").
    change (reading_fuel (VArr (e :: es) named))
      with (S (list_sum
                 (map (fun e => S (match e with
                                   | Some x => reading_fuel x
                                   | None => 1%nat
                                   end)) (e :: es)))).
    rewrite !length_append.
    assert (H : Forall (fun e => ((match e with
                                   | Some x => reading_fuel x
                                   | None => 1%nat
                                   end)
                                  <= String.length
                                       (element_text (indent ++ "  ") e))%nat)
                  (e :: es)).
    { generalize (e :: es). intros l. induction l as [|a l IHl]; constructor.
      - destruct a as [x|]; [apply IH|simpl; lia].
      - exact IHl. }
    eapply (concat_fuel_bound _ _ ("," ++ newline ++ (indent ++ "  "))) in H;
      [|simpl; lia].
    change (String.length "[") with 1%nat.
    change (String.length "]") with 1%nat.
    change (String.length newline) with 1%nat. lia.
  - destruct own as [|kv own']; [simpl; lia|].
    change (stringify indent (VObj (kv :: own')))
      with ("{" ++ newline ++ (indent ++ "  ")
            ++ String.concat ("," ++ newline ++ (indent ++ "  "))
                 (map (member_text (indent ++ "  ")) (kv :: own'))
            ++ newline ++ indent ++ "}").
    change (reading_fuel (VObj (kv :: own')))
      with (S (list_sum (map (fun kv => S (reading_fuel (snd kv)))
                           (kv :: own')))).
    rewrite !length_append.
    assert (H : Forall (fun kv => (reading_fuel (snd kv)
                                   <= String.length
                                        (member_text (indent ++ "  ") kv))%nat)
                  (kv :: own')).
    { generalize (kv :: own'). intros l. induction l as [|a l IHl]; constructor.
      - unfold member_text. rewrite !length_append.
        pose proof (IH (snd a) (indent ++ "  ")). lia.
      - exact IHl. }
    eapply (concat_fuel_bound _ _ ("," ++ newline ++ (indent ++ "  "))) in H;
      [|simpl; lia].
    change (String.length "{") with 1%nat.
    change (String.length "}") with 1%nat.
    change (String.length newline) with 1%nat. lia.
Qed.

Lemma read_value_written v :
  JSON_value v = true ->
  read_value (2 * String.length (JSON_stringify v) + 2) (JSON_stringify v)
  = Some (v, EmptyString).
Proof.
  intros Hv. unfold JSON_stringify.
  destruct (reads_all (2 * String.length (stringify EmptyString v) + 2))
    as [HV _].
  pose proof (HV v EmptyString EmptyString EmptyString eq_refl eq_refl Hv eq_refl)
    as H.
  rewrite append_nil_r in H. simpl append in H. apply H.
  pose proof (reading_fuel_length v EmptyString). lia.
Qed.

(** X11. The text written for a document reads back as that document:
    for every value that [JSON.parse] can return (no hole, no named
    property on an array, keys in enumeration order),
    [JSON.parse(JSON.stringify(v, null, 2))] is [v], the strings with
    their escapes and the numbers with their signs included. *)
Theorem JSON_parse_stringify v :
  JSON_value v = true -> JSON_parse (JSON_stringify v) = Ok v.
Proof.
  intros Hv. unfold JSON_parse. rewrite (read_value_written v Hv). reflexivity.
Qed.

Lemma JSON_parse_stringify_witness :
  JSON_parse
    (JSON_stringify
       (VObj [("2", VArr [Some (VNum (-7)); Some VNull] []);
              ("a", VStr "x"); ("b", VObj [])]))
  = Ok (VObj [("2", VArr [Some (VNum (-7)); Some VNull] []);
              ("a", VStr "x"); ("b", VObj [])]).
Proof.
  apply (JSON_parse_stringify
           (VObj [("2", VArr [Some (VNum (-7)); Some VNull] []);
                  ("a", VStr "x"); ("b", VObj [])])).
  reflexivity.
Defined.

(** ** What [JSON.parse] returns *)

Local Open Scope list_scope.

Section InSet.
Context {A : Type}.
Implicit Types (o : props A) (k : string) (v : A).

Lemma In_obj_replace o k v kv :
  In kv (obj_replace o k v) -> kv = (k, v) \/ In kv o.
Proof.
  induction o as [|[k0 v0] o IH]; simpl; [tauto|].
  destruct (String.eqb_spec k0 k) as [->|Hne]; simpl.
  - intros [<-|H]; auto.
  - intros [<-|H]; auto. destruct (IH H); auto.
Qed.

Lemma In_obj_insert_index o i k v kv :
  In kv (obj_insert_index o i k v) -> kv = (k, v) \/ In kv o.
Proof.
  induction o as [|[k0 v0] o IH]; simpl; [intros [<-|[]]; auto|].
  destruct (array_index k0) as [j|]; [destruct (i <? j)%N|]; simpl.
  - intros [<-|H]; auto.
  - intros [<-|H]; auto. destruct (IH H); auto.
  - intros [<-|H]; auto.
Qed.

Lemma In_obj_set o k v kv :
  In kv (obj_set o k v) -> kv = (k, v) \/ In kv o.
Proof.
  unfold obj_set. destruct (obj_get o k).
  - apply In_obj_replace.
  - destruct (array_index k).
    + apply In_obj_insert_index.
    + intros [H|[<-|[]]]%in_app_or; auto.
Qed.

Lemma forallb_obj_set (P : string * A -> bool) o k v :
  forallb P o = true -> P (k, v) = true -> forallb P (obj_set o k v) = true.
Proof.
  intros Ho Hv. apply forallb_forall. intros kv [->|Hin]%In_obj_set; auto.
  rewrite forallb_forall in Ho. auto.
Qed.
End InSet.

Lemma JSON_value_obj_set o k v :
  JSON_value (VObj o) = true -> JSON_value v = true ->
  JSON_value (VObj (obj_set o k v)) = true.
Proof.
  simpl. intros [Ho Hall]%andb_prop Hv.
  rewrite own_keys_ordered_set by exact Ho. simpl.
  apply forallb_obj_set; auto.
Qed.

Lemma read_number_value s v r : read_number s = Some (v, r) -> JSON_value v = true.
Proof.
  unfold read_number. destruct s as [|c s]; [discriminate|].
  destruct (nat_of_ascii c =? 45)%nat;
    destruct (read_integer _) as [[n r']|]; simpl; try discriminate;
    intros [= <- _]; reflexivity.
Qed.

Lemma forallb_snoc_element (acc : list (option value)) x :
  forallb (fun e => match e with Some x => JSON_value x | None => false end) acc
  = true ->
  JSON_value x = true ->
  forallb (fun e => match e with Some x => JSON_value x | None => false end)
    (acc ++ [Some x]) = true.
Proof. intros Ha Hx. rewrite forallb_app, Ha. simpl. rewrite Hx. reflexivity. Qed.

Lemma reads_JSON_values fuel :
  (forall s v r, read_value fuel s = Some (v, r) -> JSON_value v = true) /\
  (forall s acc v r,
     forallb (fun e => match e with Some x => JSON_value x | None => false end)
       acc = true ->
     read_elements fuel s acc = Some (v, r) -> JSON_value v = true) /\
  (forall s acc v r,
     JSON_value (VObj acc) = true ->
     read_members fuel s acc = Some (v, r) -> JSON_value v = true).
Proof.
  induction fuel as [|f (HV & HE & HM)]; [repeat split; discriminate|].
  split; [|split].
  - intros s v r. rewrite read_value_S.
    destruct (skip_ws s) as [|c s']; [discriminate|]. cbv zeta.
    destruct (nat_of_ascii c =? 123)%nat.
    { destruct (skip_ws s') as [|c' s'']; [discriminate|].
      destruct (nat_of_ascii c' =? 125)%nat.
      - intros [= <- _]. reflexivity.
      - apply HM. reflexivity. }
    destruct (nat_of_ascii c =? 91)%nat.
    { destruct (skip_ws s') as [|c' s'']; [discriminate|].
      destruct (nat_of_ascii c' =? 93)%nat.
      - intros [= <- _]. reflexivity.
      - apply HE. reflexivity. }
    destruct (nat_of_ascii c =? 34)%nat.
    { destruct (read_string s') as [[k r']|]; simpl; [|discriminate].
      intros [= <- _]. reflexivity. }
    destruct (starts_with "null" _); [intros [= <- _]; reflexivity|].
    destruct (starts_with "true" _); [intros [= <- _]; reflexivity|].
    destruct (starts_with "false" _); [intros [= <- _]; reflexivity|].
    apply read_number_value.
  - intros s acc v r Hacc. rewrite read_elements_S.
    destruct (read_value f s) as [[x r1]|] eqn:Hx; [|discriminate].
    apply HV in Hx.
    destruct (skip_ws r1) as [|c r2]; [discriminate|].
    destruct (nat_of_ascii c =? 44)%nat.
    { apply HE, forallb_snoc_element; auto. }
    destruct (nat_of_ascii c =? 93)%nat; [|discriminate].
    intros [= <- _]. simpl. rewrite forallb_snoc_element; auto.
  - intros s acc v r Hacc. rewrite read_members_S.
    destruct (skip_ws s) as [|q s']; [discriminate|].
    destruct (nat_of_ascii q =? 34)%nat; [|discriminate].
    destruct (read_string s') as [[k r1]|]; [|discriminate].
    destruct (skip_ws r1) as [|c r2]; [discriminate|].
    destruct (nat_of_ascii c =? 58)%nat; [|discriminate].
    destruct (read_value f r2) as [[x r3]|] eqn:Hx; [|discriminate].
    apply HV in Hx.
    destruct (skip_ws r3) as [|d r4]; [discriminate|].
    destruct (nat_of_ascii d =? 44)%nat.
    { apply HM, JSON_value_obj_set; auto. }
    destruct (nat_of_ascii d =? 125)%nat; [|discriminate].
    intros [= <- _]. apply JSON_value_obj_set; auto.
Qed.

Lemma JSON_parse_read text v :
  JSON_parse text = Ok v ->
  exists r, read_value (2 * String.length text + 2) text = Some (v, r).
Proof.
  unfold JSON_parse.
  destruct (read_value _ text) as [[x r]|]; [|discriminate].
  destruct (skip_ws r); [|discriminate]. intros [= <-]. exists r. reflexivity.
Qed.

Lemma read_value_JSON fuel s v r :
  read_value fuel s = Some (v, r) -> JSON_value v = true.
Proof. apply (proj1 (reads_JSON_values fuel)). Qed.

(** X12. Whatever text it is given, [JSON.parse] returns only values
    without holes and without named array properties, whose objects have
    their keys in enumeration order at every depth, no key twice (a
    repeated key keeps its last value): the documents and the new values
    that reach the patch meet the conditions under which the merge and
    the repeated edit were proved. *)
Theorem JSON_parse_value text v :
  JSON_parse text = Ok v -> JSON_value v = true.
Proof.
  intros H. destruct (JSON_parse_read _ _ H) as [r Hr].
  exact (read_value_JSON _ _ _ _ Hr).
Qed.

Lemma JSON_parse_value_witness :
  JSON_parse
    ("{" ++ dquote ++ "b" ++ dquote ++ ":1," ++ dquote ++ "1" ++ dquote
     ++ ":3," ++ dquote ++ "b" ++ dquote ++ ":2}")%string
  = Ok (VObj [("1", VNum 3); ("b", VNum 2)]) /\
  JSON_value (VObj [("1", VNum 3); ("b", VNum 2)]) = true.
Proof.
  split; [reflexivity|].
  apply (JSON_parse_value
           ("{" ++ dquote ++ "b" ++ dquote ++ ":1," ++ dquote ++ "1" ++ dquote
            ++ ":3," ++ dquote ++ "b" ++ dquote ++ ":2}")%string).
  reflexivity.
Defined.

(** ** Edits that keep the document a JSON value *)

Lemma forallb_insert_element (elems : list (option value)) i x :
  forallb (fun e => match e with Some x => JSON_value x | None => false end)
    elems = true ->
  JSON_value x = true ->
  forallb (fun e => match e with Some x => JSON_value x | None => false end)
    (<[i := Some x]> elems) = true.
Proof.
  intros He Hx. rewrite forallb_forall in *. intros e Hin.
  apply list_elem_of_In, list_elem_of_lookup in Hin as [j Hj].
  destruct (Nat.eq_dec i j) as [->|Hne].
  - destruct (Nat.lt_ge_cases j (length elems)) as [Hlt|Hge].
    + rewrite list_lookup_insert_eq in Hj by exact Hlt.
      injection Hj as <-. exact Hx.
    + rewrite list_insert_ge in Hj by exact Hge.
      apply He, list_elem_of_In. eapply list_elem_of_lookup_2, Hj.
  - rewrite list_lookup_insert_ne in Hj by exact Hne.
    apply He, list_elem_of_In. eapply list_elem_of_lookup_2, Hj.
Qed.

Lemma js_set_JSON_value parent seg v :
  JSON_value parent = true -> JSON_value v = true ->
  match parent with
  | VObj _ => true
  | VArr elems _ =>
      match array_index (property_key seg) with
      | Some i => (N.to_nat i <? length elems)%nat
      | None => false
      end
  | _ => false
  end = true ->
  exists parent', js_set parent seg v = Ok parent' /\ JSON_value parent' = true.
Proof.
  intros Hp Hv Hin. destruct parent as [| | | |elems named|own]; try discriminate.
  - simpl in *. apply andb_prop in Hp as [He Hn].
    destruct (array_index (property_key seg)) as [i|]; [|discriminate].
    eexists. split; [reflexivity|]. simpl. rewrite Hn, andb_true_r.
    unfold arr_set. rewrite Hin. apply forallb_insert_element; auto.
  - eexists. split; [reflexivity|]. apply JSON_value_obj_set; auto.
Qed.

Lemma forallb_fold_set (l : props value) : forall o,
  forallb (fun kv => JSON_value (snd kv)) o = true ->
  forallb (fun kv => JSON_value (snd kv)) l = true ->
  forallb (fun kv => JSON_value (snd kv))
    (fold_left (fun o kv => obj_set o (fst kv) (snd kv)) l o) = true.
Proof.
  induction l as [|[k v] l IH]; intros o Ho Hl; simpl in *; [exact Ho|].
  apply andb_prop in Hl as [Hv Hl]. apply IH; [|exact Hl].
  apply forallb_obj_set; auto.
Qed.

Lemma JSON_value_spread t nv :
  JSON_value (VObj t) = true -> JSON_value (VObj nv) = true ->
  JSON_value (VObj (spread t nv)) = true.
Proof.
  simpl. intros [_ Ht]%andb_prop [_ Hnv]%andb_prop. unfold spread.
  rewrite own_keys_ordered_fold_set by reflexivity. simpl.
  apply forallb_fold_set; [reflexivity|].
  rewrite forallb_app, Ht, Hnv. reflexivity.
Qed.

Lemma writes_in_place_fresh rest : forall seg,
  writes_in_place (VObj []) seg rest = true.
Proof. destruct rest; reflexivity. Qed.

Lemma assign_terminal_JSON_value parent seg V :
  JSON_value parent = true -> JSON_value V = true ->
  writes_in_place parent seg [] = true ->
  exists D', assign_terminal parent seg V = Ok D' /\ JSON_value D' = true.
Proof.
  intros Hp HV Hin. simpl in Hin. rewrite andb_true_r in Hin.
  unfold assign_terminal.
  destruct V as [| | | | |nv]; try (apply js_set_JSON_value; auto).
  destruct (js_get parent seg) as [target|] eqn:Hg.
  - simpl. destruct target as [[| | | | |t]|];
      try solve [apply js_set_JSON_value; auto].
    apply js_set_JSON_value; auto.
    apply JSON_value_spread; [|exact HV]. exact (JSON_value_get _ _ _ Hp Hg).
  - destruct parent; simpl in *; try discriminate.
    destruct (array_index _); discriminate.
Qed.

Lemma assign_at_in_place V rest : forall D seg,
  JSON_value D = true -> JSON_value V = true ->
  writes_in_place D seg rest = true ->
  exists D', assign_at D seg rest V = Ok D' /\ JSON_value D' = true.
Proof.
  induction rest as [|seg' rest' IH]; intros D seg HD HV Hin.
  - apply assign_terminal_JSON_value; auto.
  - cbn [writes_in_place] in Hin. apply andb_prop in Hin as [Hhead Hin].
    cbn [assign_at].
    destruct (js_get D seg) as [[c|]|] eqn:Hg; simpl.
    + rewrite Hg. simpl.
      destruct (IH c seg' (JSON_value_get _ _ _ HD Hg) HV Hin) as (c' & Hc & Hj).
      rewrite Hc. simpl. apply js_set_JSON_value; auto.
    + destruct (js_set_JSON_value D seg (VObj []) HD eq_refl Hhead)
        as (p1 & Hp1 & Hj1).
      rewrite Hp1. simpl. rewrite (js_get_set_eq _ _ _ _ Hp1). simpl.
      destruct (IH (VObj []) seg' eq_refl HV (writes_in_place_fresh _ _))
        as (c' & Hc & Hj).
      rewrite Hc. simpl.
      rewrite (js_set_set _ _ _ _ _ Hp1). apply js_set_JSON_value; auto.
    + destruct D; simpl in *; try discriminate.
      destruct (array_index _); discriminate.
Qed.

(** X13. An edit within the document keeps it a JSON value.  When the
    document and the new value are values of [JSON.parse] and the edit is
    at the root, or on a path of data keys where every container the walk
    writes to is an object, or an array written at an index within its
    length, the patch completes and the patched document has no hole, no
    named array property, and its keys in enumeration order: nothing of
    it is lost or altered when it is serialised. *)
Theorem patched_JSON_value D p V :
  JSON_value D = true -> JSON_value V = true ->
  data_path (default [] p) = true ->
  edits_in_place D p = true ->
  exists doc, patched D p V = Ok doc /\ JSON_value doc = true.
Proof.
  intros HD HV _ Hin. destruct p as [[|seg rest]|]; simpl.
  - exists V. split; [reflexivity|exact HV].
  - apply assign_at_in_place; assumption.
  - exists V. split; [reflexivity|exact HV].
Qed.

Lemma patched_JSON_value_witness :
  exists doc,
    patched (VObj [("a", VArr [Some (VNum 1); Some (VNum 2)] [])])
      (Some [SegKey "a"; SegIdx 1]) (VNum 5) = Ok doc /\
    JSON_value doc = true.
Proof.
  apply (patched_JSON_value
           (VObj [("a", VArr [Some (VNum 1); Some (VNum 2)] [])])
           (Some [SegKey "a"; SegIdx 1]) (VNum 5));
    reflexivity.
Defined.

(** ** Saving, reading back and saving again *)

Lemma parsedCurrent_JSON st : JSON_value (parsedCurrent st) = true.
Proof.
  unfold parsedCurrent. destruct (JSON_parse (json st)) as [D|] eqn:H;
    [|reflexivity].
  destruct (JSON_parse_read _ _ H) as [r Hr]. exact (read_value_JSON _ _ _ _ Hr).
Qed.

Lemma parsedCurrent_written doc st :
  JSON_value doc = true -> json st = JSON_stringify doc ->
  JSON_parse (json st) = Ok doc /\ parsedCurrent st = doc.
Proof.
  intros Hd Hj. unfold parsedCurrent, JSON_parse.
  rewrite Hj, (read_value_written doc Hd). split; reflexivity.
Qed.

Lemma root_path_cases (n : NodeData) :
  is_root n = true -> path n = None \/ path n = Some [].
Proof. unfold is_root. destruct (path n) as [[|]|]; auto; discriminate. Qed.

Lemma JSON_value_object_of_fields fields :
  own_keys_ordered fields = true -> JSON_value (object_of_fields fields) = true.
Proof.
  intros H. unfold object_of_fields. fold (fields_value fields). simpl.
  unfold own_keys_ordered in *. rewrite map_fst_fields_value, H. simpl.
  apply forallb_forall. intros kv Hin. unfold fields_value in Hin.
  apply in_map_iff in Hin as ([k x] & <- & _). destruct x; reflexivity.
Qed.

Lemma to_text_written x :
  is_string x = false -> to_text x = JSON_stringify (scalar_value x).
Proof. destruct x as [|[]| |]; try reflexivity. discriminate. Qed.

(** Replacing a value by itself changes nothing. *)
Lemma assign_at_same_value rest V : forall D seg,
  is_plain_object V = false ->
  patchable D seg rest = true ->
  value_at D (seg :: rest) = Some V ->
  assign_at D seg rest V = Ok D.
Proof.
  induction rest as [|seg' rest' IH]; intros D seg HV Hp Hat.
  - simpl in *. rewrite andb_true_r in Hp.
    rewrite assign_terminal_replace by exact HV.
    destruct (js_get D seg) as [[c|]|] eqn:Hg; try discriminate.
    injection Hat as ->. apply js_set_id; assumption.
  - cbn [assign_at]. cbn [patchable] in Hp. apply andb_prop in Hp as [Hc Hp].
    change (value_at D (seg :: seg' :: rest'))
      with (match js_get D seg with
            | Ok (Some c) => value_at c (seg' :: rest')
            | _ => None
            end) in Hat.
    destruct (js_get D seg) as [[c|]|] eqn:Hg; try discriminate.
    simpl. rewrite Hg. simpl. rewrite (IH _ _ HV Hp Hat). simpl.
    apply js_set_id; assumption.
Qed.

Section SaveAgain.

Variable build_graph : string -> list NodeData.
Variable message : exn -> string.

Lemma save_parsed st V :
  JSON_parse (editedContent st) = Ok V ->
  save build_graph message st
  = match applyEditToJson build_graph (mbind path (selectedNode st)) V
            (setError None st) with
    | Ok st' => setEditing false st'
    | Throw e => setError (Some (message e)) (setError None st)
    end.
Proof. intros HV. unfold save. simpl. rewrite HV. reflexivity. Qed.

Lemma applyEditToJson_below seg rest V st doc :
  assign_at (parsedCurrent st) seg rest V = Ok doc ->
  applyEditToJson build_graph (@Some (list segment) (seg :: rest)) V st
  = Ok (reselect (seg :: rest) (publish build_graph doc st)).
Proof.
  intros H. unfold applyEditToJson. fold (parsedCurrent st). rewrite H.
  reflexivity.
Qed.

Lemma applyEditToJson_root p V st :
  default [] p = [] ->
  applyEditToJson build_graph p V st
  = Ok match find is_root (build_graph (JSON_stringify V)) with
       | Some rootNode => setSelectedNode rootNode (publish build_graph V st)
       | None => publish build_graph V st
       end.
Proof.
  intros Hp. destruct p as [[|]|]; try discriminate;
    unfold applyEditToJson; simpl; destruct (find is_root _); reflexivity.
Qed.


(** X15. Saving the same text a second time changes nothing.  After a
    save that parsed its text and wrote in place, pressing Edit, entering
    the same text and saving again leads to the very state the first save
    left: same stores, same nodes, same selection, same shown content. *)
Theorem save_again st V :
  JSON_parse (editedContent st) = Ok V ->
  edits_in_place (parsedCurrent st) (mbind path (selectedNode st)) = true ->
  save build_graph message
    (setEditedContent (editedContent st)
       (startEditing (save build_graph message st)))
  = save build_graph message st.
Proof.
  intros HV Hin.
  assert (HjV : JSON_value V = true).
  { destruct (JSON_parse_read _ _ HV) as [r Hr].
    exact (read_value_JSON _ _ _ _ Hr). }
  rewrite (save_parsed
             (setEditedContent (editedContent st)
                (startEditing (save build_graph message st))) V HV).
  rewrite (save_parsed st V HV).
  destruct (mbind path (selectedNode st)) as [[|seg rest]|] eqn:Hp;
    unfold JSONPath in *.
  - rewrite (applyEditToJson_root (Some []) V (setError None st) eq_refl).
    destruct (find is_root (build_graph (JSON_stringify V))) as [r|] eqn:Hf.
    + pose proof (find_some _ _ Hf) as [_ Hr]. apply root_path_cases in Hr.
      rewrite applyEditToJson_root by (simpl; destruct Hr as [-> | ->]; reflexivity).
      simpl. rewrite Hf. reflexivity.
    + rewrite applyEditToJson_root by (simpl; rewrite Hp; reflexivity).
      simpl. rewrite Hf. reflexivity.
  - destruct (assign_at_in_place V rest (parsedCurrent st) seg
                (parsedCurrent_JSON st) HjV Hin) as (doc & Hdoc & Hj).
    rewrite (applyEditToJson_below seg rest V (setError None st) doc Hdoc).
    pose proof (assign_at_twice V rest HjV _ _ _ Hdoc) as Htwice.
    unfold reselect. simpl.
    destruct (find (same_path (seg :: rest)) (build_graph (JSON_stringify doc)))
      as [n|] eqn:Hf; simpl.
    + pose proof (find_some _ _ Hf) as [_ Hn]. apply same_path_spec in Hn.
      assert (Hpn : path n = Some (seg :: rest)).
      { destruct (path n) as [q|]; simpl in Hn;
          [subst q; reflexivity|discriminate]. }
      rewrite Hpn.
      erewrite applyEditToJson_below;
        [|match goal with
          | |- assign_at (parsedCurrent ?s) _ _ _ = _ =>
              rewrite (proj2 (parsedCurrent_written doc s Hj eq_refl))
          end; exact Htwice].
      unfold reselect. simpl. rewrite Hf. reflexivity.
    + rewrite Hp.
      erewrite applyEditToJson_below;
        [|match goal with
          | |- assign_at (parsedCurrent ?s) _ _ _ = _ =>
              rewrite (proj2 (parsedCurrent_written doc s Hj eq_refl))
          end; exact Htwice].
      unfold reselect. simpl. rewrite Hf. reflexivity.
  - rewrite (applyEditToJson_root None V (setError None st) eq_refl).
    destruct (find is_root (build_graph (JSON_stringify V))) as [r|] eqn:Hf.
    + pose proof (find_some _ _ Hf) as [_ Hr]. apply root_path_cases in Hr.
      rewrite applyEditToJson_root by (simpl; destruct Hr as [-> | ->]; reflexivity).
      simpl. rewrite Hf. reflexivity.
    + rewrite applyEditToJson_root by (simpl; rewrite Hp; reflexivity).
      simpl. rewrite Hf. reflexivity.
Qed.


(** X17. Saving the content of a leaf as it is shown leaves the document
    as it is, when the leaf is not a string.  The content of a node with a
    single row without a key is the value of the row as text.  When that
    value is a number, a boolean or [null], the document holds it at the
    path of the node and the walk meets containers only, the save goes
    through and writes the text of the document itself. *)
Theorem save_unchanged_leaf st n D seg rest row :
  JSON_parse (json st) = Ok D ->
  selectedNode st = Some n ->
  path n = Some (seg :: rest) ->
  text n = [row] ->
  truthy_key (key row) = None ->
  editedContent st = selected_content st ->
  patchable D seg rest = true ->
  is_string (value_ row) = false ->
  value_at D (seg :: rest) = Some (scalar_value (value_ row)) ->
  json (save build_graph message st) = JSON_stringify D /\
  contents (save build_graph message st) = JSON_stringify D /\
  error (save build_graph message st) = None.
Proof.
  intros Hparse Hsel Hpath Htext Hkey Hed Hp Hx Hat.
  assert (HV : JSON_parse (editedContent st) = Ok (scalar_value (value_ row))).
  { rewrite Hed. unfold selected_content. rewrite Hsel, Htext.
    unfold normalizeNodeData. rewrite Hkey.
    rewrite (to_text_written _ Hx). unfold JSON_parse.
    rewrite read_value_written; [reflexivity|].
    destruct (value_ row); reflexivity. }
  rewrite (save_parsed st _ HV). rewrite Hsel. simpl mbind. rewrite Hpath.
  assert (Hsame : assign_at (parsedCurrent (setError None st)) seg rest
                    (scalar_value (value_ row)) = Ok D).
  { unfold parsedCurrent. simpl json. rewrite Hparse.
    apply assign_at_same_value; [|exact Hp|exact Hat].
    destruct (value_ row); reflexivity. }
  unfold JSONPath in *.
  rewrite (applyEditToJson_below seg rest _ (setError None st) D Hsame).
  unfold reselect. destruct (find _ _); simpl; auto.
Qed.

End SaveAgain.


Lemma save_again_witness :
  save (fun _ => [root_node_example; node_a_example]) (fun _ => "error")
    (setEditedContent (editedContent node_a_selected_state)
       (startEditing
          (save (fun _ => [root_node_example; node_a_example])
             (fun _ => "error") node_a_selected_state)))
  = save (fun _ => [root_node_example; node_a_example]) (fun _ => "error")
      node_a_selected_state.
Proof.
  apply (save_again (fun _ => [root_node_example; node_a_example])
           (fun _ => "error") node_a_selected_state (VNum 5)).
  - reflexivity.
  - reflexivity.
Defined.


Lemma save_unchanged_leaf_witness :
  json (save (fun _ => [root_node_example; leaf_a_example]) (fun _ => "error")
          leaf_a_unchanged_state)
  = JSON_stringify (VObj [("a", VNum 1)]) /\
  contents (save (fun _ => [root_node_example; leaf_a_example])
              (fun _ => "error") leaf_a_unchanged_state)
  = JSON_stringify (VObj [("a", VNum 1)]) /\
  error (save (fun _ => [root_node_example; leaf_a_example]) (fun _ => "error")
           leaf_a_unchanged_state) = None.
Proof.
  apply (save_unchanged_leaf (fun _ => [root_node_example; leaf_a_example])
           (fun _ => "error") leaf_a_unchanged_state leaf_a_example
           (VObj [("a", VNum 1)]) (SegKey "a") [] leaf_row_example);
    reflexivity.
Defined.

(** ** The rows of a rendered node *)

Local Open Scope string_scope.

Lemma index_to_string_inj n m : index_to_string n = index_to_string m -> n = m.
Proof.
  unfold index_to_string. intros H.
  apply (f_equal NilZero.uint_of_string) in H.
  rewrite !NilZero.usu in H by apply N_to_uint_nonnil.
  injection H as H. apply (f_equal N.of_uint) in H.
  rewrite !DecimalN.Unsigned.of_to in H. exact H.
Qed.

Lemma append_cancel_l (a b c : string) : a ++ b = a ++ c -> b = c.
Proof. induction a as [|x a IH]; simpl; [auto|]. intros [= H]. auto. Qed.

(** X19. The rows of a node are rendered one by one, in order, under
    React keys that are pairwise distinct; each shows the text of its own
    row, and when the row height is positive a later row sits strictly
    below an earlier one. *)
Theorem Node_rows ROW_HEIGHT node x y :
  length (Node node x y) = length (text node) /\
  NoDup (map fst (Node node x y)) /\
  (forall i k p,
     Node node x y !! i = Some (k, p) ->
     text node !! i = Some (rp_row p) /\
     shown_text (Row ROW_HEIGHT p) = getRowText (rp_row p) /\
     data_y (Row ROW_HEIGHT p) = (y + Z.of_nat i * ROW_HEIGHT)%Z) /\
  ((0 < ROW_HEIGHT)%Z ->
   forall i j k k' p q,
     Node node x y !! i = Some (k, p) ->
     Node node x y !! j = Some (k', q) ->
     (i < j)%nat ->
     (data_y (Row ROW_HEIGHT p) < data_y (Row ROW_HEIGHT q))%Z).
Proof.
  assert (Hlook : forall i k p,
             Node node x y !! i = Some (k, p) ->
             k = id node ++ "-" ++ index_to_string (N.of_nat i) /\
             text node !! i = Some (rp_row p) /\
             rp_y p = y /\ rp_index p = i).
  { intros i k p. unfold Node. rewrite list_lookup_imap.
    destruct (text node !! i) as [r|]; simpl; [|discriminate].
    intros [= <- <-]. auto. }
  split; [apply length_imap|].
  split.
  { apply NoDup_alt. intros i j k Hi Hj.
    rewrite list_lookup_fmap in Hi, Hj.
    destruct (Node node x y !! i) as [[ki p]|] eqn:Ei; [|discriminate].
    destruct (Node node x y !! j) as [[kj q]|] eqn:Ej; [|discriminate].
    simpl in Hi, Hj. injection Hi as ->. injection Hj as ->.
    apply Hlook in Ei as (Hk & _). apply Hlook in Ej as (Hk' & _).
    rewrite Hk in Hk'. apply append_cancel_l, append_cancel_l in Hk'.
    apply index_to_string_inj in Hk'. lia. }
  split.
  { intros i k p H. apply Hlook in H as (_ & Ht & Hy & Hi).
    split; [exact Ht|]. split; [reflexivity|].
    simpl. unfold rowPosition. rewrite Hy, Hi. reflexivity. }
  intros Hpos i j k k' p q Hi Hj Hlt.
  apply Hlook in Hi as (_ & _ & Hy & Hi).
  apply Hlook in Hj as (_ & _ & Hy' & Hj).
  simpl. unfold rowPosition. rewrite Hy, Hi, Hy', Hj. nia.
Qed.

(** ** What [JSON_parse] reads is valid JSON *)

Local Open Scope string_scope.

Lemma read_digits_skip s : forall acc n rest,
  read_digits s acc = (n, rest) -> skip_digits s = rest.
Proof.
  induction s as [|c s IH]; intros acc n rest; simpl.
  - intros [= _ <-]. reflexivity.
  - destruct (digit_of c) as [d|]; [apply IH|].
    intros [= _ <-]. reflexivity.
Qed.

Lemma read_integer_accept s n rest :
  read_integer s = Some (n, rest) ->
  accept_int s = Some rest /\ accept_frac rest = Some rest
  /\ accept_exp rest = Some rest.
Proof.
  unfold read_integer, accept_int. destruct s as [|c s']; [discriminate|].
  destruct (digit_of c) as [d|]; [|discriminate].
  assert (Hrest : (if (d =? 0)%N then Some s' else Some (skip_digits s'))
                  = Some (snd (if (d =? 0)%N then (0%N, s')
                               else read_digits s' d))).
  { destruct (d =? 0)%N; [reflexivity|].
    destruct (read_digits s' d) as [m r] eqn:E.
    rewrite (read_digits_skip _ _ _ _ E). reflexivity. }
  rewrite Hrest.
  destruct (if (d =? 0)%N then (0%N, s') else read_digits s' d) as [m r].
  simpl snd. destruct r as [|c' r'].
  - intros [= _ <-]. repeat split.
  - destruct (Nat.leb 48 (nat_of_ascii c') && Nat.leb (nat_of_ascii c') 57)%bool;
      [discriminate|]. simpl orb.
    destruct (nat_of_ascii c' =? 46)%nat eqn:E46; [discriminate|].
    destruct (nat_of_ascii c' =? 101)%nat eqn:E101; [discriminate|].
    destruct (nat_of_ascii c' =? 69)%nat eqn:E69; [discriminate|].
    intros [= _ <-]. unfold accept_frac, accept_exp.
    rewrite E46, E101, E69. repeat split.
Qed.

Lemma read_number_accept s v rest :
  read_number s = Some (v, rest) -> accept_number s = Some rest.
Proof.
  unfold read_number, accept_number. destruct s as [|c s']; [discriminate|].
  destruct (nat_of_ascii c =? 45)%nat; cbv zeta.
  - destruct (read_integer s') as [[n r]|] eqn:E; [|discriminate].
    intros [= _ <-]. apply read_integer_accept in E as (-> & -> & ->).
    reflexivity.
  - destruct (read_integer (String c s')) as [[n r]|] eqn:E; [|discriminate].
    intros [= _ <-]. apply read_integer_accept in E as (-> & -> & ->).
    reflexivity.
Qed.

Lemma read_string_accept fuel : forall s str rest,
  read_string_fuel fuel s = Some (str, rest) ->
  accept_string_fuel fuel s = Some rest.
Proof.
  induction fuel as [|f IH]; intros s str rest; [discriminate|].
  assert (Hstep : forall (x : ascii) t,
             option_map (fun r => (String x (fst r), snd r))
               (read_string_fuel f t) = Some (str, rest) ->
             accept_string_fuel f t = Some rest).
  { intros x t. destruct (read_string_fuel f t) as [[a b]|] eqn:E;
      [|discriminate].
    simpl. intros [= _ <-]. eapply IH, E. }
  simpl. destruct s as [|c s']; [discriminate|].
  destruct (nat_of_ascii c =? 34)%nat; [intros [= _ <-]; reflexivity|].
  destruct (nat_of_ascii c <? 32)%nat; [discriminate|].
  destruct (nat_of_ascii c =? 92)%nat; [|apply Hstep].
  destruct s' as [|e s'']; [discriminate|].
  destruct (nat_of_ascii e =? 34)%nat; [apply Hstep|].
  destruct (nat_of_ascii e =? 92)%nat; [apply Hstep|].
  destruct (nat_of_ascii e =? 47)%nat; [apply Hstep|].
  destruct (nat_of_ascii e =? 98)%nat; [apply Hstep|].
  destruct (nat_of_ascii e =? 102)%nat; [apply Hstep|].
  destruct (nat_of_ascii e =? 110)%nat; [apply Hstep|].
  destruct (nat_of_ascii e =? 114)%nat; [apply Hstep|].
  destruct (nat_of_ascii e =? 116)%nat; [apply Hstep|].
  simpl orb.
  destruct (nat_of_ascii e =? 117)%nat; [|discriminate].
  destruct (read_hex4 s'') as [[code r]|]; [|discriminate].
  destruct (code <? 128)%N; [apply Hstep|discriminate].
Qed.

Lemma accept_value_S fuel s :
  accept_value (S fuel) s
  = match skip_ws s with
    | EmptyString => None
    | String c s' as s0 =>
        let n := nat_of_ascii c in
        if (n =? 123)%nat then
          match skip_ws s' with
          | String c' s'' =>
              if (nat_of_ascii c' =? 125)%nat then Some s''
              else accept_members fuel (skip_ws s')
          | EmptyString => None
          end
        else if (n =? 91)%nat then
          match skip_ws s' with
          | String c' s'' =>
              if (nat_of_ascii c' =? 93)%nat then Some s''
              else accept_elements fuel (skip_ws s')
          | EmptyString => None
          end
        else if (n =? 34)%nat then accept_string s'
        else
          match starts_with "null" s0, starts_with "true" s0,
                starts_with "false" s0 with
          | Some rest, _, _ => Some rest
          | _, Some rest, _ => Some rest
          | _, _, Some rest => Some rest
          | None, None, None => accept_number s0
          end
    end.
Proof. reflexivity. Qed.

Lemma accept_elements_S fuel s :
  accept_elements (S fuel) s
  = match accept_value fuel s with
    | Some rest =>
        match skip_ws rest with
        | String c rest' =>
            if (nat_of_ascii c =? 44)%nat then accept_elements fuel rest'
            else if (nat_of_ascii c =? 93)%nat then Some rest'
            else None
        | EmptyString => None
        end
    | None => None
    end.
Proof. reflexivity. Qed.

Lemma accept_members_S fuel s :
  accept_members (S fuel) s
  = match skip_ws s with
    | String q s' =>
        if (nat_of_ascii q =? 34)%nat then
          match accept_string s' with
          | Some rest =>
              match skip_ws rest with
              | String c rest' =>
                  if (nat_of_ascii c =? 58)%nat then
                    match accept_value fuel rest' with
                    | Some rest'' =>
                        match skip_ws rest'' with
                        | String d rest3 =>
                            if (nat_of_ascii d =? 44)%nat
                            then accept_members fuel rest3
                            else if (nat_of_ascii d =? 125)%nat
                            then Some rest3
                            else None
                        | EmptyString => None
                        end
                    | None => None
                    end
                  else None
              | EmptyString => None
              end
          | None => None
          end
        else None
    | EmptyString => None
    end.
Proof. reflexivity. Qed.

Lemma read_accepted fuel :
  (forall s v r, read_value fuel s = Some (v, r) -> accept_value fuel s = Some r) /\
  (forall s acc v r,
     read_elements fuel s acc = Some (v, r) -> accept_elements fuel s = Some r) /\
  (forall s acc v r,
     read_members fuel s acc = Some (v, r) -> accept_members fuel s = Some r).
Proof.
  induction fuel as [|f (HV & HE & HM)]; [repeat split; discriminate|].
  split; [|split].
  - intros s v r. rewrite read_value_S, accept_value_S.
    destruct (skip_ws s) as [|c s']; [discriminate|]. cbv zeta.
    destruct (nat_of_ascii c =? 123)%nat.
    { destruct (skip_ws s') as [|c' s'']; [discriminate|].
      destruct (nat_of_ascii c' =? 125)%nat.
      - intros [= _ <-]. reflexivity.
      - apply HM. }
    destruct (nat_of_ascii c =? 91)%nat.
    { destruct (skip_ws s') as [|c' s'']; [discriminate|].
      destruct (nat_of_ascii c' =? 93)%nat.
      - intros [= _ <-]. reflexivity.
      - apply HE. }
    destruct (nat_of_ascii c =? 34)%nat.
    { destruct (read_string s') as [[k r']|] eqn:E; simpl; [|discriminate].
      intros [= _ <-]. eapply read_string_accept, E. }
    destruct (starts_with "null" _); [intros [= _ <-]; reflexivity|].
    destruct (starts_with "true" _); [intros [= _ <-]; reflexivity|].
    destruct (starts_with "false" _); [intros [= _ <-]; reflexivity|].
    apply read_number_accept.
  - intros s acc v r. rewrite read_elements_S, accept_elements_S.
    destruct (read_value f s) as [[x r1]|] eqn:Hx; [|discriminate].
    rewrite (HV _ _ _ Hx).
    destruct (skip_ws r1) as [|c r2]; [discriminate|].
    destruct (nat_of_ascii c =? 44)%nat; [apply HE|].
    destruct (nat_of_ascii c =? 93)%nat; [|discriminate].
    intros [= _ <-]. reflexivity.
  - intros s acc v r. rewrite read_members_S, accept_members_S.
    destruct (skip_ws s) as [|q s']; [discriminate|].
    destruct (nat_of_ascii q =? 34)%nat; [|discriminate].
    destruct (read_string s') as [[k r1]|] eqn:Hk; [|discriminate].
    unfold accept_string. unfold read_string in Hk.
    rewrite (read_string_accept _ _ _ _ Hk).
    destruct (skip_ws r1) as [|c r2]; [discriminate|].
    destruct (nat_of_ascii c =? 58)%nat; [|discriminate].
    destruct (read_value f r2) as [[x r3]|] eqn:Hx; [|discriminate].
    rewrite (HV _ _ _ Hx).
    destruct (skip_ws r3) as [|d r4]; [discriminate|].
    destruct (nat_of_ascii d =? 44)%nat; [apply HM|].
    destruct (nat_of_ascii d =? 125)%nat; [|discriminate].
    intros [= _ <-]. reflexivity.
Qed.

Lemma JSON_parse_valid text v : JSON_parse text = Ok v -> valid_JSON text = true.
Proof.
  unfold JSON_parse, valid_JSON.
  destruct (read_value _ text) as [[x r]|] eqn:H; [|discriminate].
  rewrite (proj1 (read_accepted _) _ _ _ H).
  destruct (skip_ws r); [reflexivity|discriminate].
Qed.

Lemma JSON_parse_throws text e : JSON_parse text = Throw e -> e = SyntaxError.
Proof.
  unfold JSON_parse. destruct (read_value _ text) as [[x r]|].
  - destruct (skip_ws r); [discriminate|]. intros [= <-]. reflexivity.
  - intros [= <-]. reflexivity.
Qed.

(** A text that is not valid JSON makes [JSON_parse] throw, as it makes
    [JSON.parse]. *)
Lemma invalid_JSON_throws text :
  valid_JSON text = false -> JSON_parse text = Throw SyntaxError.
Proof.
  intros H. destruct (JSON_parse text) as [v|e] eqn:E.
  - apply JSON_parse_valid in E. congruence.
  - apply JSON_parse_throws in E. subst e. reflexivity.
Qed.

(** ** The stored document *)

Local Open Scope list_scope.

Lemma value_nested_ind (P : value -> Prop) :
  P VNull -> (forall b, P (VBool b)) -> (forall z, P (VNum z)) ->
  (forall s, P (VStr s)) ->
  (forall elems named,
     Forall (fun e => match e with Some x => P x | None => True end) elems ->
     P (VArr elems named)) ->
  (forall own, Forall (fun kv => P (snd kv)) own -> P (VObj own)) ->
  forall v, P v.
Proof.
  intros HN HB HZ HS HA HO. fix IH 1.
  intros [|b|z|s|elems named|own].
  - exact HN.
  - apply HB.
  - apply HZ.
  - apply HS.
  - apply HA. induction elems as [|e l IHl]; constructor; [|exact IHl].
    destruct e as [x|]; [apply IH|exact I].
  - apply HO. induction own as [|kv l IHl]; constructor; [|exact IHl].
    apply IH.
Qed.

(** A value of [JSON.parse] is stored as it is. *)
Lemma stored_JSON_value v : JSON_value v = true -> stored v = v.
Proof.
  induction v as [| | | |elems named IH|own IH] using value_nested_ind;
    try reflexivity; simpl.
  - intros [He Hn]%andb_prop. destruct named; [|discriminate]. f_equal.
    induction IH as [|e l He' _ IHl]; [reflexivity|]. simpl in *.
    apply andb_prop in He as [Hx Hl]. destruct e as [x|]; [|discriminate].
    rewrite (He' Hx), (IHl Hl). reflexivity.
  - intros [_ Ha]%andb_prop. f_equal.
    induction IH as [|[k x] l Hx _ IHl]; [reflexivity|]. simpl in *.
    apply andb_prop in Ha as [Hk Hl]. rewrite (Hx Hk), (IHl Hl). reflexivity.
Qed.

Lemma well_keyed_JSON_value v : JSON_value v = true -> well_keyed v = true.
Proof.
  induction v as [| | | |elems named IH|own IH] using value_nested_ind;
    try reflexivity; simpl.
  - intros [He _]%andb_prop.
    induction IH as [|e l He' _ IHl]; [reflexivity|]. simpl in *.
    apply andb_prop in He as [Hx Hl]. destruct e as [x|]; [|discriminate].
    rewrite (He' Hx), (IHl Hl). reflexivity.
  - intros [Ho Ha]%andb_prop. rewrite Ho. simpl. clear Ho.
    induction IH as [|[k x] l Hx _ IHl]; [reflexivity|]. simpl in *.
    apply andb_prop in Ha as [Hk Hl]. rewrite (Hx Hk), (IHl Hl). reflexivity.
Qed.

Lemma map_fst_stored (own : props value) :
  map fst (map (fun kv => (fst kv, stored (snd kv))) own) = map fst own.
Proof. rewrite map_map. reflexivity. Qed.

(** What is stored is a value of [JSON.parse]. *)
Lemma JSON_value_stored v : well_keyed v = true -> JSON_value (stored v) = true.
Proof.
  induction v as [| | | |elems named IH|own IH] using value_nested_ind;
    try reflexivity; simpl.
  - intros He. rewrite andb_true_r.
    induction IH as [|e l He' _ IHl]; [reflexivity|]. simpl in *.
    apply andb_prop in He as [Hx Hl]. rewrite (IHl Hl), andb_true_r.
    destruct e as [x|]; [exact (He' Hx)|reflexivity].
  - intros [Ho Ha]%andb_prop. unfold own_keys_ordered in *.
    rewrite map_fst_stored, Ho. simpl. clear Ho.
    induction IH as [|[k x] l Hx _ IHl]; [reflexivity|]. simpl in *.
    apply andb_prop in Ha as [Hk Hl]. rewrite (Hx Hk), (IHl Hl). reflexivity.
Qed.

(** The text of the working copy is the text of the stored document. *)
Lemma stringify_stored v : forall indent,
  stringify indent (stored v) = stringify indent v.
Proof.
  induction v as [| | | |elems named IH|own IH] using value_nested_ind;
    try reflexivity; intros indent.
  - assert (Hmap : forall inner,
               map (fun e => match e with
                             | Some x => stringify inner x
                             | None => "null"%string
                             end)
                 (map (fun e => Some (match e with
                                      | Some x => stored x
                                      | None => VNull
                                      end)) elems)
               = map (fun e => match e with
                               | Some x => stringify inner x
                               | None => "null"%string
                               end) elems).
    { intros inner. induction IH as [|a l Ha _ IHl]; [reflexivity|].
      cbn [map]. rewrite IHl. f_equal.
      destruct a as [x|]; [apply Ha|reflexivity]. }
    destruct elems as [|e es]; [reflexivity|].
    cbn [stored]. cbn [stringify]. specialize (Hmap (indent ++ "  ")%string).
    cbn [map] in Hmap |- *. rewrite Hmap. reflexivity.
  - assert (Hmap : forall inner,
               map (fun kv => (quote (fst kv) ++ ": "
                               ++ stringify inner (snd kv))%string)
                 (map (fun kv => (fst kv, stored (snd kv))) own)
               = map (fun kv => (quote (fst kv) ++ ": "
                                 ++ stringify inner (snd kv))%string) own).
    { intros inner. induction IH as [|a l Ha _ IHl]; [reflexivity|].
      cbn [map fst snd]. rewrite IHl, Ha. reflexivity. }
    destruct own as [|kv own']; [reflexivity|].
    cbn [stored]. cbn [stringify]. specialize (Hmap (indent ++ "  ")%string).
    cbn [map] in Hmap |- *. rewrite Hmap. reflexivity.
Qed.

(** The text written for a working copy reads back as the stored
    document. *)
Lemma stored_read_back v :
  well_keyed v = true -> JSON_parse (JSON_stringify v) = Ok (stored v).
Proof.
  intros Hv. unfold JSON_stringify. rewrite <- stringify_stored.
  fold (JSON_stringify (stored v)). unfold JSON_parse.
  rewrite (read_value_written _ (JSON_value_stored v Hv)). reflexivity.
Qed.

Lemma well_keyed_arr_set elems i v :
  forallb (fun e => match e with Some x => well_keyed x | None => true end)
    elems = true ->
  well_keyed v = true ->
  forallb (fun e => match e with Some x => well_keyed x | None => true end)
    (arr_set elems i v) = true.
Proof.
  intros He Hv. unfold arr_set. destruct (i <? length elems)%nat.
  - rewrite forallb_forall in *. intros e Hin.
    apply list_elem_of_In, list_elem_of_lookup in Hin as [j Hj].
    destruct (Nat.eq_dec i j) as [->|Hne].
    + destruct (Nat.lt_ge_cases j (length elems)) as [Hlt|Hge].
      * rewrite list_lookup_insert_eq in Hj by exact Hlt.
        injection Hj as <-. exact Hv.
      * rewrite list_insert_ge in Hj by exact Hge.
        apply He, list_elem_of_In. eapply list_elem_of_lookup_2, Hj.
    + rewrite list_lookup_insert_ne in Hj by exact Hne.
      apply He, list_elem_of_In. eapply list_elem_of_lookup_2, Hj.
  - rewrite !forallb_app, He. simpl. rewrite Hv, !andb_true_r.
    generalize (i - length elems)%nat. intros n.
    induction n as [|n IH]; [reflexivity|exact IH].
Qed.

Lemma well_keyed_js_set parent seg v parent' :
  well_keyed parent = true -> well_keyed v = true ->
  js_set parent seg v = Ok parent' -> well_keyed parent' = true.
Proof.
  intros Hp Hv. destruct parent as [| | | |elems named|own]; simpl;
    try discriminate.
  - destruct (array_index (property_key seg)); intros [= <-]; simpl.
    + apply well_keyed_arr_set; assumption.
    + exact Hp.
  - intros [= <-]. simpl in *. apply andb_prop in Hp as [Ho Ha].
    rewrite own_keys_ordered_set by exact Ho. simpl.
    apply forallb_obj_set; assumption.
Qed.

Lemma JSON_value_terminal_value D p V :
  JSON_value D = true -> JSON_value V = true ->
  JSON_value (terminal_value (value_at D p) V) = true.
Proof.
  intros HD HV. unfold terminal_value.
  destruct V as [| | | | |nv]; try exact HV.
  destruct (value_at D p) as [[| | | | |t]|] eqn:Ht; try exact HV.
  apply JSON_value_spread; [|exact HV]. exact (JSON_value_at _ _ _ HD Ht).
Qed.

(** The patched working copy has its keys in enumeration order. *)
Lemma assign_at_well_keyed V rest : forall D seg D',
  JSON_value D = true -> JSON_value V = true ->
  assign_at D seg rest V = Ok D' -> well_keyed D' = true.
Proof.
  induction rest as [|seg' rest' IH]; intros D seg D' HD HV.
  - simpl. intros H.
    pose proof (assign_terminal_value_at _ _ _ _ H) as Hat.
    destruct (assign_terminal_is_set _ _ _ _ H) as [x Hx].
    pose proof (js_get_set_eq _ _ _ _ Hx) as Hg.
    simpl in Hat. rewrite Hg in Hat. injection Hat as ->.
    eapply well_keyed_js_set; [apply well_keyed_JSON_value, HD| |exact Hx].
    apply well_keyed_JSON_value.
    exact (JSON_value_terminal_value D [seg] V HD HV).
  - cbn [assign_at].
    destruct (js_get D seg) as [[c|]|] eqn:Hg; simpl; try discriminate.
    + rewrite Hg. simpl.
      destruct (assign_at c seg' rest' V) as [c'|] eqn:Hr; simpl;
        [|discriminate].
      intros Hs. eapply well_keyed_js_set;
        [apply well_keyed_JSON_value, HD| |exact Hs].
      eapply IH; [|exact HV|exact Hr]. exact (JSON_value_get _ _ _ HD Hg).
    + destruct (js_set D seg (VObj [])) as [p1|] eqn:Hs1; simpl;
        [|discriminate].
      rewrite (js_get_set_eq _ _ _ _ Hs1). simpl.
      destruct (assign_at (VObj []) seg' rest' V) as [c'|] eqn:Hr; simpl;
        [|discriminate].
      rewrite (js_set_set _ _ _ _ _ Hs1).
      intros Hs. eapply well_keyed_js_set;
        [apply well_keyed_JSON_value, HD| |exact Hs].
      eapply IH; [|exact HV|exact Hr]. reflexivity.
Qed.

Lemma obj_get_stored (own : props value) k :
  obj_get (map (fun kv => (fst kv, stored (snd kv))) own) k
  = option_map stored (obj_get own k).
Proof.
  induction own as [|[k0 x] own IH]; simpl; [reflexivity|].
  destruct (String.eqb k0 k); [reflexivity|exact IH].
Qed.

(** Reading a position that holds a value gives the stored value in the
    stored document, when an array is read at an index. *)
Lemma js_get_stored v seg c :
  js_get v seg = Ok (Some c) ->
  match v with
  | VArr _ _ => array_index (property_key seg) <> None
  | _ => True
  end ->
  js_get (stored v) seg = Ok (Some (stored c)).
Proof.
  destruct v as [| | |s|elems named|own]; simpl; try discriminate.
  - intros [= H] _. rewrite H. f_equal. f_equal.
    unfold str_get in H. destruct (array_index _); [|discriminate].
    destruct (get _ _); [|discriminate]. injection H as <-. reflexivity.
  - destruct (array_index (property_key seg)) as [i|]; [|congruence].
    intros [= H] _. f_equal.
    destruct (elems !! N.to_nat i) as [[x|]|] eqn:E; try discriminate.
    injection H as ->.
    change (map ?f elems) with (f <$> elems).
    rewrite list_lookup_fmap, E. reflexivity.
  - intros [= H] _. rewrite obj_get_stored, H. reflexivity.
Qed.

Lemma js_set_array parent seg v parent' :
  js_set parent seg v = Ok parent' ->
  match parent' with
  | VArr _ _ => match parent with VArr _ _ => True | _ => False end
  | _ => True
  end.
Proof.
  destruct parent; simpl; try discriminate.
  - destruct (array_index _); intros [= <-]; exact I.
  - intros [= <-]. exact I.
Qed.

Lemma indexes_arrays_head parent seg rest :
  indexes_arrays parent seg rest = true ->
  match parent with
  | VArr _ _ => array_index (property_key seg) <> None
  | _ => True
  end.
Proof.
  destruct rest; simpl; intros [H _]%andb_prop;
    destruct parent; try exact I;
    destruct (array_index (property_key seg)); congruence.
Qed.

Lemma js_get_stored_set parent seg v D' :
  js_set parent seg v = Ok D' ->
  match parent with
  | VArr _ _ => array_index (property_key seg) <> None
  | _ => True
  end ->
  js_get (stored D') seg = Ok (Some (stored v)).
Proof.
  intros Hs Hidx. apply js_get_stored; [eapply js_get_set_eq, Hs|].
  pose proof (js_set_array _ _ _ _ Hs) as Ha.
  destruct D'; try exact I. destruct parent; [contradiction..|exact Hidx|contradiction].
Qed.

(** The value at the edited position of the stored document. *)
Lemma assign_at_stored V rest : forall D seg D',
  JSON_value D = true -> JSON_value V = true ->
  indexes_arrays D seg rest = true ->
  assign_at D seg rest V = Ok D' ->
  value_at (stored D') (seg :: rest)
  = Some (terminal_value (value_at D (seg :: rest)) V).
Proof.
  induction rest as [|seg' rest' IH]; intros D seg D' HD HV Hidx.
  - intros H.
    pose proof (assign_terminal_value_at _ _ _ _ H) as Hat.
    destruct (assign_terminal_is_set _ _ _ _ H) as [x Hx].
    pose proof (js_get_set_eq _ _ _ _ Hx) as Hg.
    simpl in Hat. rewrite Hg in Hat. injection Hat as ->.
    cbn [value_at].
    rewrite (js_get_stored_set _ _ _ _ Hx (indexes_arrays_head _ _ _ Hidx)).
    rewrite stored_JSON_value; [reflexivity|].
    exact (JSON_value_terminal_value D [seg] V HD HV).
  - pose proof (indexes_arrays_head _ _ _ Hidx) as Hhead.
    cbn [indexes_arrays] in Hidx. apply andb_prop in Hidx as [_ Hidx].
    cbn [assign_at].
    change (value_at D (seg :: seg' :: rest'))
      with (match js_get D seg with
            | Ok (Some c) => value_at c (seg' :: rest')
            | _ => None
            end).
    change (value_at (stored D') (seg :: seg' :: rest'))
      with (match js_get (stored D') seg with
            | Ok (Some c) => value_at c (seg' :: rest')
            | _ => None
            end).
    destruct (js_get D seg) as [[c|]|] eqn:Hg; simpl; try discriminate.
    + rewrite Hg. simpl.
      destruct (assign_at c seg' rest' V) as [c'|] eqn:Hr; simpl;
        [|discriminate].
      intros Hs. rewrite (js_get_stored_set _ _ _ _ Hs Hhead).
      exact (IH _ _ _ (JSON_value_get _ _ _ HD Hg) HV Hidx Hr).
    + destruct (js_set D seg (VObj [])) as [p1|] eqn:Hs1; simpl;
        [|discriminate].
      rewrite (js_get_set_eq _ _ _ _ Hs1). simpl.
      destruct (assign_at (VObj []) seg' rest' V) as [c'|] eqn:Hr; simpl;
        [|discriminate].
      rewrite (js_set_set _ _ _ _ _ Hs1).
      intros Hs. rewrite (js_get_stored_set _ _ _ _ Hs Hhead).
      pose proof (IH (VObj []) seg' c' eq_refl HV
                    ltac:(destruct rest'; reflexivity) Hr) as Hc.
      rewrite value_at_fresh in Hc by discriminate. exact Hc.
Qed.

(** ** The merge and the replace, in the stored document *)




(** An index past the end of an array: the value is stored at the index,
    after [null]s. *)
Example replace_past_the_end :
  patched (VObj [("a", VArr [Some (VNum 1)] [])])
    (Some [SegKey "a"; SegIdx 3]) (VNum 5)
  = Ok (VObj [("a", VArr [Some (VNum 1); None; None; Some (VNum 5)] [])]) /\
  JSON_parse
    (JSON_stringify
       (VObj [("a", VArr [Some (VNum 1); None; None; Some (VNum 5)] [])]))
  = Ok (VObj [("a", VArr [Some (VNum 1); Some VNull; Some VNull;
                          Some (VNum 5)] [])]).
Proof. split; reflexivity. Qed.

(** ** Synthesis of missing containers, on data keys *)

Lemma stored_past_end elems named n x :
  stored (VArr (elems ++ replicate n None ++ [Some x]) named)
  = VArr (map (fun e => Some (match e with
                              | Some y => stored y
                              | None => VNull
                              end)) elems
          ++ replicate n (Some VNull) ++ [Some (stored x)]) [].
Proof.
  simpl. f_equal. rewrite !map_app. f_equal. f_equal.
  induction n as [|n IH]; [reflexivity|]. simpl. rewrite IH. reflexivity.
Qed.



(** What exists is kept, what is missing is synthesised. *)
Example walk_keeps_and_synthesises :
  patched (VObj [("a", VObj [("x", VNum 1)])])
    (Some [SegKey "a"; SegKey "b"; SegKey "c"]) (VNum 5)
  = Ok (VObj [("a", VObj [("x", VNum 1); ("b", VObj [("c", VNum 5)])])]).
Proof. reflexivity. Qed.

(** ** Parse failures, on the grammar of JSON *)

Lemma patched_fresh p V :
  exists doc, patched (VObj []) p V = Ok doc.
Proof.
  destruct p as [[|seg rest]|]; simpl; eauto.
  rewrite assign_at_fresh. eauto.
Qed.

Section ParseFailure.

Variable build_graph : string -> list NodeData.
Variable message : exn -> string.


End ParseFailure.

(** A number with a fraction is valid JSON that [JSON_parse] does not
    read: the statements about parse failures do not speak of it. *)
Example fraction_is_valid_JSON :
  valid_JSON "1.5" = true /\ within_model "1.5" = false /\
  valid_JSON "1." = false /\ within_model "1." = true.
Proof. repeat split. Qed.

(** ** The editable content, without a row keyed [__proto__] *)

Lemma value_at_writes_in_place rest : forall D seg x,
  JSON_value D = true ->
  patchable D seg rest = true ->
  value_at D (seg :: rest) = Some x ->
  writes_in_place D seg rest = true.
Proof.
  induction rest as [|seg' rest' IH]; intros D seg x HD Hp Hat.
  - simpl in *. rewrite andb_true_r in *.
    destruct D as [| | | |elems named|own]; try discriminate; [|reflexivity].
    simpl in HD, Hat. apply andb_prop in HD as [_ Hn].
    destruct named; [|discriminate].
    destruct (array_index (property_key seg)) as [i|]; [|discriminate].
    destruct (elems !! N.to_nat i) as [e|] eqn:E; [|discriminate].
    apply lookup_lt_Some in E. apply Nat.ltb_lt, E.
  - cbn [patchable] in Hp. apply andb_prop in Hp as [Hc Hp].
    change (value_at D (seg :: seg' :: rest'))
      with (match js_get D seg with
            | Ok (Some c) => value_at c (seg' :: rest')
            | _ => None
            end) in Hat.
    cbn [writes_in_place].
    destruct (js_get D seg) as [[c|]|] eqn:Hg; try discriminate.
    rewrite (IH _ _ _ (JSON_value_get _ _ _ HD Hg) Hp Hat), andb_true_r.
    destruct D as [| | | |elems named|own]; try discriminate; [|reflexivity].
    simpl in HD, Hg. apply andb_prop in HD as [_ Hn].
    destruct named; [|discriminate].
    destruct (array_index (property_key seg)) as [i|]; [|discriminate].
    destruct (elems !! N.to_nat i) as [e|] eqn:E; [|discriminate].
    apply lookup_lt_Some in E. apply Nat.ltb_lt, E.
Qed.

(** C10, amended.  The editable content of a node: [{}] for a missing or
    empty row list; the value of the row, as text, for a single row
    without a key; otherwise, when no row is keyed [__proto__], the
    2-space-indented JSON text of the object that holds the rows with a
    key whose kind is neither array nor object, and no other entry.  At a
    non-empty path whose position holds an object, the edit merges that
    object into it and leaves every entry under another key, the
    container children among them, as it was, in a document that is
    stored as it is. *)
Theorem normalizeNodeData_content :
  normalizeNodeData None = "{}" /\
  normalizeNodeData (Some []) = "{}" /\
  (forall row,
     truthy_key (key row) = None ->
     normalizeNodeData (Some [row]) = to_text (value_ row)) /\
  (forall row rest,
     proto_free (row :: rest) = true ->
     (rest <> [] \/ truthy_key (key row) <> None) ->
     normalizeNodeData (Some (row :: rest))
     = JSON_stringify (object_of_fields (editable_fields (row :: rest)))) /\
  (forall rows k,
     proto_free rows = true ->
     obj_get (editable_fields rows) k = obj_get (rev (editable_rows rows)) k) /\
  (forall rows D seg rest t k,
     proto_free rows = true ->
     JSON_value D = true -> patchable D seg rest = true ->
     value_at D (seg :: rest) = Some (VObj t) ->
     obj_get (editable_fields rows) k = None ->
     exists D' m,
       patched D (Some (seg :: rest)) (object_of_fields (editable_fields rows))
       = Ok D' /\
       JSON_value D' = true /\
       value_at D' (seg :: rest) = Some (VObj m) /\
       obj_get m k = obj_get t k).
Proof.
  split; [reflexivity|]. split; [reflexivity|]. split; [|split; [|split]].
  - intros row Hk. unfold normalizeNodeData. rewrite Hk. reflexivity.
  - intros row rest _. apply normalizeNodeData_object.
  - intros rows k _. apply editable_fields_get.
  - intros rows D seg rest t k _ HD Hp Ht Hk.
    destruct (editable_merge_keeps rows D seg rest t k HD Hp Ht Hk)
      as (D' & m & HD' & Hm & Hget).
    exists D', m. split; [exact HD'|]. split; [|split; assumption].
    destruct (assign_at_in_place (object_of_fields (editable_fields rows)) rest
                D seg HD
                (JSON_value_object_of_fields _ (editable_fields_ordered rows))
                (value_at_writes_in_place _ _ _ _ HD Hp Ht))
      as (D2 & HD2 & HJ).
    simpl in HD'. rewrite HD' in HD2. injection HD2 as <-. exact HJ.
Qed.

(** ** A string leaf saved as it is shown *)

Section StringLeaf.

Variable build_graph : string -> list NodeData.
Variable message : exn -> string.

(** X18. A string leaf is shown without its quotes and saved as what its
    text reads as.  When the document holds at the path of the selected
    node a string that is the decimal form of an integer [z] of at most
    [2^53 - 1] in absolute value, the single row without a key of the
    node shows it, the edited text is the content the modal computed and
    the walk meets containers only, the save goes through and the stores
    hold a document, stored as it is, with the number [z], not the
    string, at the path of the node. *)
Theorem save_string_leaf_as_number st n D seg rest row z :
  JSON_parse (json st) = Ok D ->
  selectedNode st = Some n ->
  path n = Some (seg :: rest) ->
  text n = [row] ->
  truthy_key (key row) = None ->
  editedContent st = selected_content st ->
  patchable D seg rest = true ->
  value_ row = SStr (number_to_string z) ->
  value_at D (seg :: rest) = Some (VStr (number_to_string z)) ->
  (Z.abs z <= 9007199254740991)%Z ->
  exists doc,
    json (save build_graph message st) = JSON_stringify doc /\
    contents (save build_graph message st) = JSON_stringify doc /\
    JSON_value doc = true /\
    value_at doc (seg :: rest) = Some (VNum z) /\
    error (save build_graph message st) = None.
Proof.
  intros Hparse Hsel Hpath Htext Hkey Hed Hp Hz Hat _.
  assert (HD : JSON_value D = true).
  { destruct (JSON_parse_read _ _ Hparse) as [r Hr].
    exact (read_value_JSON _ _ _ _ Hr). }
  assert (HV : JSON_parse (editedContent st) = Ok (VNum z)).
  { rewrite Hed. unfold selected_content. rewrite Hsel, Htext.
    unfold normalizeNodeData. rewrite Hkey, Hz.
    change (to_text (SStr (number_to_string z))) with (JSON_stringify (VNum z)).
    unfold JSON_parse. rewrite read_value_written; reflexivity. }
  rewrite (save_parsed build_graph message st _ HV).
  rewrite Hsel. simpl mbind. rewrite Hpath.
  destruct (assign_at_in_place (VNum z) rest D seg HD eq_refl
              (value_at_writes_in_place _ _ _ _ HD Hp Hat))
    as (doc & Hdoc & HJ).
  exists doc.
  pose proof (assign_at_value_at _ _ _ _ _ Hdoc) as Hval.
  assert (Hcur : assign_at (parsedCurrent (setError None st)) seg rest (VNum z)
                 = Ok doc).
  { unfold parsedCurrent. simpl json. rewrite Hparse. exact Hdoc. }
  unfold JSONPath in *.
  rewrite (applyEditToJson_below build_graph seg rest _ (setError None st) doc
             Hcur).
  unfold reselect. destruct (find _ _); simpl; auto.
Qed.

End StringLeaf.

Lemma save_string_leaf_as_number_witness :
  exists doc,
    json (save (fun _ => [root_node_example; string_leaf_example])
            (fun _ => "error") string_leaf_state) = JSON_stringify doc /\
    contents (save (fun _ => [root_node_example; string_leaf_example])
                (fun _ => "error") string_leaf_state) = JSON_stringify doc /\
    JSON_value doc = true /\
    value_at doc [SegKey "a"] = Some (VNum 12) /\
    error (save (fun _ => [root_node_example; string_leaf_example])
             (fun _ => "error") string_leaf_state) = None.
Proof.
  apply (save_string_leaf_as_number
           (fun _ => [root_node_example; string_leaf_example])
           (fun _ => "error") string_leaf_state string_leaf_example
           (VObj [("a", VStr "12")]) (SegKey "a") [] string_row_example 12);
    try reflexivity.
  lia.
Defined.
